(** * The plant-guide extractor of [parse_plants.py]

    A shallow embedding of the text-extraction core of the repository
    ([parse_plants], [categorize_plant], [clean_name] and the clean-up,
    merge and sort steps of [main]) together with the properties its
    specification states about it.

    Python values are modelled as follows.
    - A [str] is the list of its Unicode code points ([pystr]).
    - The [dict] built for a plant is an insertion-ordered association
      list from key to value; [d[k]] on a missing key raises [KeyError].
    - Indexing a list or a string out of range raises [IndexError].
    - [while] loops run on a budget of iterations; a loop that exhausts
      its budget yields [OutOfFuel], which is never an answer of the
      program and is shown not to occur.
    - The parts of the Unicode character database the code consults
      through [str.lower], [str.isupper], [str.islower], [\d] and
      [re.IGNORECASE] are an interface ([UnicodeDB]); the white-space
      class is the fixed table of CPython.
    - The [set] of seen keys is an interface ([PySet]): the code only adds
      to it and tests membership. *)

From Stdlib Require Import String Ascii.
From Stdlib Require Import List NArith ZArith Bool Lia Arith.
From Stdlib Require Import Sorted Permutation.
Import ListNotations.

Set Implicit Arguments.

(* ================================================================= *)
(** * Outcomes of a computation *)

Inductive exn : Type := IndexError | KeyError | AttributeError.

Inductive result (A : Type) : Type :=
| Ok (a : A)
| Raise (e : exn)
| OutOfFuel.

Arguments Ok {A} a.
Arguments Raise {A} e.
Arguments OutOfFuel {A}.

Definition bind {A B : Type} (m : result A) (f : A -> result B) : result B :=
  match m with
  | Ok a => f a
  | Raise e => Raise e
  | OutOfFuel => OutOfFuel
  end.

Notation "x <- m ;; k" := (bind m (fun x => k))
  (at level 61, m at next level, right associativity).

(** [for x in xs: x = f(x)], stopping at the first exception. *)
Fixpoint mapM {A B : Type} (f : A -> result B) (xs : list A) : result (list B) :=
  match xs with
  | [] => Ok []
  | x :: xs' => y <- f x ;; ys <- mapM f xs' ;; Ok (y :: ys)
  end.

(** [for x in xs: acc = f(acc, x)], stopping at the first exception. *)
Fixpoint foldM {A B : Type} (f : A -> B -> result A) (acc : A) (xs : list B)
  : result A :=
  match xs with
  | [] => Ok acc
  | x :: xs' => acc' <- f acc x ;; foldM f acc' xs'
  end.

(** [xs[n]] for a non-negative [n]. *)
Definition index {A : Type} (xs : list A) (n : nat) : result A :=
  match nth_error xs n with
  | Some x => Ok x
  | None => Raise IndexError
  end.

(** [xs[-1]]. *)
Definition index_last {A : Type} (xs : list A) : result A :=
  match rev xs with
  | x :: _ => Ok x
  | [] => Raise IndexError
  end.

(* ================================================================= *)
(** * Python strings *)

Definition pystr : Type := list N.

(** A source literal written in ASCII. *)
Definition lit (s : string) : pystr :=
  map N_of_ascii (list_ascii_of_string s).
Arguments lit s%_string.

Definition NL : N := 10.
(** U+2020, the obelisk of the guide. *)
Definition DAGGER : N := 8224.

Module PyStr.

Fixpoint eqb (a b : pystr) : bool :=
  match a, b with
  | [], [] => true
  | x :: a', y :: b' => N.eqb x y && eqb a' b'
  | _, _ => false
  end.

(** [a < b] on [str]: lexicographic on code points. *)
Fixpoint ltb (a b : pystr) : bool :=
  match a, b with
  | _, [] => false
  | [], _ :: _ => true
  | x :: a', y :: b' =>
      if N.ltb x y then true
      else if N.eqb x y then ltb a' b' else false
  end.

Definition mem (x : pystr) (xs : list pystr) : bool := existsb (eqb x) xs.

(** The white-space class shared by [str.strip()], [str.split()],
    [str.isspace()] and [\s] in a [str] pattern (CPython's
    [_PyUnicode_IsWhitespace]). *)
Definition isspace (c : N) : bool :=
  (((9 <=? c) && (c <=? 13)) || ((28 <=? c) && (c <=? 32))
   || (c =? 133) || (c =? 160) || (c =? 5760)
   || ((8192 <=? c) && (c <=? 8202))
   || (c =? 8232) || (c =? 8233) || (c =? 8239) || (c =? 8287)
   || (c =? 12288))%N.

Fixpoint startswith (p s : pystr) : bool :=
  match p, s with
  | [], _ => true
  | x :: p', y :: s' => N.eqb x y && startswith p' s'
  | _ :: _, [] => false
  end.

(** Offset of the first occurrence of [sub] in [s]. *)
Fixpoint find0 (sub s : pystr) : option nat :=
  if startswith sub s then Some 0
  else match s with
       | [] => None
       | _ :: s' => option_map S (find0 sub s')
       end.

(** [s.find(sub, start)] for [0 <= start]: the lowest index at or after
    [start] where [sub] occurs, or [-1]. *)
Definition find (sub s : pystr) (start : Z) : Z :=
  if (Z.of_nat (length s) <? start)%Z then (-1)%Z
  else match find0 sub (skipn (Z.to_nat start) s) with
       | Some k => (start + Z.of_nat k)%Z
       | None => (-1)%Z
       end.

(** [sub in s]. *)
Definition contains (sub s : pystr) : bool :=
  match find0 sub s with Some _ => true | None => false end.

(** A slice bound as Python normalises it. *)
Definition clamp (i len : Z) : Z :=
  if (i <? 0)%Z then Z.max (i + len) 0 else Z.min i len.

(** [s[a:b]]. *)
Definition slice (s : pystr) (a b : Z) : pystr :=
  let len := Z.of_nat (length s) in
  let a' := Z.to_nat (clamp a len) in
  let b' := Z.to_nat (clamp b len) in
  firstn (b' - a') (skipn a' s).

Fixpoint dropwhile (p : N -> bool) (s : pystr) : pystr :=
  match s with
  | [] => []
  | c :: s' => if p c then dropwhile p s' else s
  end.

Definition strip_with (p : N -> bool) (s : pystr) : pystr :=
  rev (dropwhile p (rev (dropwhile p s))).

(** [s.strip()]. *)
Definition strip (s : pystr) : pystr := strip_with isspace s.

(** [s.strip(chars)]. *)
Definition strip_chars (chars s : pystr) : pystr :=
  strip_with (fun c => existsb (N.eqb c) chars) s.

(** [s.split()]: the maximal runs of non-white-space characters.
    [cur] is the current run, reversed. *)
Fixpoint split_ws_from (cur : pystr) (s : pystr) : list pystr :=
  match s with
  | [] => match cur with [] => [] | _ => [rev cur] end
  | c :: s' =>
      if isspace c
      then match cur with
           | [] => split_ws_from [] s'
           | _ => rev cur :: split_ws_from [] s'
           end
      else split_ws_from (c :: cur) s'
  end.

Definition split_ws (s : pystr) : list pystr := split_ws_from [] s.

(** [s.split(sep)] for a non-empty [sep]: occurrences are taken from
    left to right and do not overlap. [skip] counts characters of an
    occurrence still to be passed over; [cur] is the current piece,
    reversed. *)
Fixpoint split_from (sep : pystr) (skip : nat) (cur : pystr) (s : pystr)
  : list pystr :=
  match s with
  | [] => [rev cur]
  | c :: s' =>
      match skip with
      | S n => split_from sep n cur s'
      | O =>
          if startswith sep s
          then rev cur :: split_from sep (length sep - 1) [] s'
          else split_from sep 0 (c :: cur) s'
      end
  end.

Definition split (sep s : pystr) : list pystr := split_from sep 0 [] s.

(** [s.replace(old, new)] for a non-empty [old]. *)
Fixpoint replace_from (old new : pystr) (skip : nat) (s : pystr) : pystr :=
  match s with
  | [] => []
  | c :: s' =>
      match skip with
      | S n => replace_from old new n s'
      | O =>
          if startswith old s
          then new ++ replace_from old new (length old - 1) s'
          else c :: replace_from old new 0 s'
      end
  end.

Definition replace (old new s : pystr) : pystr := replace_from old new 0 s.

(** [sep.join(parts)]. *)
Fixpoint join (sep : pystr) (parts : list pystr) : pystr :=
  match parts with
  | [] => []
  | [p] => p
  | p :: ps => p ++ sep ++ join sep ps
  end.

Definition is_empty (s : pystr) : bool :=
  match s with [] => true | _ => false end.

End PyStr.

(** The character database, as far as the code consults it. *)
Class UnicodeDB : Type := {
  (** [s.lower()] *)
  str_lower : pystr -> pystr;
  (** [s.isupper()] *)
  str_isupper : pystr -> bool;
  (** [s.islower()] *)
  str_islower : pystr -> bool;
  (** the class [\d] of a [str] pattern *)
  re_digit : N -> bool;
  (** under [re.IGNORECASE], does the pattern literal [p] accept the
      subject character [c]? *)
  re_ci_eq : N -> N -> bool
}.

(** The database restricted to ASCII: it agrees with CPython on every
    code point below 128 and treats the others as caseless non-digits. *)
Module Ascii7.

Definition is_upper (c : N) : bool := ((65 <=? c) && (c <=? 90))%N.
Definition is_lower (c : N) : bool := ((97 <=? c) && (c <=? 122))%N.
Definition to_lower (c : N) : N := if is_upper c then (c + 32)%N else c.

Definition lowercase (s : pystr) : pystr := map to_lower s.
Definition isupper (s : pystr) : bool :=
  existsb is_upper s && negb (existsb is_lower s).
Definition islower (s : pystr) : bool :=
  existsb is_lower s && negb (existsb is_upper s).
Definition digit (c : N) : bool := ((48 <=? c) && (c <=? 57))%N.
Definition ci_eq (p c : N) : bool := N.eqb (to_lower p) (to_lower c).

End Ascii7.

#[export] Instance ascii_db : UnicodeDB := {
  str_lower := Ascii7.lowercase;
  str_isupper := Ascii7.isupper;
  str_islower := Ascii7.islower;
  re_digit := Ascii7.digit;
  re_ci_eq := Ascii7.ci_eq
}.

(* ================================================================= *)
(** * Regular expressions

    The patterns of the source use character classes, literals, greedy
    repetition of a character class, alternation, optional parts, groups
    and the end anchor. The matcher is the backtracking one of [re]: a
    greedy repetition first takes as many characters as it can, an
    alternation tries its branches from left to right, and the first
    way of matching the whole pattern decides the groups. *)

Module Re.

Inductive re : Type :=
| Eps
| Chr (p : N -> bool)          (* one character of a class *)
| Seq (a b : re)
| Alt (a b : re)               (* a|b *)
| Star (p : N -> bool)         (* greedy c* on a class *)
| Group (i : nat) (a : re)     (* capturing group number i *)
| Eol.                         (* $ *)

Definition Opt (a : re) : re := Alt a Eps.
Definition Plus (p : N -> bool) : re := Seq (Chr p) (Star p).

Fixpoint Str (chr : N -> re) (s : pystr) : re :=
  match s with
  | [] => Eps
  | c :: s' => Seq (chr c) (Str chr s')
  end.

(** A literal, case-sensitive. *)
Definition Lit (s : string) : re := Str (fun c => Chr (N.eqb c)) (lit s).
Arguments Lit s%_string.

(** A literal under [re.IGNORECASE]. *)
Definition LitCI `{UnicodeDB} (s : string) : re :=
  Str (fun c => Chr (re_ci_eq c)) (lit s).
Arguments LitCI {_} s%_string.

(** Character classes. *)
Definition upper (c : N) : bool := ((65 <=? c) && (c <=? 90))%N.   (* [A-Z] *)
Definition lower (c : N) : bool := ((97 <=? c) && (c <=? 122))%N.  (* [a-z] *)
Definition space : N -> bool := PyStr.isspace.                      (* \s *)
Definition dot (c : N) : bool := negb (N.eqb c NL).                 (* . *)
Definition chr (x : N) : N -> bool := N.eqb x.

(** The groups set so far, most recent first. *)
Definition groups : Type := list (nat * pystr).

Fixpoint group (g : groups) (i : nat) : option pystr :=
  match g with
  | [] => None
  | (j, s) :: g' => if Nat.eqb i j then Some s else group g' i
  end.

(** The text between position [s] and the later position [s']. *)
Definition consumed (s s' : pystr) : pystr :=
  firstn (length s - length s') s.

(** [$]: the end of the string, or just before a final newline. *)
Definition at_end (s : pystr) : bool :=
  match s with
  | [] => true
  | [c] => N.eqb c NL
  | _ => false
  end.

Section Matcher.
Variable A : Type.

Fixpoint star (p : N -> bool) (s : pystr) (k : pystr -> option A)
  : option A :=
  match s with
  | c :: s' =>
      if p c
      then match star p s' k with
           | Some x => Some x
           | None => k s
           end
      else k s
  | [] => k s
  end.

(** [run r s g k]: match [r] at position [s] with groups [g], then
    continue with [k]; [None] makes the matcher backtrack. *)
Fixpoint run (r : re) (s : pystr) (g : groups)
         (k : pystr -> groups -> option A) : option A :=
  match r with
  | Eps => k s g
  | Chr p =>
      match s with
      | c :: s' => if p c then k s' g else None
      | [] => None
      end
  | Seq a b => run a s g (fun s' g' => run b s' g' k)
  | Alt a b =>
      match run a s g k with
      | Some x => Some x
      | None => run b s g k
      end
  | Star p => star p s (fun s' => k s' g)
  | Group i a => run a s g (fun s' g' => k s' ((i, consumed s s') :: g'))
  | Eol => if at_end s then k s g else None
  end.
End Matcher.

(** [re.match(r, s)]: the groups of the match at the start of [s]. *)
Definition match_ (r : re) (s : pystr) : option groups :=
  run r s [] (fun _ g => Some g).

(** Length of the match of [r] at the start of [s]. *)
Definition match_len (r : re) (s : pystr) : option nat :=
  run r s [] (fun s' _ => Some (length s - length s')).

(** [re.sub(r, '', s)]: every match, leftmost first and not overlapping,
    is removed ([skip] counts characters of a match still to be passed
    over). An empty match removes nothing. *)
Fixpoint remove_from (r : re) (skip : nat) (s : pystr) : pystr :=
  match s with
  | [] => []
  | c :: s' =>
      match skip with
      | S n => remove_from r n s'
      | O =>
          match match_len r s with
          | Some (S n) => remove_from r n s'
          | _ => c :: remove_from r 0 s'
          end
      end
  end.

Definition remove (r : re) (s : pystr) : pystr := remove_from r 0 s.

(** What a successful run says about the text and the groups: [s'] and
    [g'] are the position and the groups that [r] leaves when started at
    [s] with [g]. *)
Fixpoint leaves (r : re) (s : pystr) (g : groups) (s' : pystr) (g' : groups)
  : Prop :=
  match r with
  | Eps => s' = s /\ g' = g
  | Chr p => exists c, s = c :: s' /\ p c = true /\ g' = g
  | Seq a b => exists s1 g1, leaves a s g s1 g1 /\ leaves b s1 g1 s' g'
  | Alt a b => leaves a s g s' g' \/ leaves b s g s' g'
  | Star p => exists pre, s = pre ++ s' /\ forallb p pre = true /\ g' = g
  | Group i a =>
      exists g1, leaves a s g s' g1 /\ g' = (i, consumed s s') :: g1
  | Eol => s' = s /\ at_end s = true /\ g' = g
  end.

(** A pattern without groups. *)
Fixpoint plain (r : re) : bool :=
  match r with
  | Seq a b | Alt a b => plain a && plain b
  | Group _ _ => false
  | _ => true
  end.

End Re.

(* ================================================================= *)
(** * Dictionaries and sets *)

(** A [dict] in insertion order. *)
Module Dict.
Section Assoc.
Variables (K V : Type) (keq : K -> K -> bool).

Definition t : Type := list (K * V).

Fixpoint lookup (k : K) (d : t) : option V :=
  match d with
  | [] => None
  | (k', v) :: d' => if keq k k' then Some v else lookup k d'
  end.

(** [d[k]]. *)
Definition get (k : K) (d : t) : result V :=
  match lookup k d with
  | Some v => Ok v
  | None => Raise KeyError
  end.

(** [d.get(k, default)]. *)
Definition get_or (k : K) (default : V) (d : t) : V :=
  match lookup k d with
  | Some v => v
  | None => default
  end.

(** [k in d]. *)
Definition has (k : K) (d : t) : bool :=
  match lookup k d with Some _ => true | None => false end.

(** [d[k] = v]: a present key keeps its place, a new one goes last. *)
Fixpoint set (k : K) (v : V) (d : t) : t :=
  match d with
  | [] => [(k, v)]
  | (k', v') :: d' =>
      if keq k k' then (k', v) :: d' else (k', v') :: set k v d'
  end.

(** [list(d.values())]. *)
Definition values (d : t) : list V := map snd d.
End Assoc.
End Dict.

(** A plant record: string keys, string values. *)
Definition plant : Type := Dict.t string pystr.

Definition pget (k : string) (p : plant) : result pystr :=
  Dict.get String.eqb k p.
Definition pset (k : string) (v : pystr) (p : plant) : plant :=
  Dict.set String.eqb k v p.
Definition pget_or (k : string) (default : pystr) (p : plant) : pystr :=
  Dict.get_or String.eqb k default p.
Arguments pget k%_string p.
Arguments pset k%_string v p.
Arguments pget_or k%_string default p.

(** What the code needs of [set()]: adding and membership. *)
Class PySet : Type := {
  set_t : Type;
  set_empty : set_t;
  set_add : pystr -> set_t -> set_t;
  set_mem : pystr -> set_t -> bool;
  set_mem_empty : forall k, set_mem k set_empty = false;
  set_mem_add : forall k k' s,
      set_mem k (set_add k' s) = PyStr.eqb k k' || set_mem k s
}.

(** Sets as lists of their elements, newest first. *)
#[export] Instance list_set : PySet := {
  set_t := list pystr;
  set_empty := [];
  set_add := fun k s => k :: s;
  set_mem := fun k s => existsb (PyStr.eqb k) s;
  set_mem_empty := fun _ => eq_refl;
  set_mem_add := fun _ _ _ => eq_refl
}.

(* ================================================================= *)
(** * The categorizer and the name cleaner *)

Section Genera.
Local Open Scope string_scope.

Definition fern_genera : list pystr := map lit
  ["Adiantum"; "Asplenium"; "Athyrium"; "Dennstaedtia"; "Deparia";
   "Dryopteris"; "Matteuccia"; "Onoclea"; "Osmunda"; "Osmundastrum";
   "Polypodium"; "Polystichum"; "Pteridium"; "Thelypteris"; "Woodwardia"].

Definition graminoid_genera : list pystr := map lit
  ["Ammophila"; "Andropogon"; "Aristida"; "Agrostis"; "Avenella";
   "Bolboschoenus"; "Calamagrostis"; "Carex"; "Cenchrus"; "Chasmanthium";
   "Cinna"; "Cyperus"; "Danthonia"; "Dichanthelium"; "Distichlis";
   "Eleocharis"; "Elymus"; "Eragrostis"; "Eriophorum"; "Festuca";
   "Glyceria"; "Juncus"; "Koeleria"; "Leersia"; "Muhlenbergia";
   "Panicum"; "Phalaris"; "Piptochaetium"; "Poa"; "Rhynchospora";
   "Schizachyrium"; "Schoenoplectus"; "Scirpus"; "Sorghastrum";
   "Spartina"; "Sporobolus"; "Tridens"; "Tripsacum"; "Typha"; "Zizania"].

Definition shrub_genera : list pystr := map lit
  ["Aronia"; "Arctostaphylos"; "Baccharis"; "Calycanthus"; "Ceanothus";
   "Cephalanthus"; "Clethra"; "Comptonia"; "Cornus"; "Crataegus";
   "Diervilla"; "Epigaea"; "Eubotrys"; "Euonymus"; "Gaultheria";
   "Gaylussacia"; "Hamamelis"; "Hudsonia"; "Hydrangea"; "Ilex";
   "Itea"; "Kalmia"; "Leucothoe"; "Lindera"; "Lyonia"; "Morella";
   "Myrica"; "Photinia"; "Physocarpus"; "Prunus"; "Rhododendron";
   "Rhus"; "Ribes"; "Rosa"; "Rubus"; "Sambucus"; "Spiraea";
   "Staphylea"; "Symphoricarpos"; "Vaccinium"; "Viburnum"; "Xanthorhiza"].

Definition tree_genera : list pystr := map lit
  ["Abies"; "Acer"; "Aesculus"; "Amelanchier"; "Asimina"; "Betula";
   "Carpinus"; "Carya"; "Castanea"; "Catalpa"; "Celtis"; "Cercis";
   "Chionanthus"; "Cladrastis"; "Diospyros"; "Fagus"; "Fraxinus";
   "Gleditsia"; "Gymnocladus"; "Halesia"; "Juglans"; "Juniperus"; "Larix";
   "Liquidambar"; "Liriodendron"; "Magnolia"; "Morus"; "Nyssa";
   "Ostrya"; "Oxydendrum"; "Picea"; "Pinus"; "Platanus"; "Populus";
   "Quercus"; "Salix"; "Sassafras"; "Taxodium"; "Thuja"; "Tilia"; "Tsuga";
   "Ulmus"].

Definition vine_genera : list pystr := map lit
  ["Apios"; "Bignonia"; "Campsis"; "Celastrus"; "Clematis"; "Lonicera";
   "Menispermum"; "Parthenocissus"; "Smilax"; "Strophostyles"; "Vitis";
   "Wisteria"].

(** The five sets with the label each gives, in the order the code
    consults them. *)
Definition genus_table : list (pystr * list pystr) :=
  [(lit "Fern", fern_genera); (lit "Graminoid", graminoid_genera);
   (lit "Shrub", shrub_genera); (lit "Tree", tree_genera);
   (lit "Vine", vine_genera)].

Definition category_labels : list pystr :=
  map lit ["Fern"; "Graminoid"; "Shrub"; "Tree"; "Vine"; "Forb"].

Definition skip_terms : list pystr :=
  map lit ["ferns"; "forbs"; "graminoids"; "shrubs"; "trees"; "vines"].

Definition header_names : list pystr :=
  map lit ["common name"; "common names"; "valued characteristics"].

Definition sentinels : list pystr :=
  map lit ["Other:"; "---"; "Habitat:"; "Page |"].
End Genera.

(** The category of a genus: the [if]/[elif] chain of [categorize_plant]. *)
Definition category_of_genus (genus : pystr) : pystr :=
  if PyStr.mem genus fern_genera then lit "Fern"
  else if PyStr.mem genus graminoid_genera then lit "Graminoid"
  else if PyStr.mem genus shrub_genera then lit "Shrub"
  else if PyStr.mem genus tree_genera then lit "Tree"
  else if PyStr.mem genus vine_genera then lit "Vine"
  else lit "Forb".

(** [categorize_plant]; [scientific_name.split()[0]] raises on a name
    without a token. *)
Definition categorize_plant (scientific_name : pystr) : result pystr :=
  genus <- index (PyStr.split_ws scientific_name) 0 ;;
  Ok (category_of_genus genus).

(** [clean_name]. *)
Definition clean_name (name : pystr) : pystr :=
  let name := PyStr.join (lit " ") (PyStr.split_ws name) in
  PyStr.strip_chars (lit " .,;:") name.

(* ================================================================= *)
(** * The patterns of [parse_plants] *)

Section Patterns.
Context {U : UnicodeDB}.
Import Re.

(** Line 46. Group 1 is "[A-Z][a-z]+"; then "\s+"; group 2 is
    "[a-z]+(?:\s+(?:var\.|ssp\.)\s+[a-z]+)?"; then "\s*", an optional
    obelisk and "\s+"; group 3 is "[A-Z]" followed by any characters up
    to the end anchor. *)
Definition entry_re : re :=
  Seq (Group 1 (Seq (Chr upper) (Plus lower)))
 (Seq (Plus space)
 (Seq (Group 2
        (Seq (Plus lower)
             (Opt (Seq (Plus space)
                  (Seq (Alt (Lit "var.") (Lit "ssp."))
                  (Seq (Plus space) (Plus lower)))))))
 (Seq (Star space)
 (Seq (Opt (Chr (chr DAGGER)))
 (Seq (Plus space)
 (Seq (Group 3 (Seq (Chr upper) (Star dot)))
      Eol)))))).

(** Lines 121 and 139: "^[A-Z][a-z]+\s+[a-z]+\s+[A-Z]" *)
Definition shape_re : re :=
  Seq (Chr upper) (Seq (Plus lower) (Seq (Plus space)
 (Seq (Plus lower) (Seq (Plus space) (Chr upper))))).

(** Line 58: "\s+(Prohibited|Regulated|Invasive).*$" with [re.IGNORECASE] *)
Definition status_re : re :=
  Seq (Plus space)
 (Seq (Group 1 (Alt (LitCI "Prohibited")
               (Alt (LitCI "Regulated") (LitCI "Invasive"))))
 (Seq (Star dot) Eol)).

(** Line 105: "\s*Coefficient\s+of\s+\d+.*$" *)
Definition coeff_re : re :=
  Seq (Star space)
 (Seq (Lit "Coefficient")
 (Seq (Plus space)
 (Seq (Lit "of")
 (Seq (Plus space)
 (Seq (Plus re_digit)
 (Seq (Star dot) Eol)))))).

(** [re.match(r, s)] used as a condition. *)
Definition matches (r : re) (s : pystr) : bool :=
  match match_ r s with Some _ => true | None => false end.

(** [m.group(n).strip()]; a group that took no part is [None]. *)
Definition group_strip (m : groups) (n : nat) : result pystr :=
  match group m n with
  | Some s => Ok (PyStr.strip s)
  | None => Raise AttributeError
  end.
End Patterns.

(* ================================================================= *)
(** * [parse_plants] *)

Section Extractor.
Context {U : UnicodeDB} {S : PySet}.
Import PyStr.

(** Lines 15-28: the text between the start anchor and ["Glossary"]. *)
Definition locate_section (content : pystr) : pystr :=
  let start_idx := find (lit "Page | 98") content 0 in
  let start_idx :=
    if (start_idx =? -1)%Z
    then
      let start_idx := find (lit "Ferns" ++ [NL] ++ lit "Ferns add texture")
                            content 0 in
      if (start_idx =? -1)%Z then 0%Z else start_idx
    else start_idx in
  let end_idx := find (lit "Glossary") content start_idx in
  let end_idx :=
    if (end_idx =? -1)%Z then Z.of_nat (length content) else end_idx in
  slice content start_idx end_idx.

(** Lines 36-80: the scientific and the common name of the entry that
    starts on [line], or [None] where the loop goes on to the next line
    without an entry. *)
Definition candidate (line : pystr) : result (option (pystr * pystr)) :=
  if is_empty line || startswith (lit "---") line
     || startswith (lit "Page |") line
  then Ok None
  else
    match Re.match_ entry_re line with
    | None => Ok None
    | Some m =>
        genus <- group_strip m 1 ;;
        g2 <- group_strip m 2 ;;
        let species := strip (replace [DAGGER] [] g2) in
        g3 <- group_strip m 3 ;;
        let common := strip (replace [DAGGER] [] g3) in
        let scientific := genus ++ lit " " ++ species in
        let common := Re.remove status_re common in
        let common := join (lit " ") (split_ws common) in
        if length common <? 3 then Ok None
        else if mem (str_lower genus) skip_terms then Ok None
        else
          g0 <- index genus 0 ;;
          binomial <- (if str_isupper [g0]
                       then s0 <- index species 0 ;; Ok (str_islower [s0])
                       else Ok false) ;;
          if negb binomial then Ok None
          else if mem (str_lower common) header_names then Ok None
          else Ok (Some (scientific, common))
    end.

(** Lines 86-96. *)
Definition new_plant (scientific common : pystr) : plant :=
  [("scientific_name", scientific); ("common_name", common);
   ("habitat", []); ("form_color", []); ("ecosystem_services", []);
   ("horticultural_value", []); ("other_info", []); ("exposure", []);
   ("soil_moisture", [])]%string.

(** Lines 116-126: the continuation lines of a [Form/Color:] field. *)
Fixpoint form_color_loop (fuel : nat) (lines : list pystr) (j k : nat)
         (form_text : pystr) : result pystr :=
  match fuel with
  | O => OutOfFuel
  | Datatypes.S fuel' =>
      if k <? Nat.min (j + 4) (length lines) then
        l <- index lines k ;;
        let cont := strip l in
        if negb (is_empty cont)
           && negb (existsb (fun x => startswith x cont) sentinels)
        then
          if matches shape_re cont then Ok form_text
          else form_color_loop fuel' lines j (k + 1)
                               (form_text ++ lit " " ++ cont)
        else Ok form_text
      else Ok form_text
  end.

(** Lines 103-136: the field, if any, that [next_line] sets. *)
Definition harvest_line (lines : list pystr) (j : nat) (next_line : pystr)
           (plant_info : plant) : result plant :=
  if startswith (lit "Habitat:") next_line then
    let habitat_text := strip (replace (lit "Habitat:") [] next_line) in
    let habitat_text := Re.remove coeff_re habitat_text in
    Ok (pset "habitat" habitat_text plant_info)
  else if contains (lit "Exposure:") next_line then
    let parts := split (lit "Exposure:") next_line in
    if 1 <? length parts then
      p1 <- index parts 1 ;;
      e0 <- index (split (lit "Ecosystem") p1) 0 ;;
      Ok (pset "exposure" (strip e0) plant_info)
    else Ok plant_info
  else if contains (lit "Form/Color:") next_line then
    f <- index_last (split (lit "Form/Color:") next_line) ;;
    form_text <- form_color_loop 4 lines j (j + 1) (strip f) ;;
    Ok (pset "form_color" form_text plant_info)
  else if contains (lit "Ecosystem Services:") next_line then
    v <- index_last (split (lit "Services:") next_line) ;;
    Ok (pset "ecosystem_services" (strip v) plant_info)
  else if contains (lit "Horticultural") next_line
          && contains (lit "Value:") next_line then
    v <- index_last (split (lit "Value:") next_line) ;;
    Ok (pset "horticultural_value" (strip v) plant_info)
  else if startswith (lit "Other:") next_line then
    Ok (pset "other_info" (strip (replace (lit "Other:") [] next_line))
             plant_info)
  else Ok plant_info.

(** Lines 99-142: the lookahead for the entry at line [i]. *)
Fixpoint harvest_loop (fuel : nat) (lines : list pystr) (i j : nat)
         (plant_info : plant) : result plant :=
  match fuel with
  | O => OutOfFuel
  | Datatypes.S fuel' =>
      if j <? Nat.min (i + 60) (length lines) then
        l <- index lines j ;;
        let next_line := strip l in
        plant_info <- harvest_line lines j next_line plant_info ;;
        if (i + 3 <? j) && matches shape_re next_line then Ok plant_info
        else harvest_loop fuel' lines i (j + 1) plant_info
      else Ok plant_info
  end.

Definition harvest (lines : list pystr) (i : nat) (plant_info : plant)
  : result plant :=
  harvest_loop 60 lines i (i + 1) plant_info.

(** Lines 34-146: the scan of the section. Every path through the body
    ends by [i += 1]. *)
Fixpoint scan_loop (fuel : nat) (lines : list pystr) (i : nat)
         (seen : set_t) (plants : list plant) : result (list plant) :=
  match fuel with
  | O => OutOfFuel
  | Datatypes.S fuel' =>
      if i <? length lines then
        l <- index lines i ;;
        c <- candidate (strip l) ;;
        match c with
        | None => scan_loop fuel' lines (i + 1) seen plants
        | Some (scientific, common) =>
            let key := str_lower scientific in
            if negb (set_mem key seen) then
              let seen := set_add key seen in
              plant_info <- harvest lines i (new_plant scientific common) ;;
              scan_loop fuel' lines (i + 1) seen (plants ++ [plant_info])
            else scan_loop fuel' lines (i + 1) seen plants
        end
      else Ok plants
  end.

(** [parse_plants], from the text read from the file. *)
Definition parse_plants (content : pystr) : result (list plant) :=
  let description_section := locate_section content in
  let lines := split [NL] description_section in
  scan_loop (Datatypes.S (length lines)) lines 0 set_empty [].

(* =============================================================== *)
(** * The steps of [main] *)

(** Lines 218-221, for one plant. *)
Definition clean_plant (p : plant) : result plant :=
  sn <- pget "scientific_name" p ;;
  let p := pset "scientific_name" (clean_name sn) p in
  cn <- pget "common_name" p ;;
  let p := pset "common_name" (clean_name cn) p in
  sn <- pget "scientific_name" p ;;
  cat <- categorize_plant sn ;;
  Ok (pset "category" cat p).

Definition habitat_len (p : plant) : nat :=
  length (pget_or "habitat" [] p).

(** Lines 225-232, for one plant. *)
Definition merge_step (unique_plants : Dict.t pystr plant) (p : plant)
  : result (Dict.t pystr plant) :=
  sn <- pget "scientific_name" p ;;
  let key := str_lower sn in
  match Dict.lookup PyStr.eqb key unique_plants with
  | None => Ok (Dict.set PyStr.eqb key p unique_plants)
  | Some existing =>
      if habitat_len existing <? habitat_len p
      then Ok (Dict.set PyStr.eqb key p unique_plants)
      else Ok unique_plants
  end.

(** Lines 224-234. *)
Definition merge (plants : list plant) : result (list plant) :=
  unique_plants <- foldM merge_step [] plants ;;
  Ok (Dict.values unique_plants).

(** Where [list.sort] puts [x] among the already sorted later elements:
    before the first whose key is not smaller. *)
Fixpoint insert_by_key (x : pystr * plant) (l : list (pystr * plant))
  : list (pystr * plant) :=
  match l with
  | [] => [x]
  | y :: l' =>
      if ltb (fst y) (fst x) then y :: insert_by_key x l' else x :: l
  end.

(** Line 235: [plants.sort(key=lambda x: x['scientific_name'])]. The keys
    are computed first; the sort is stable and compares keys by [<]. *)
Definition sort_plants (plants : list plant) : result (list plant) :=
  keys <- mapM (pget "scientific_name") plants ;;
  Ok (map snd (fold_right insert_by_key [] (combine keys plants))).

(** Lines 215-235: the record list that [main] serialises. *)
Definition extract (content : pystr) : result (list plant) :=
  plants <- parse_plants content ;;
  plants <- mapM clean_plant plants ;;
  plants <- merge plants ;;
  sort_plants plants.

End Extractor.

(* ================================================================= *)
(** * Invariants and the vocabulary of the specification *)

(** The text begins with a letter of [A-Z]. *)
Definition starts_upper (s : pystr) : Prop :=
  exists c t, s = c :: t /\ Re.upper c = true.


(** The fields that the lookahead may set. *)
Definition harvested_keys : list string :=
  ["habitat"; "exposure"; "form_color"; "ecosystem_services";
   "horticultural_value"; "other_info"]%string.

(** [p'] differs from [p] at most in the fields [ks]. *)
Definition same_outside (ks : list string) (p p' : plant) : Prop :=
  forall k, ~ In k ks ->
            Dict.lookup String.eqb k p' = Dict.lookup String.eqb k p.

(** [p['scientific_name']], read where the key is known to be present. *)
Definition name_of (p : plant) : pystr :=
  pget_or "scientific_name" [] p.

(** The key under which records are compared: the lower-cased name. *)
Definition name_key `{UnicodeDB} (p : plant) : pystr := str_lower (name_of p).

(** A record as [parse_plants] appends it: the fresh record of an entry
    whose name begins with a letter of [A-Z], changed at most in the
    harvested fields. *)
Definition parsed (p : plant) : Prop :=
  exists sci com, starts_upper sci
                  /\ same_outside harvested_keys (new_plant sci com) p.

(** A record after lines 218-221: its name begins with a letter of
    [A-Z], its category is the one of the first token of its name, and
    its [soil_moisture] is still empty. *)
Definition cleaned (p : plant) : Prop :=
  exists sn genus,
    Dict.lookup String.eqb "scientific_name"%string p = Some sn
    /\ starts_upper sn
    /\ index (PyStr.split_ws sn) 0 = Ok genus
    /\ Dict.lookup String.eqb "category"%string p
       = Some (category_of_genus genus)
    /\ Dict.lookup String.eqb "soil_moisture"%string p = Some [].

(** Among the records [ps], in their order, [q] is the first of greatest
    habitat length of those that have its key. *)
Definition first_longest `{UnicodeDB} (ps : list plant) (q : plant) : Prop :=
  exists before after,
    ps = before ++ q :: after
    /\ (forall p, In p before -> name_key p = name_key q ->
                  habitat_len p < habitat_len q)
    /\ (forall p, In p after -> name_key p = name_key q ->
                  habitat_len p <= habitat_len q).

(** The order of [str]: lexicographic on code points. *)
Inductive lex_le : pystr -> pystr -> Prop :=
| lex_le_nil b : lex_le [] b
| lex_le_lt x y a b : (x < y)%N -> lex_le (x :: a) (y :: b)
| lex_le_eq x a b : lex_le a b -> lex_le (x :: a) (x :: b).

(** [p] does not come after [q] in the order of their names. *)
Definition name_le (p q : plant) : Prop := lex_le (name_of p) (name_of q).

(** The dictionary of lines 224-232 once the records [done] have gone
    through the loop: each key is the key of its record, that record is
    the first of greatest habitat length among those of [done] with the
    key, and no record of [done] is without an entry. *)
Definition merged `{UnicodeDB} (done : list plant) (d : Dict.t pystr plant)
  : Prop :=
  NoDup (map fst d)
  /\ (forall k q, Dict.lookup PyStr.eqb k d = Some q ->
                  k = name_key q /\ first_longest done q)
  /\ (forall p, In p done -> Dict.lookup PyStr.eqb (name_key p) d <> None).

(** The order in which line 235 leaves the decorated records. *)
Definition key_le (x y : pystr * plant) : Prop := lex_le (fst x) (fst y).

(** ** The section of the guide, as the specification words it *)

(** [sub] occurs in [s] at offset [i]. *)
Definition occurs_at (sub s : pystr) (i : nat) : Prop :=
  exists pre post, s = pre ++ sub ++ post /\ length pre = i.

(** [i] is the offset of the first occurrence of [sub] in [s] at or after
    the offset [from]. *)
Definition first_from (sub s : pystr) (from i : nat) : Prop :=
  from <= i /\ occurs_at sub s i
  /\ forall j, from <= j < i -> ~ occurs_at sub s j.

(** [sub] does not occur in [s] at or after the offset [from]. *)
Definition absent_from (sub s : pystr) (from : nat) : Prop :=
  forall j, from <= j -> ~ occurs_at sub s j.

Definition page_marker : pystr := lit "Page | 98".
Definition section_header : pystr :=
  lit "Ferns" ++ [NL] ++ lit "Ferns add texture".
Definition end_token : pystr := lit "Glossary".

(** Start boundary: the first occurrence of the page marker; failing that,
    of the section header; failing that, offset 0. *)
Definition section_start (content : pystr) (st : nat) : Prop :=
  first_from page_marker content 0 st
  \/ (absent_from page_marker content 0
      /\ first_from section_header content 0 st)
  \/ (absent_from page_marker content 0
      /\ absent_from section_header content 0 /\ st = 0).

(** End boundary: the first occurrence of the end token at or after the
    start; failing that, the end of the document. *)
Definition section_end (content : pystr) (st en : nat) : Prop :=
  first_from end_token content st en
  \/ (absent_from end_token content st /\ en = length content).

(** ** Entries and what becomes of them *)

Section Entries.
Context {U : UnicodeDB}.

(** The accepted entries among the lines [rest], which start at line
    [i] of the section: line number, scientific name, common name. *)
Fixpoint entries_from (i : nat) (rest : list pystr)
  : list (nat * pystr * pystr) :=
  match rest with
  | [] => []
  | l :: rest' =>
      match candidate (PyStr.strip l) with
      | Ok (Some (sci, com)) => (i, sci, com) :: entries_from (i + 1) rest'
      | _ => entries_from (i + 1) rest'
      end
  end.

Definition entries (lines : list pystr) : list (nat * pystr * pystr) :=
  entries_from 0 lines.

(** The entries that are the first with their lower-cased name, given
    the lower-cased names [seen] of earlier entries. *)
Fixpoint first_seen (seen : list pystr) (es : list (nat * pystr * pystr))
  : list (nat * pystr * pystr) :=
  match es with
  | [] => []
  | (i, sci, com) :: es' =>
      if PyStr.mem (str_lower sci) seen then first_seen seen es'
      else (i, sci, com) :: first_seen (str_lower sci :: seen) es'
  end.

(** The record of one entry: its fresh record after the lookahead. *)
Definition harvest_entry (lines : list pystr) (e : nat * pystr * pystr)
  : result plant :=
  let '(i, sci, com) := e in harvest lines i (new_plant sci com).

(** Does [next_line] take one of the branches of lines 103-136? *)
Definition sets_field (next_line : pystr) : bool :=
  PyStr.startswith (lit "Habitat:") next_line
  || PyStr.contains (lit "Exposure:") next_line
  || PyStr.contains (lit "Form/Color:") next_line
  || PyStr.contains (lit "Ecosystem Services:") next_line
  || (PyStr.contains (lit "Horticultural") next_line
      && PyStr.contains (lit "Value:") next_line)
  || PyStr.startswith (lit "Other:") next_line.

(** The line of an entry and the key under which line 83 looks it up:
    its lower-cased name as extracted. *)
Definition entry_line (e : nat * pystr * pystr) : nat := fst (fst e).
Definition entry_key (e : nat * pystr * pystr) : pystr :=
  str_lower (snd (fst e)).

(** Of the entries [es], [e] is the one on the lowest line among those
    that have its key. *)
Definition first_of_key (es : list (nat * pystr * pystr))
           (e : nat * pystr * pystr) : Prop :=
  In e es
  /\ forall e', In e' es -> entry_key e' = entry_key e ->
                entry_line e <= entry_line e'.
End Entries.

(** No element of [a] is in [b]. *)
Definition disjointb (a b : list pystr) : bool :=
  forallb (fun g => negb (PyStr.mem g b)) a.

(** ** Two statements of the specification, for one document *)

Section Statements.
Context {U : UnicodeDB} {S : PySet}.

(** "On collision, the record with the longer habitat wins", end to
    end: whenever two accepted entries of the document have the same
    lower-cased name, the output record of that name has the habitat of
    the longer of their two records. *)
Definition longer_habitat_wins (content : pystr) : Prop :=
  let lines := PyStr.split [NL] (locate_section content) in
  forall i1 i2 sci1 sci2 com1 com2 a b out r,
    In (i1, sci1, com1) (entries lines) ->
    In (i2, sci2, com2) (entries lines) ->
    i1 <> i2 ->
    str_lower sci1 = str_lower sci2 ->
    harvest lines i1 (new_plant sci1 com1) = Ok a ->
    harvest lines i2 (new_plant sci2 com2) = Ok b ->
    extract content = Ok out ->
    In r out ->
    name_key r = str_lower (clean_name sci1) ->
    habitat_len r = Nat.max (habitat_len a) (habitat_len b).

(** "The lookahead of the entry at line [i] stops before the entry at
    line [j]": the record harvested for [i] is the one harvested from
    the section cut before line [j]. *)
Definition stops_before (lines : list pystr) (i j : nat) : Prop :=
  forall sci com b,
    (l <- index lines i ;; candidate (PyStr.strip l)) = Ok (Some (sci, com)) ->
    index lines j = Ok b ->
    matches shape_re (PyStr.strip b) = true ->
    harvest lines i (new_plant sci com)
    = harvest (firstn j lines) i (new_plant sci com).
End Statements.

(** The section with line [j] replaced by an empty line. *)
Fixpoint blanked (j : nat) (lines : list pystr) : list pystr :=
  match lines, j with
  | [], _ => []
  | _ :: rest, O => [] :: rest
  | l :: rest, Datatypes.S j' => l :: blanked j' rest
  end.

(** ** Example documents *)

Definition doc_of_lines (ls : list string) : pystr :=
  PyStr.join [NL] (map lit ls).

(** Two entries of the same name; the habitat of the first has 12
    characters, that of the second 30. *)
Definition doc_same_name : pystr := doc_of_lines
  ["Adiantum pedatum Northern maidenhair fern";
   "Habitat: Moist woods.";
   "Exposure: Shade";
   "Form/Color: Delicate fronds";
   "Other: none";
   "Adiantum pedatum Northern maidenhair fern";
   "Habitat: Rich, moist deciduous woodland"]%string.

(** An entry followed two lines later by the next one. *)
Definition lines_adjacent : list pystr := map lit
  ["Adiantum pedatum Northern maidenhair fern";
   "Habitat: Moist woods";
   "Acer rubrum Red maple";
   "Habitat: Dry fields"]%string.

(** An entry followed five lines later by the next one, whose line sets
    no field. *)
Definition lines_apart : list pystr := map lit
  ["Adiantum pedatum Northern maidenhair fern";
   "Habitat: Moist woods";
   "Exposure: Shade";
   "Form/Color: Delicate fronds";
   "Other: none";
   "Acer rubrum Red maple";
   "Habitat: Dry fields"]%string.

(** Two entries whose names differ in white space only, with another
    entry between them; the habitats of the two have 12 and 30
    characters. *)
Definition doc_spaced_names : pystr := doc_of_lines
  ["Acer rubrum var. x Red maple";
   "Habitat: Moist woods.";
   "Exposure: Shade";
   "Other: none";
   "Zea mays Corn plant";
   "Habitat: Fields";
   "Exposure: Sun";
   "Other: none";
   "Acer rubrum  var. x Red maple";
   "Habitat: Rich, moist deciduous woodland"]%string.

(** Three entries of one cleaned name, at lines 0, 8 and 16: the first
    and the third have the same name as extracted, the second has two
    spaces in it; their habitats have 12, 30 and 46 characters. *)
Definition doc_name_between : pystr := doc_of_lines
  ["Acer rubrum var. x Red maple";
   "Habitat: Moist woods.";
   "Exposure: Shade";
   "Other: first";
   "Zea mays Corn plant";
   "Habitat: Fields";
   "Exposure: Sun";
   "Other: none";
   "Acer rubrum  var. x Red maple";
   "Habitat: Rich, moist deciduous woodland";
   "Exposure: Sun";
   "Other: second";
   "Poa annua Annual bluegrass";
   "Habitat: Lawns";
   "Exposure: Sun";
   "Other: none";
   "Acer rubrum var. x Red maple";
   "Habitat: Swamps, floodplains and wet woods of the coast";
   "Other: third"]%string.

(** The example of the specification. *)
Definition doc_example : pystr := doc_of_lines
  ["Adiantum pedatum Northern maidenhair fern";
   "Habitat: Moist woods";
   "Exposure: Shade"]%string.

(** An entry followed five lines later by the next one, whose line holds
    a field label. *)
Definition lines_labelled : list pystr := map lit
  ["Adiantum pedatum Northern maidenhair fern";
   "Habitat: Moist woods";
   "Exposure: Shade";
   "Form/Color: Delicate fronds";
   "Other: none";
   "Acer rubrum Red maple Exposure: Sun";
   "Habitat: Dry fields"]%string.

(** An entry followed three lines later by the next one. *)
Definition lines_three : list pystr := map lit
  ["Adiantum pedatum Northern maidenhair fern";
   "Habitat: Moist woods";
   "Exposure: Shade";
   "Acer rubrum Red maple";
   "Habitat: Dry fields"]%string.

(** An entry followed five lines later by the entry of a variety. *)
Definition lines_variety : list pystr := map lit
  ["Adiantum pedatum Northern maidenhair fern";
   "Habitat: Moist woods";
   "Exposure: Shade";
   "Form/Color: Delicate fronds";
   "Other: none";
   "Acer rubrum var. trilobum Red maple";
   "Habitat: Dry fields"]%string.

(* ================================================================= *)
(** * The tally of [main] and the file names of the image scripts *)

(** Lines 244-247 of [main], for one plant:
    [categories[cat] = categories.get(cat, 0) + 1]. *)
Definition tally_step (categories : Dict.t pystr nat) (p : plant)
  : Dict.t pystr nat :=
  let cat := pget_or "category" (lit "Unknown") p in
  Dict.set PyStr.eqb cat (Dict.get_or PyStr.eqb cat 0 categories + 1)
           categories.

(** Lines 244-247 of [main]. *)
Definition tally (plants : list plant) : Dict.t pystr nat :=
  fold_left tally_step plants [].

(** [re.sub(r, repl, s)] for a replacement without group references:
    every match, leftmost first and not overlapping, gives way to [repl]
    ([skip] counts characters of a match still to be passed over); an
    empty match puts [repl] in front of the character it stands before,
    or at the end. *)
Fixpoint re_sub_from (r : Re.re) (repl : pystr) (skip : nat) (s : pystr)
  : pystr :=
  match s with
  | [] =>
      match skip, Re.match_len r [] with
      | O, Some _ => repl
      | _, _ => []
      end
  | c :: s' =>
      match skip with
      | S n => re_sub_from r repl n s'
      | O =>
          match Re.match_len r s with
          | Some (S n) => repl ++ re_sub_from r repl n s'
          | Some O => repl ++ c :: re_sub_from r repl 0 s'
          | None => c :: re_sub_from r repl 0 s'
          end
      end
  end.

Definition re_sub (r : Re.re) (repl s : pystr) : pystr :=
  re_sub_from r repl 0 s.

Definition UNDERSCORE : N := 95.

(** The class "[a-zA-Z0-9]". *)
Definition alnum (c : N) : bool :=
  Re.lower c || Re.upper c || ((48 <=? c) && (c <=? 57))%N.

(** "[^a-zA-Z0-9]" *)
Definition unsafe_re : Re.re := Re.Chr (fun c => negb (alnum c)).

(** "_+" *)
Definition underscores_re : Re.re := Re.Plus (Re.chr UNDERSCORE).

(** [sanitize_filename], the same in [update_images.py],
    [batch_download.py], [curl_download.py], [download_images.py] and
    [fast_download.py]. *)
Definition sanitize_filename `{UnicodeDB} (name : pystr) : pystr :=
  let safe := re_sub unsafe_re [UNDERSCORE] (str_lower name) in
  let safe := re_sub underscores_re [UNDERSCORE] safe in
  PyStr.strip_chars [UNDERSCORE] safe.

(** ** Vocabulary of the further properties *)

(** The keys of a record of [parse_plants], in the order of lines 86-96. *)
Definition parsed_keys : list string :=
  ["scientific_name"; "common_name"; "habitat"; "form_color";
   "ecosystem_services"; "horticultural_value"; "other_info"; "exposure";
   "soil_moisture"]%string.

(** The text has no white space at either end. *)
Definition trimmed (s : pystr) : Prop := PyStr.strip s = s.

(** Every white-space character of the text is a space that stands
    between two characters that are not white space. [after_token] tells
    whether the text follows such a character. *)
Fixpoint spaced (after_token : bool) (s : pystr) : bool :=
  match s with
  | [] => true
  | c :: s' =>
      if PyStr.isspace c
      then after_token && N.eqb c 32
           && match s' with
              | [] => false
              | d :: _ => negb (PyStr.isspace d)
              end
           && spaced false s'
      else spaced true s'
  end.

(** Neither the first nor the last character of the text is in the class
    [p]. *)
Definition edge_free (p : N -> bool) (s : pystr) : Prop :=
  (forall c t, s = c :: t -> p c = false)
  /\ (forall t c, s = t ++ [c] -> p c = false).

(** The characters that [clean_name] strips. *)
Definition name_edge (c : N) : bool := existsb (N.eqb c) (lit " .,;:").

(** The text without the underscores that follow an underscore;
    [after_underscore] tells whether the text follows one. *)
Fixpoint squeeze (after_underscore : bool) (s : pystr) : pystr :=
  match s with
  | [] => []
  | c :: s' =>
      if N.eqb c UNDERSCORE
      then if after_underscore then squeeze true s'
           else c :: squeeze true s'
      else c :: squeeze false s'
  end.

(** No underscore of the text follows an underscore. *)
Fixpoint no_double (s : pystr) : bool :=
  match s with
  | a :: (b :: _) as t =>
      negb (N.eqb a UNDERSCORE && N.eqb b UNDERSCORE) && no_double t
  | _ => true
  end.

(** The length of the run of underscores at the start of the text. *)
Fixpoint run_length (s : pystr) : nat :=
  match s with
  | c :: s' => if N.eqb c UNDERSCORE then S (run_length s') else 0
  | [] => 0
  end.

(** The number of records of category [cat] that lines 244-247 count. *)
Definition count_category (cat : pystr) (plants : list plant) : nat :=
  length (filter (fun p => PyStr.eqb (pget_or "category" (lit "Unknown") p) cat)
                 plants).

(** ['scientific_name' in p]. *)
Definition has_name (p : plant) : bool :=
  Dict.has String.eqb "scientific_name"%string p.

(** The records of [ps] of name [k], in their order. *)
Definition of_name (k : pystr) (ps : list plant) : list plant :=
  filter (fun p => PyStr.eqb (name_of p) k) ps.

(** Two records of one name, with habitats of 12 and 30 characters. *)
Definition plant_short : plant :=
  pset "habitat" (lit "Moist woods.")
       (new_plant (lit "Acer rubrum") (lit "Red maple")).
Definition plant_long : plant :=
  pset "habitat" (lit "Rich, moist deciduous woodland")
       (new_plant (lit "Acer rubrum") (lit "Red maple")).

(** The four fields that the lookahead sets to a stripped text. *)
Definition trimmed_fields (p : plant) : Prop :=
  forall k, In k ["exposure"; "ecosystem_services"; "horticultural_value";
                  "other_info"]%string ->
            exists v, Dict.lookup String.eqb k p = Some v /\ trimmed v.

(** The record keeps its nine keys and its stripped fields. *)
Definition well_formed (p : plant) : Prop :=
  map fst p = parsed_keys /\ trimmed_fields p.

(** The keys of a record of the output of [main]. *)
Definition output_keys : list string := parsed_keys ++ ["category"%string].

(** The characters of a file name: letters and digits of ASCII and the
    underscore. *)
Definition name_char (c : N) : bool := alnum c || N.eqb c UNDERSCORE.

Definition is_underscore (c : N) : bool := N.eqb c UNDERSCORE.

(** A record of an accepted entry: a scientific name made of a genus of
    the form "[A-Z][a-z]+", a space and a species that begins with a
    letter of "[a-z]"; a common name of at least 3 characters; a genus
    that is no section header and a common name that is no table
    header. *)
Definition accepted `{UnicodeDB} (p : plant) : Prop :=
  exists c t species common,
    pget "scientific_name" p = Ok ((c :: t) ++ lit " " ++ species)
    /\ Re.upper c = true /\ t <> [] /\ forallb Re.lower t = true
    /\ (exists d u, species = d :: u /\ Re.lower d = true)
    /\ pget "common_name" p = Ok common
    /\ 3 <= length common
    /\ PyStr.mem (str_lower (c :: t)) skip_terms = false
    /\ PyStr.mem (str_lower common) header_names = false.

(* ================================================================= *)
(** * The update loop of [update_images.py] *)

(** A value of a record read back from [plants.json]: a string, [None],
    or a value of another kind (number, boolean, list, object), which the
    loop can only carry along. *)
Inductive jval : Type :=
| JStr (s : pystr)
| JNull
| JOther (payload : nat).

(** A record read back from [plants.json]. *)
Definition jplant : Type := Dict.t string jval.

Section UpdateImages.
Context {U : UnicodeDB}.

(** Lines 34-41 of [update_images.py] for one plant, with whether it was
  matched. [sanitize_filename] calls [name.lower()], which only a
  string has. *)
Definition update_plant (available_images : Dict.t pystr pystr)
         (plant : jplant) : result (jplant * bool) :=
v <- Dict.get String.eqb "scientific_name"%string plant ;;
name <- match v with
        | JStr s => Ok s
        | _ => Raise AttributeError
        end ;;
let filename := sanitize_filename name in
if Dict.has PyStr.eqb filename available_images then
  img <- Dict.get PyStr.eqb filename available_images ;;
  let plant := Dict.set String.eqb "image_file"%string (JStr img) plant in
  let plant := Dict.set String.eqb "image_license"%string
                        (JStr (lit "Wikimedia Commons")) plant in
  let plant := Dict.set String.eqb "image_author"%string
                        (JStr (lit "Wikipedia contributors")) plant in
  Ok (plant, true)
else if negb (Dict.has String.eqb "image_file"%string plant) then
  Ok (Dict.set String.eqb "image_file"%string JNull plant, false)
else Ok (plant, false).

(** Lines 32-41: the updated plants and the number matched. *)
Fixpoint update_plants (available_images : Dict.t pystr pystr)
       (plants : list jplant) : result (list jplant * nat) :=
match plants with
| [] => Ok ([], 0)
| plant :: rest =>
    r <- update_plant available_images plant ;;
    rs <- update_plants available_images rest ;;
    Ok (fst r :: fst rs, (if snd r then 1 else 0) + snd rs)
end.

(** Is the plant one that lines 34-35 match with an image? *)
Definition has_image (available_images : Dict.t pystr pystr)
         (plant : jplant) : bool :=
match Dict.lookup String.eqb "scientific_name"%string plant with
| Some (JStr s) =>
    Dict.has PyStr.eqb (sanitize_filename s) available_images
| _ => false
end.
End UpdateImages.

(** The keys that the update loop may set. *)
Definition image_keys : list string :=
  ["image_file"; "image_license"; "image_author"]%string.

(** [q] differs from [p] at most in the image keys. *)
Definition same_but_images (p q : jplant) : Prop :=
  forall k, ~ In k image_keys ->
            Dict.lookup String.eqb k q = Dict.lookup String.eqb k p.

(** A record with a name for which an image is at hand, one for which
    none is, and the images at hand. *)
Definition jplant_acer : jplant :=
  [("scientific_name", JStr (lit "Acer rubrum"));
   ("common_name", JStr (lit "Red maple"))]%string.
Definition jplant_zea : jplant :=
  [("scientific_name", JStr (lit "Zea mays"));
   ("common_name", JStr (lit "Corn plant"))]%string.
Definition images_at_hand : Dict.t pystr pystr :=
  [(lit "acer_rubrum", lit "acer_rubrum.jpg")].

(** The two records as the update loop leaves them. *)
Definition jplants_updated : list jplant :=
  [jplant_acer ++ [("image_file", JStr (lit "acer_rubrum.jpg"));
                   ("image_license", JStr (lit "Wikimedia Commons"));
                   ("image_author", JStr (lit "Wikipedia contributors"))
                  ]%string;
   jplant_zea ++ [("image_file", JNull)]%string].

(** A record that lines 218-221 leave as it is: both names are cleaned
    and the category is that of the first token of the name. *)
Definition settled (p : plant) : Prop :=
  exists sn cn genus,
    Dict.lookup String.eqb "scientific_name"%string p = Some sn
    /\ clean_name sn = sn
    /\ Dict.lookup String.eqb "common_name"%string p = Some cn
    /\ clean_name cn = cn
    /\ index (PyStr.split_ws sn) 0 = Ok genus
    /\ Dict.lookup String.eqb "category"%string p
       = Some (category_of_genus genus).

(** A name that begins with a genus of the form "[A-Z][a-z]+", a space
    and a lower-case letter. *)
Definition binomial (s : pystr) : Prop :=
  exists c t d rest,
    s = (c :: t) ++ 32%N :: d :: rest
    /\ Re.upper c = true /\ t <> [] /\ forallb Re.lower t = true
    /\ Re.lower d = true.

(* ================================================================= *)
(** * Facts about the model *)

Unset Implicit Arguments.

(* ---------- basic lemmas ---------- *)
Lemma bind_Ok {A B} (m : result A) (f : A -> result B) b :
  bind m f = Ok b -> exists a, m = Ok a /\ f a = Ok b.
Proof. destruct m; simpl; intros H; try discriminate. eauto. Qed.

Lemma index_lt {A} (xs : list A) n :
  n < length xs -> exists x, index xs n = Ok x /\ nth_error xs n = Some x.
Proof.
  intros H. unfold index. destruct (nth_error xs n) eqn:E; eauto.
  apply nth_error_None in E. lia.
Qed.

Lemma index_last_nonempty {A} (xs : list A) :
  xs <> [] -> exists x, index_last xs = Ok x.
Proof.
  intros H. unfold index_last. destruct (rev xs) eqn:E; eauto.
  apply (f_equal (@rev A)) in E. rewrite rev_involutive in E. simpl in E. contradiction.
Qed.

Section PyStrFacts.
Import PyStr.

Lemma pystr_eqb_eq a : forall b, eqb a b = true <-> a = b.
Proof.
  induction a as [|x a IH]; destruct b as [|y b]; simpl; split; intros H;
    try reflexivity; try discriminate.
  - apply andb_true_iff in H. destruct H as [H1 H2].
    apply N.eqb_eq in H1. apply IH in H2. congruence.
  - inversion H; subst. rewrite N.eqb_refl. simpl. apply IH. reflexivity.
Qed.

Lemma pystr_eqb_refl a : eqb a a = true.
Proof. apply pystr_eqb_eq. reflexivity. Qed.

Lemma pystr_eqb_neq a b : eqb a b = false <-> a <> b.
Proof.
  split; intros H.
  - intros E. apply pystr_eqb_eq in E. congruence.
  - destruct (eqb a b) eqn:E; [apply pystr_eqb_eq in E; contradiction | reflexivity].
Qed.

Lemma pystr_mem_In x xs : mem x xs = true <-> In x xs.
Proof.
  unfold mem. rewrite existsb_exists. split.
  - intros [y [Hy E]]. apply pystr_eqb_eq in E. subst. exact Hy.
  - intros H. exists x. split; [exact H | apply pystr_eqb_refl].
Qed.

Lemma split_from_nonempty sep s : forall skip cur, split_from sep skip cur s <> [].
Proof.
  induction s as [|c s IH]; intros skip cur; simpl.
  - discriminate.
  - destruct skip; [|apply IH].
    destruct (startswith sep (c :: s)); [discriminate | apply IH].
Qed.

Lemma split_nonempty sep s : split sep s <> [].
Proof. apply split_from_nonempty. Qed.

Lemma dropwhile_app_last p c : p c = false ->
  forall l, exists l', dropwhile p (l ++ [c]) = l' ++ [c].
Proof.
  intros Hc. induction l as [|x l IH]; simpl.
  - rewrite Hc. exists []. reflexivity.
  - destruct (p x); [exact IH | exists (x :: l); reflexivity].
Qed.

Lemma strip_with_head p c rest : p c = false ->
  exists t, strip_with p (c :: rest) = c :: t.
Proof.
  intros Hc. unfold strip_with. simpl. rewrite Hc. simpl.
  destruct (dropwhile_app_last p c Hc (rev rest)) as [l' E].
  rewrite E, rev_app_distr. simpl. eauto.
Qed.

Lemma strip_head c rest : isspace c = false ->
  exists t, strip (c :: rest) = c :: t.
Proof. apply strip_with_head. Qed.

Lemma split_ws_from_cur c cur s :
  exists w ws, split_ws_from (cur ++ [c]) s = (c :: w) :: ws.
Proof.
  revert cur. induction s as [|x s IH]; intros cur; simpl.
  - destruct (cur ++ [c]) eqn:E; [destruct cur; discriminate|].
    rewrite <- E, rev_app_distr. simpl. eauto.
  - destruct (isspace x).
    + destruct (cur ++ [c]) eqn:E; [destruct cur; discriminate|].
      rewrite <- E, rev_app_distr. simpl. eauto.
    + apply (IH (x :: cur)).
Qed.

Lemma split_ws_head c rest : isspace c = false ->
  exists w ws, split_ws (c :: rest) = (c :: w) :: ws.
Proof.
  intros Hc. unfold split_ws. simpl. rewrite Hc.
  apply (split_ws_from_cur c [] rest).
Qed.

Lemma join_head sep c w ws : exists t, join sep ((c :: w) :: ws) = c :: t.
Proof. destruct ws; simpl; eauto. Qed.

Lemma replace_head old new c rest : startswith old (c :: rest) = false ->
  exists t, replace old new (c :: rest) = c :: t.
Proof. intros H. unfold replace. simpl. rewrite H. eauto. Qed.
End PyStrFacts.

Section ReFacts.
Import Re.

Lemma star_leaves {A} p (k : pystr -> option A) x : forall s,
  star p s k = Some x ->
  exists pre s', s = pre ++ s' /\ forallb p pre = true /\ k s' = Some x.
Proof.
  induction s as [|c s IH]; simpl; intros H.
  - exists [], []. auto.
  - destruct (p c) eqn:Hc.
    + destruct (star p s k) eqn:E.
      * inversion H; subst. destruct (IH eq_refl) as (pre & s' & -> & Hp & Hk).
        exists (c :: pre), s'. simpl. rewrite Hc, Hp. auto.
      * exists [], (c :: s). auto.
    + exists [], (c :: s). auto.
Qed.

Lemma run_leaves {A} r : forall s g (k : pystr -> groups -> option A) x,
  run r s g k = Some x ->
  exists s' g', leaves r s g s' g' /\ k s' g' = Some x.
Proof.
  induction r as [|p|a IHa b IHb|a IHa b IHb|p|i a IHa|]; simpl; intros s g k x H.
  - eauto.
  - destruct s as [|c s]; [discriminate|].
    destruct (p c) eqn:Hc; [|discriminate]. exists s, g. eauto.
  - apply IHa in H. destruct H as (s1 & g1 & Ha & H).
    apply IHb in H. destruct H as (s2 & g2 & Hb & H).
    exists s2, g2. eauto.
  - destruct (run a s g k) eqn:E.
    + inversion H; subst. apply IHa in E. destruct E as (s' & g' & ? & ?).
      exists s', g'. auto.
    + apply IHb in H. destruct H as (s' & g' & ? & ?). exists s', g'. auto.
  - apply star_leaves in H. destruct H as (pre & s' & ? & ? & ?).
    exists s', g. eauto.
  - apply IHa in H. destruct H as (s' & g' & Ha & H).
    exists s', ((i, consumed s s') :: g'). eauto.
  - destruct (at_end s) eqn:E; [|discriminate]. exists s, g. auto.
Qed.

Lemma leaves_suffix r : forall s g s' g',
  leaves r s g s' g' -> exists pre, s = pre ++ s'.
Proof.
  induction r as [|p|a IHa b IHb|a IHa b IHb|p|i a IHa|]; simpl; intros s g s' g' H.
  - destruct H as [-> _]. exists []. reflexivity.
  - destruct H as (c & -> & _). exists [c]. reflexivity.
  - destruct H as (s1 & g1 & Ha & Hb).
    apply IHa in Ha. apply IHb in Hb. destruct Ha as [p1 ->], Hb as [p2 ->].
    exists (p1 ++ p2). apply app_assoc.
  - destruct H as [H|H]; eauto.
  - destruct H as (pre & -> & _). eauto.
  - destruct H as (g1 & H & _). eauto.
  - destruct H as [-> _]. exists []. reflexivity.
Qed.

Lemma consumed_app pre s' : consumed (pre ++ s') s' = pre.
Proof.
  unfold consumed. rewrite length_app.
  replace (length pre + length s' - length s') with (length pre) by lia.
  rewrite firstn_app, firstn_all, Nat.sub_diag. simpl. apply app_nil_r.
Qed.

(** A match of [c b] consumes a text whose first character is in [c]. *)
Lemma leaves_chr_head p b s g s' g' :
  leaves (Seq (Chr p) b) s g s' g' ->
  exists c t, consumed s s' = c :: t /\ p c = true.
Proof.
  simpl. intros (s1 & g1 & (c & -> & Hc & _) & Hb).
  apply leaves_suffix in Hb. destruct Hb as [pre ->].
  exists c, pre. split; [|exact Hc].
  apply (consumed_app (c :: pre) s').
Qed.
Lemma leaves_plus_head p b s g s' g' :
  leaves (Seq (Plus p) b) s g s' g' ->
  exists c t, consumed s s' = c :: t /\ p c = true.
Proof.
  intros (s1 & g1 & Ha & Hb). destruct Ha as (sa & ga & (c & -> & Hc & _) & Hs).
  apply leaves_suffix in Hs, Hb. destruct Hs as [p1 ->], Hb as [p2 ->].
  exists c, (p1 ++ p2). split; [|exact Hc].
  rewrite <- (consumed_app (c :: p1 ++ p2) s'). simpl. now rewrite app_assoc.
Qed.

Lemma leaves_plain r : plain r = true -> forall s g s' g',
  leaves r s g s' g' -> g' = g.
Proof.
  induction r as [|p|a IHa b IHb|a IHa b IHb|p|i a IHa|]; simpl; intros P s g s' g' H;
    try discriminate.
  - apply H.
  - destruct H as (c & _ & _ & ->). reflexivity.
  - apply andb_true_iff in P. destruct P as [Pa Pb].
    destruct H as (s1 & g1 & Ha & Hb).
    apply (IHa Pa) in Ha. apply (IHb Pb) in Hb. congruence.
  - apply andb_true_iff in P. destruct P as [Pa Pb].
    destruct H as [H|H]; eauto.
  - destruct H as (pre & _ & _ & ->). reflexivity.
  - apply H.
Qed.
End ReFacts.

Section EntryFacts.
Context {U : UnicodeDB}.
Import Re.

(** The groups of a line that matches the entry pattern. *)
Lemma entry_groups line m :
  match_ entry_re line = Some m ->
  exists c1 t1 c2 t2 c3 t3,
    group m 1 = Some (c1 :: t1) /\ upper c1 = true /\
    group m 2 = Some (c2 :: t2) /\ lower c2 = true /\
    group m 3 = Some (c3 :: t3) /\ upper c3 = true.
Proof.
  unfold match_. intros H. apply run_leaves in H.
  destruct H as (s' & g' & H & E). inversion E; subst g'; clear E.
  unfold entry_re in H.
  destruct H as (s1 & g1 & (g1' & H1 & ->) & s2 & g2 & Hsp1 & s3 & g3 & (g3' & H3 & ->) & H).
  destruct H as (s4 & g4 & Hsp2 & s5 & g5 & Hd & s6 & g6 & Hsp3 & s7 & g7 & (g7' & H7 & ->) & He).
  destruct He as (-> & _ & ->).
  pose proof (leaves_chr_head _ _ _ _ _ _ H1) as (c1 & t1 & E1 & U1).
  pose proof (leaves_plus_head _ _ _ _ _ _ H3) as (c2 & t2 & E2 & U2).
  pose proof (leaves_chr_head _ _ _ _ _ _ H7) as (c3 & t3 & E3 & U3).
  apply leaves_plain in H1; [|reflexivity].
  apply leaves_plain in Hsp1; [|reflexivity].
  apply leaves_plain in H3; [|reflexivity].
  apply leaves_plain in Hsp2; [|reflexivity].
  apply leaves_plain in Hd; [|reflexivity].
  apply leaves_plain in Hsp3; [|reflexivity].
  apply leaves_plain in H7; [|reflexivity].
  subst. exists c1, t1, c2, t2, c3, t3. simpl.
  rewrite E1, E2, E3. repeat split; assumption.
Qed.
End EntryFacts.

Section ClassFacts.
Import PyStr.

Ltac solve_class E :=
  repeat (apply orb_true_iff in E; destruct E as [E|E]);
  try (apply andb_true_iff in E; destruct E as [?Ea ?Eb];
       apply N.leb_le in Ea, Eb; lia);
  try (apply N.eqb_eq in E; lia);
  try discriminate.

Lemma upper_not_space c : Re.upper c = true -> isspace c = false.
Proof.
  unfold Re.upper. intros H. apply andb_true_iff in H. destruct H as [H1 H2].
  apply N.leb_le in H1, H2.
  destruct (isspace c) eqn:E; [exfalso|reflexivity].
  unfold isspace in E. solve_class E.
Qed.

Lemma lower_not_space c : Re.lower c = true -> isspace c = false.
Proof.
  unfold Re.lower. intros H. apply andb_true_iff in H. destruct H as [H1 H2].
  apply N.leb_le in H1, H2.
  destruct (isspace c) eqn:E; [exfalso|reflexivity].
  unfold isspace in E. solve_class E.
Qed.

Lemma upper_not_punct c : Re.upper c = true ->
  existsb (N.eqb c) (lit " .,;:") = false.
Proof.
  unfold Re.upper. intros H. apply andb_true_iff in H. destruct H as [H1 H2].
  apply N.leb_le in H1, H2.
  destruct (existsb (N.eqb c) (lit " .,;:")) eqn:E; [exfalso|reflexivity].
  cbn in E. solve_class E.
Qed.

Lemma not_dagger c t : (c <= 122)%N -> startswith [DAGGER] (c :: t) = false.
Proof.
  intros H. assert (E : N.eqb DAGGER c = false).
  { apply N.eqb_neq. unfold DAGGER. lia. }
  unfold startswith. rewrite E. reflexivity.
Qed.
End ClassFacts.

Section CandidateFacts.
Context {U : UnicodeDB}.
Import PyStr.

(** [strip] and the removal of the obelisk keep a leading letter. *)
Lemma tidy_head c t : (c <= 122)%N -> isspace c = false ->
  exists t', strip (replace [DAGGER] [] (strip (c :: t))) = c :: t'.
Proof.
  intros Hc Hs.
  destruct (strip_head c t Hs) as [t1 E1]. rewrite E1.
  destruct (replace_head [DAGGER] [] c t1) as [t2 E2].
  { apply not_dagger. exact Hc. }
  rewrite E2. apply strip_head. exact Hs.
Qed.

(** Lines 36-80 raise nothing, and an accepted entry has a scientific
    name that begins with a letter of [A-Z]. *)
Lemma candidate_total line :
  exists r, candidate line = Ok r /\
    forall sci com, r = Some (sci, com) -> starts_upper sci.
Proof.
  unfold candidate.
  destruct (is_empty line || startswith (lit "---") line
            || startswith (lit "Page |") line).
  { exists None. split; [reflexivity | discriminate]. }
  destruct (Re.match_ entry_re line) as [m|] eqn:Em.
  2:{ exists None. split; [reflexivity | discriminate]. }
  apply entry_groups in Em.
  destruct Em as (c1 & t1 & c2 & t2 & c3 & t3 & G1 & U1 & G2 & U2 & G3 & U3).
  unfold group_strip. rewrite G1, G2, G3. cbn [bind].
  destruct (strip_head c1 t1 (upper_not_space c1 U1)) as [g E1].
  rewrite E1.
  assert (L2 : (c2 <= 122)%N).
  { unfold Re.lower in U2. apply andb_true_iff in U2. destruct U2 as [_ U2].
    now apply N.leb_le in U2. }
  destruct (tidy_head c2 t2 L2 (lower_not_space c2 U2)) as [sp E2].
  rewrite E2.
  match goal with |- context [if ?b then _ else _] => destruct b end.
  { exists None. split; [reflexivity | discriminate]. }
  match goal with |- context [if ?b then _ else _] => destruct b end.
  { exists None. split; [reflexivity | discriminate]. }
  cbn [bind index nth_error].
  destruct (str_isupper [c1]); cbn [bind];
    [destruct (str_islower [c2])|]; cbn [negb];
    try (exists None; split; [reflexivity | discriminate]).
  match goal with |- context [if ?b then _ else _] => destruct b end.
  { exists None. split; [reflexivity | discriminate]. }
  eexists. split; [reflexivity|].
  intros sci com E. inversion E; subst. exists c1, (g ++ lit " " ++ c2 :: sp).
  split; [reflexivity | exact U1].
Qed.
End CandidateFacts.

Section DictFacts.
Lemma lookup_pset_same k v (p : plant) :
  Dict.lookup String.eqb k (pset k v p) = Some v.
Proof.
  unfold pset. induction p as [|[k' v'] p IH]; simpl.
  - now rewrite String.eqb_refl.
  - destruct (String.eqb k k') eqn:E; simpl; rewrite E; auto.
Qed.

Lemma lookup_pset_other k k' v (p : plant) : k <> k' ->
  Dict.lookup String.eqb k (pset k' v p) = Dict.lookup String.eqb k p.
Proof.
  intros N. unfold pset. induction p as [|[k2 v2] p IH]; simpl.
  - apply String.eqb_neq in N. now rewrite N.
  - destruct (String.eqb k' k2) eqn:E; simpl.
    + apply String.eqb_eq in E. subst k2. apply String.eqb_neq in N.
      now rewrite N.
    + now rewrite IH.
Qed.

Lemma same_outside_refl ks p : same_outside ks p p.
Proof. intros k _. reflexivity. Qed.

Lemma same_outside_trans ks p q r :
  same_outside ks p q -> same_outside ks q r -> same_outside ks p r.
Proof. intros H1 H2 k N. rewrite (H2 k N). apply (H1 k N). Qed.

Lemma same_outside_pset ks k v p : In k ks -> same_outside ks p (pset k v p).
Proof.
  intros I k' N. apply lookup_pset_other. intros ->. contradiction.
Qed.
End DictFacts.

Section HarvestFacts.
Context {U : UnicodeDB}.
Import PyStr.

Lemma form_color_loop_total lines j : forall fuel k form_text,
  Nat.min (j + 4) (length lines) - k < fuel ->
  exists r, form_color_loop fuel lines j k form_text = Ok r.
Proof.
  induction fuel as [|fuel IH]; intros k form_text F; [lia|]. simpl.
  destruct (k <? Nat.min (j + 4) (length lines)) eqn:Ek; [|eauto].
  apply Nat.ltb_lt in Ek.
  destruct (index_lt lines k) as (l & El & _); [lia|]. rewrite El. simpl.
  destruct (negb (is_empty (strip l)) && _); [|eauto].
  destruct (matches shape_re (strip l)); [eauto|].
  apply IH. lia.
Qed.

Ltac set_field :=
  eexists; split; [reflexivity | apply same_outside_pset; simpl; tauto].

(** Lines 103-136 raise nothing and touch only the harvested fields. *)
Lemma harvest_line_total lines j next_line p :
  exists p', harvest_line lines j next_line p = Ok p'
             /\ same_outside harvested_keys p p'.
Proof.
  unfold harvest_line.
  destruct (startswith (lit "Habitat:") next_line); [set_field|].
  destruct (contains (lit "Exposure:") next_line).
  { destruct (1 <? length (split (lit "Exposure:") next_line)) eqn:E1.
    - apply Nat.ltb_lt in E1.
      destruct (index_lt _ 1 E1) as (p1 & -> & _). cbn [bind].
      destruct (index_lt (split (lit "Ecosystem") p1) 0) as (e0 & -> & _).
      { pose proof (split_nonempty (lit "Ecosystem") p1).
        destruct (split (lit "Ecosystem") p1); [contradiction | simpl; lia]. }
      cbn [bind]. set_field.
    - exists p. split; [reflexivity | apply same_outside_refl]. }
  destruct (contains (lit "Form/Color:") next_line).
  { destruct (index_last_nonempty (split (lit "Form/Color:") next_line))
      as [f ->]; [apply split_nonempty|]. cbn [bind].
    destruct (form_color_loop_total lines j 4 (j + 1) (strip f)) as [r ->];
      [lia|]. cbn [bind]. set_field. }
  destruct (contains (lit "Ecosystem Services:") next_line).
  { destruct (index_last_nonempty (split (lit "Services:") next_line))
      as [f ->]; [apply split_nonempty|]. cbn [bind]. set_field. }
  destruct (contains (lit "Horticultural") next_line
            && contains (lit "Value:") next_line).
  { destruct (index_last_nonempty (split (lit "Value:") next_line))
      as [f ->]; [apply split_nonempty|]. cbn [bind]. set_field. }
  destruct (startswith (lit "Other:") next_line); [set_field|].
  exists p. split; [reflexivity | apply same_outside_refl].
Qed.

Lemma harvest_loop_total lines i : forall fuel j p,
  Nat.min (i + 60) (length lines) - j < fuel ->
  exists p', harvest_loop fuel lines i j p = Ok p'
             /\ same_outside harvested_keys p p'.
Proof.
  induction fuel as [|fuel IH]; intros j p F; [lia|]. simpl.
  destruct (j <? Nat.min (i + 60) (length lines)) eqn:Ej.
  2:{ exists p. split; [reflexivity | apply same_outside_refl]. }
  apply Nat.ltb_lt in Ej.
  destruct (index_lt lines j) as (l & -> & _); [lia|]. cbn [bind].
  destruct (harvest_line_total lines j (strip l) p) as (p1 & -> & S1).
  cbn [bind].
  destruct ((i + 3 <? j) && matches shape_re (strip l)).
  { exists p1. split; [reflexivity | exact S1]. }
  destruct (IH (j + 1) p1) as (p2 & -> & S2); [lia|].
  exists p2. split; [reflexivity|].
  eapply same_outside_trans; eassumption.
Qed.

(** The lookahead raises nothing, stays within its budget and touches
    only the harvested fields. *)
Lemma harvest_total lines i p :
  exists p', harvest lines i p = Ok p' /\ same_outside harvested_keys p p'.
Proof. apply harvest_loop_total. lia. Qed.
End HarvestFacts.

Section ScanFacts.
Context {U : UnicodeDB} {S : PySet}.
Import PyStr.

Lemma parsed_name p sci com :
  same_outside harvested_keys (new_plant sci com) p -> name_of p = sci.
Proof.
  intros H. unfold name_of, pget_or, Dict.get_or.
  rewrite (H "scientific_name"%string); [reflexivity|].
  simpl. intros C. repeat (destruct C as [C|C]; [discriminate|]). exact C.
Qed.

(** The scan raises nothing, ends within its budget, and only appends
    records of accepted entries. *)
Lemma scan_loop_total lines : forall fuel i seen plants,
  length lines - i < fuel ->
  exists out, scan_loop fuel lines i seen plants = Ok (plants ++ out)
              /\ Forall parsed out.
Proof.
  induction fuel as [|fuel IH]; intros i seen plants F; [lia|]. simpl.
  destruct (i <? length lines) eqn:Ei.
  2:{ exists []. rewrite app_nil_r. auto. }
  apply Nat.ltb_lt in Ei.
  destruct (index_lt lines i Ei) as (l & -> & _). cbn [bind].
  destruct (candidate_total (strip l)) as (c & -> & Hc). cbn [bind].
  destruct c as [[sci com]|]; [|apply IH; lia].
  destruct (negb (set_mem (str_lower sci) seen)); [|apply IH; lia].
  destruct (harvest_total lines i (new_plant sci com)) as (p & -> & Hp).
  cbn [bind].
  destruct (IH (i + 1) (set_add (str_lower sci) seen) (plants ++ [p]))
    as (out & -> & Ho); [lia|].
  exists (p :: out). rewrite <- app_assoc. split; [reflexivity|].
  constructor; [|exact Ho].
  exists sci, com. split; [|exact Hp]. apply (Hc sci com eq_refl).
Qed.

(** No two records of the scan have the same lower-cased name. *)
Lemma scan_loop_keys lines : forall fuel i seen plants out,
  scan_loop fuel lines i seen plants = Ok out ->
  (forall p, In p plants -> set_mem (name_key p) seen = true) ->
  NoDup (map name_key plants) ->
  NoDup (map name_key out).
Proof.
  induction fuel as [|fuel IH]; intros i seen plants out H Hs Hn;
    [discriminate|]. simpl in H.
  destruct (i <? length lines); [|inversion H; subst; exact Hn].
  apply bind_Ok in H. destruct H as (l & _ & H).
  apply bind_Ok in H. destruct H as (c & _ & H).
  destruct c as [[sci com]|]; [|eapply IH; eassumption].
  destruct (set_mem (str_lower sci) seen) eqn:Em; simpl in H;
    [eapply IH; eassumption|].
  apply bind_Ok in H. destruct H as (p & Hp & H).
  destruct (harvest_total lines i (new_plant sci com)) as (p' & Hp' & Sp).
  rewrite Hp in Hp'. inversion Hp'; subst p'; clear Hp'.
  assert (K : name_key p = str_lower sci).
  { unfold name_key. now rewrite (parsed_name p sci com Sp). }
  eapply IH; [exact H | |].
  - intros q Hq. rewrite set_mem_add. apply in_app_or in Hq.
    destruct Hq as [Hq|[<-|[]]].
    + rewrite (Hs q Hq). apply orb_true_r.
    + rewrite K, pystr_eqb_refl. reflexivity.
  - rewrite map_app. simpl. apply NoDup_app; [exact Hn | repeat constructor; auto |].
    intros k Hk [<-|[]]. apply in_map_iff in Hk. destruct Hk as (q & Eq & Hq).
    specialize (Hs q Hq). rewrite Eq, K in Hs. congruence.
Qed.

Lemma parse_plants_total content :
  exists out, parse_plants content = Ok out /\ Forall parsed out.
Proof.
  unfold parse_plants.
  destruct (scan_loop_total (split [NL] (locate_section content))
              (Datatypes.S (length (split [NL] (locate_section content))))
              0 set_empty []) as (out & E & F); [lia|].
  exists out. auto.
Qed.

Lemma parse_plants_keys content out :
  parse_plants content = Ok out -> NoDup (map name_key out).
Proof.
  unfold parse_plants. intros H.
  eapply scan_loop_keys; [exact H | intros p [] | constructor].
Qed.
End ScanFacts.

Section CleanFacts.
Import PyStr.

Lemma clean_name_upper s : starts_upper s -> starts_upper (clean_name s).
Proof.
  intros (c & t & -> & Hc). unfold clean_name.
  destruct (split_ws_head c t (upper_not_space c Hc))
    as (w & ws & ->).
  destruct (join_head (lit " ") c w ws) as [t1 ->].
  destruct (strip_with_head
              (fun x => existsb (N.eqb x) (lit " .,;:")) c t1
              (upper_not_punct c Hc)) as [t2 E].
  exists c, t2. split; [exact E | exact Hc].
Qed.

Lemma first_token s : starts_upper s ->
  exists genus, index (split_ws s) 0 = Ok genus.
Proof.
  intros (c & t & -> & Hc).
  destruct (split_ws_head c t (upper_not_space c Hc))
    as (w & ws & ->).
  exists (c :: w). reflexivity.
Qed.

(** Lines 218-221 raise nothing on a record that [parse_plants] made. *)
Lemma clean_plant_total p :
  parsed p -> exists p', clean_plant p = Ok p' /\ cleaned p'
                         /\ habitat_len p' = habitat_len p.
Proof.
  intros (sci & com & Hu & Hs). unfold clean_plant, pget, Dict.get.
  rewrite (Hs "scientific_name"%string)
    by (simpl; intros C; repeat (destruct C as [C|C]; [discriminate|]); exact C).
  cbn [new_plant Dict.lookup String.eqb Ascii.eqb Bool.eqb bind].
  rewrite lookup_pset_other by discriminate.
  rewrite (Hs "common_name"%string)
    by (simpl; intros C; repeat (destruct C as [C|C]; [discriminate|]); exact C).
  cbn [new_plant Dict.lookup String.eqb Ascii.eqb Bool.eqb bind].
  rewrite lookup_pset_other by discriminate.
  rewrite lookup_pset_same. cbn [bind].
  pose proof (clean_name_upper sci Hu) as Hu'.
  destruct (first_token _ Hu') as [genus Eg].
  unfold categorize_plant. rewrite Eg. cbn [bind].
  eexists. split; [reflexivity|]. split.
  - exists (clean_name sci), genus. repeat split.
    + rewrite !lookup_pset_other by discriminate. apply lookup_pset_same.
    + exact Hu'.
    + exact Eg.
    + apply lookup_pset_same.
    + rewrite !lookup_pset_other by discriminate.
      rewrite (Hs "soil_moisture"%string)
        by (simpl; intros C; repeat (destruct C as [C|C]; [discriminate|]); exact C).
      reflexivity.
  - unfold habitat_len, pget_or, Dict.get_or.
    now rewrite !lookup_pset_other by discriminate.
Qed.

Lemma mapM_clean_total ps :
  Forall parsed ps ->
  exists out, mapM clean_plant ps = Ok out /\ Forall cleaned out
              /\ map habitat_len out = map habitat_len ps.
Proof.
  induction 1 as [|p ps Hp _ IH]; simpl.
  - exists []. auto.
  - destruct (clean_plant_total p Hp) as (p' & -> & Hc & Hh).
    destruct IH as (out & -> & Ho & Hm). cbn [bind].
    exists (p' :: out). simpl. rewrite Hh, Hm. auto.
Qed.
End CleanFacts.

Section MergeFacts.
Context {U : UnicodeDB}.

Lemma lookup_dset_same {V} k (v : V) d :
  Dict.lookup PyStr.eqb k (Dict.set PyStr.eqb k v d) = Some v.
Proof.
  induction d as [|[k' v'] d IH]; simpl.
  - now rewrite pystr_eqb_refl.
  - destruct (PyStr.eqb k k') eqn:E; simpl; rewrite E; auto.
Qed.

Lemma lookup_dset_other {V} k k' (v : V) d : k <> k' ->
  Dict.lookup PyStr.eqb k (Dict.set PyStr.eqb k' v d)
  = Dict.lookup PyStr.eqb k d.
Proof.
  intros N. induction d as [|[k2 v2] d IH]; simpl.
  - apply pystr_eqb_neq in N. now rewrite N.
  - destruct (PyStr.eqb k' k2) eqn:E; simpl.
    + apply pystr_eqb_eq in E. subst k2.
      apply pystr_eqb_neq in N. now rewrite N.
    + now rewrite IH.
Qed.

Lemma lookup_None {V} k (d : Dict.t pystr V) :
  Dict.lookup PyStr.eqb k d = None -> ~ In k (map fst d).
Proof.
  induction d as [|[k' v'] d IH]; simpl; intros H; [tauto|].
  destruct (PyStr.eqb k k') eqn:E; [discriminate|].
  apply pystr_eqb_neq in E. intros [C|C]; [congruence | now apply IH].
Qed.

Lemma In_lookup {V} k (v : V) d :
  NoDup (map fst d) -> In (k, v) d -> Dict.lookup PyStr.eqb k d = Some v.
Proof.
  induction d as [|[k' v'] d IH]; simpl; intros N I; [contradiction|].
  inversion N as [|? ? Nk Nd]; subst.
  destruct I as [I|I].
  - inversion I; subst. now rewrite pystr_eqb_refl.
  - destruct (PyStr.eqb k k') eqn:E; [|now apply IH].
    apply pystr_eqb_eq in E. subst k'. exfalso. apply Nk.
    apply in_map_iff. exists (k, v). auto.
Qed.

Lemma keys_dset {V} k (v : V) d :
  map fst (Dict.set PyStr.eqb k v d)
  = match Dict.lookup PyStr.eqb k d with
    | Some _ => map fst d
    | None => map fst d ++ [k]
    end.
Proof.
  induction d as [|[k' v'] d IH]; simpl; [reflexivity|].
  destruct (PyStr.eqb k k') eqn:E; simpl; [reflexivity|].
  rewrite IH. destruct (Dict.lookup PyStr.eqb k d); reflexivity.
Qed.

Lemma NoDup_dset {V} k (v : V) d :
  NoDup (map fst d) -> NoDup (map fst (Dict.set PyStr.eqb k v d)).
Proof.
  intros N. rewrite keys_dset.
  destruct (Dict.lookup PyStr.eqb k d) eqn:E; [exact N|].
  apply NoDup_app; [exact N | repeat constructor; auto |].
  intros x Hx [<-|[]]. now apply lookup_None in E.
Qed.

End MergeFacts.

Section MergeLoop.
Context {U : UnicodeDB}.

Lemma pget_name p sn : pget "scientific_name" p = Ok sn -> name_of p = sn.
Proof.
  unfold pget, Dict.get, name_of, pget_or, Dict.get_or.
  destruct (Dict.lookup String.eqb "scientific_name"%string p);
    intros H; inversion H; reflexivity.
Qed.

Lemma first_longest_snoc done q p :
  first_longest done q ->
  (name_key p = name_key q -> habitat_len p <= habitat_len q) ->
  first_longest (done ++ [p]) q.
Proof.
  intros (b & a & -> & Hb & Ha) Hp.
  exists b, (a ++ [p]). split; [now rewrite <- app_assoc|]. split; [exact Hb|].
  intros x Hx Ex. apply in_app_or in Hx. destruct Hx as [Hx|[<-|[]]]; auto.
Qed.

Lemma first_longest_new done p :
  (forall x, In x done -> name_key x = name_key p ->
             habitat_len x < habitat_len p) ->
  first_longest (done ++ [p]) p.
Proof.
  intros H. exists done, []. split; [reflexivity|]. split; [exact H|].
  intros x [].
Qed.

Lemma first_longest_beats done e p :
  first_longest done e -> name_key e = name_key p ->
  habitat_len e < habitat_len p ->
  forall x, In x done -> name_key x = name_key p ->
            habitat_len x < habitat_len p.
Proof.
  intros (b & a & -> & Hb & Ha) Ek Lt x Hx Ex.
  apply in_app_or in Hx. destruct Hx as [Hx|[<-|Hx]].
  - specialize (Hb x Hx (eq_trans Ex (eq_sym Ek))). lia.
  - exact Lt.
  - specialize (Ha x Hx (eq_trans Ex (eq_sym Ek))). lia.
Qed.

(** One turn of the loop of lines 225-232 keeps the dictionary merged. *)
Lemma merge_step_merged done d p d' :
  merged done d -> merge_step d p = Ok d' -> merged (done ++ [p]) d'.
Proof.
  intros (Hn & Hl & Hd) H. unfold merge_step in H.
  apply bind_Ok in H. destruct H as (sn & Es & H).
  apply pget_name in Es.
  replace (str_lower sn) with (name_key p) in H
    by (unfold name_key; now rewrite Es).
  destruct (Dict.lookup PyStr.eqb (name_key p) d) as [e|] eqn:El.
  - destruct (Hl _ _ El) as [Ke Fe].
    destruct (habitat_len e <? habitat_len p) eqn:Lt;
      inversion H; subst d'; clear H.
    + apply Nat.ltb_lt in Lt. split; [now apply NoDup_dset|]. split.
      * intros k q Hq.
        destruct (pystr_eqb_eq k (name_key p)) as [_ Dec].
        destruct (PyStr.eqb k (name_key p)) eqn:Ek.
        -- apply pystr_eqb_eq in Ek. subst k.
           rewrite lookup_dset_same in Hq. inversion Hq; subst q.
           split; [reflexivity|]. apply first_longest_new.
           apply (first_longest_beats done e p Fe); [now symmetry | exact Lt].
        -- apply pystr_eqb_neq in Ek.
           rewrite lookup_dset_other in Hq by exact Ek.
           destruct (Hl _ _ Hq) as [Kq Fq]. split; [exact Kq|].
           apply first_longest_snoc; [exact Fq|]. intros C. congruence.
      * intros x Hx. apply in_app_or in Hx.
        destruct (PyStr.eqb (name_key x) (name_key p)) eqn:Ex.
        -- apply pystr_eqb_eq in Ex. rewrite Ex, lookup_dset_same.
           discriminate.
        -- apply pystr_eqb_neq in Ex.
           rewrite lookup_dset_other by exact Ex.
           destruct Hx as [Hx|[<-|[]]]; [now apply Hd | congruence].
    + apply Nat.ltb_ge in Lt. split; [exact Hn|]. split.
      * intros k q Hq. destruct (Hl _ _ Hq) as [Kq Fq]. split; [exact Kq|].
        apply first_longest_snoc; [exact Fq|]. intros C.
        assert (q = e) by congruence. subst q. exact Lt.
      * intros x Hx. apply in_app_or in Hx.
        destruct Hx as [Hx|[<-|[]]]; [now apply Hd | congruence].
  - inversion H; subst d'; clear H. split; [now apply NoDup_dset|]. split.
    + intros k q Hq.
      destruct (PyStr.eqb k (name_key p)) eqn:Ek.
      * apply pystr_eqb_eq in Ek. subst k.
        rewrite lookup_dset_same in Hq. inversion Hq; subst q.
        split; [reflexivity|]. apply first_longest_new.
        intros x Hx Ex. exfalso. apply (Hd x Hx). now rewrite Ex.
      * apply pystr_eqb_neq in Ek.
        rewrite lookup_dset_other in Hq by exact Ek.
        destruct (Hl _ _ Hq) as [Kq Fq]. split; [exact Kq|].
        apply first_longest_snoc; [exact Fq|]. intros C. congruence.
    + intros x Hx. apply in_app_or in Hx.
      destruct (PyStr.eqb (name_key x) (name_key p)) eqn:Ex.
      * apply pystr_eqb_eq in Ex. rewrite Ex, lookup_dset_same.
        discriminate.
      * apply pystr_eqb_neq in Ex.
        rewrite lookup_dset_other by exact Ex.
        destruct Hx as [Hx|[<-|[]]]; [now apply Hd | congruence].
Qed.

Lemma foldM_merged rest : forall done d d',
  merged done d -> foldM merge_step d rest = Ok d' ->
  merged (done ++ rest) d'.
Proof.
  induction rest as [|p rest IH]; intros done d d' M H; simpl in H.
  - inversion H; subst. now rewrite app_nil_r.
  - apply bind_Ok in H. destruct H as (d1 & H1 & H).
    replace (done ++ p :: rest) with ((done ++ [p]) ++ rest)
      by (now rewrite <- app_assoc).
    eapply IH; [|exact H]. eapply merge_step_merged; eassumption.
Qed.

Lemma merged_empty : merged [] [].
Proof.
  split; [constructor|]. split; [discriminate | intros p []].
Qed.

Lemma merge_step_total d p :
  (exists sn, Dict.lookup String.eqb "scientific_name"%string p = Some sn) ->
  exists d', merge_step d p = Ok d'.
Proof.
  intros [sn E]. unfold merge_step, pget, Dict.get. rewrite E. cbn [bind].
  destruct (Dict.lookup PyStr.eqb (str_lower sn) d); [|eauto].
  destruct (_ <? _); eauto.
Qed.

Lemma cleaned_has_name p : cleaned p ->
  exists sn, Dict.lookup String.eqb "scientific_name"%string p = Some sn.
Proof. intros (sn & g & E & _). eauto. Qed.

Lemma foldM_merge_total ps : Forall cleaned ps ->
  forall d, exists d', foldM merge_step d ps = Ok d'.
Proof.
  induction 1 as [|p ps Hp _ IH]; intros d; simpl; [eauto|].
  destruct (merge_step_total d p (cleaned_has_name p Hp)) as [d1 ->].
  cbn [bind]. apply IH.
Qed.

(** What lines 224-234 return. *)
Lemma merge_spec ps : Forall cleaned ps ->
  exists out, merge ps = Ok out
    /\ NoDup (map name_key out)
    /\ (forall q, In q out -> first_longest ps q)
    /\ (forall p, In p ps -> exists q, In q out /\ name_key q = name_key p).
Proof.
  intros Hc. unfold merge.
  destruct (foldM_merge_total ps Hc []) as [d E]. rewrite E. cbn [bind].
  pose proof (foldM_merged ps [] [] d merged_empty E) as (Hn & Hl & Hd).
  simpl in Hl, Hd.
  assert (K : forall k q, In (k, q) d -> k = name_key q /\ first_longest ps q).
  { intros k q I. apply Hl. now apply In_lookup. }
  exists (Dict.values d). split; [reflexivity|]. split; [|split].
  - unfold Dict.values. rewrite map_map.
    replace (map (fun x => name_key (snd x)) d) with (map fst d); [exact Hn|].
    apply map_ext_in. intros [k q] I. simpl. now apply K.
  - intros q Hq. apply in_map_iff in Hq. destruct Hq as ([k q'] & <- & I).
    now apply (K k q').
  - intros p Hp. specialize (Hd p Hp).
    destruct (Dict.lookup PyStr.eqb (name_key p) d) as [q|] eqn:El;
      [|contradiction].
    exists q. split; [|symmetry; now apply Hl].
    apply in_map_iff. exists (name_key p, q). split; [reflexivity|].
    clear -El. induction d as [|[k v] d IH]; simpl in *; [discriminate|].
    destruct (PyStr.eqb (name_key p) k) eqn:E.
    + apply pystr_eqb_eq in E. inversion El; subst. now left.
    + right. now apply IH.
Qed.
End MergeLoop.

Section SortFacts.
Import PyStr.

Lemma ltb_lex a : forall b, ltb b a = false <-> lex_le a b.
Proof.
  induction a as [|x a IH]; intros [|y b]; simpl.
  - split; [constructor | reflexivity].
  - split; [constructor | reflexivity].
  - split; [discriminate | intros H; inversion H].
  - destruct (N.ltb_spec y x) as [L|L].
    + split; [discriminate|]. intros H. inversion H; subst; lia.
    + destruct (N.eqb_spec y x) as [->|Ne].
      * rewrite IH. split; [now constructor|].
        intros H. inversion H; subst; [lia | assumption].
      * split; [|reflexivity]. intros _. apply lex_le_lt. lia.
Qed.

Lemma ltb_asym a b : ltb a b = true -> ltb b a = false.
Proof.
  revert b. induction a as [|x a IH]; intros [|y b]; simpl; try easy.
  destruct (N.ltb_spec x y) as [L|L].
  - intros _. destruct (N.ltb_spec y x); [lia|].
    destruct (N.eqb_spec y x); [lia | reflexivity].
  - destruct (N.eqb_spec x y) as [->|Ne]; [|discriminate].
    rewrite N.ltb_irrefl, N.eqb_refl. apply IH.
Qed.

Lemma lex_le_trans a b c : lex_le a b -> lex_le b c -> lex_le a c.
Proof.
  intros H. revert c. induction H as [b|x y a b L|x a b H IH]; intros c Hc.
  - constructor.
  - inversion Hc; subst; [apply lex_le_lt; lia | now apply lex_le_lt].
  - inversion Hc; subst; [now apply lex_le_lt | apply lex_le_eq; auto].
Qed.

Lemma lex_le_refl a : lex_le a a.
Proof. induction a; constructor; assumption. Qed.

Lemma insert_by_key_perm x l : Permutation (insert_by_key x l) (x :: l).
Proof.
  induction l as [|y l IH]; simpl; [reflexivity|].
  destruct (ltb (fst y) (fst x)); [|reflexivity].
  rewrite IH. apply perm_swap.
Qed.

Lemma insert_by_key_sorted x l :
  Sorted key_le l -> Sorted key_le (insert_by_key x l).
Proof.
  induction 1 as [|y l Hs IH Hh]; simpl.
  - repeat constructor.
  - destruct (ltb (fst y) (fst x)) eqn:E.
    + constructor; [exact IH|].
      destruct l as [|z l]; simpl.
      * constructor. apply ltb_lex. now apply ltb_asym.
      * destruct (ltb (fst z) (fst x)).
        -- constructor. now inversion Hh.
        -- constructor. apply ltb_lex. now apply ltb_asym.
    + constructor; [now constructor|]. constructor. now apply ltb_lex.
Qed.

Lemma sort_pairs_sorted l : Sorted key_le (fold_right insert_by_key [] l).
Proof.
  induction l; simpl; [constructor | now apply insert_by_key_sorted].
Qed.

Lemma sort_pairs_perm l : Permutation (fold_right insert_by_key [] l) l.
Proof.
  induction l as [|x l IH]; simpl; [reflexivity|].
  rewrite insert_by_key_perm. now constructor.
Qed.

Lemma mapM_names ps :
  Forall (fun p => exists sn,
              Dict.lookup String.eqb "scientific_name"%string p = Some sn) ps ->
  mapM (pget "scientific_name") ps = Ok (map name_of ps).
Proof.
  induction 1 as [|p ps [sn E] _ IH]; simpl; [reflexivity|].
  unfold pget at 1, Dict.get. rewrite E. cbn [bind]. rewrite IH. cbn [bind].
  unfold name_of at 2, pget_or, Dict.get_or. now rewrite E.
Qed.

Lemma combine_names ps :
  combine (map name_of ps) ps = map (fun p => (name_of p, p)) ps.
Proof. induction ps; simpl; congruence. Qed.

(** What line 235 returns. *)
Lemma sort_plants_spec ps :
  Forall (fun p => exists sn,
              Dict.lookup String.eqb "scientific_name"%string p = Some sn) ps ->
  exists out, sort_plants ps = Ok out
              /\ Permutation out ps /\ StronglySorted name_le out.
Proof.
  intros H. unfold sort_plants. rewrite (mapM_names ps H). cbn [bind].
  rewrite combine_names.
  set (l := map (fun p => (name_of p, p)) ps).
  eexists. split; [reflexivity|]. split.
  - rewrite (sort_pairs_perm l). unfold l. rewrite map_map. simpl.
    now rewrite map_id.
  - assert (T : StronglySorted key_le (fold_right insert_by_key [] l)).
    { apply Sorted_StronglySorted; [|apply sort_pairs_sorted].
      intros a b c. apply lex_le_trans. }
    assert (F : Forall (fun kp => fst kp = name_of (snd kp))
                       (fold_right insert_by_key [] l)).
    { rewrite (sort_pairs_perm l). unfold l. apply Forall_forall.
      intros kp I. apply in_map_iff in I. destruct I as (p & <- & _).
      reflexivity. }
    induction T as [|kp r T IH Hh]; simpl; [constructor|].
    inversion F as [|? ? Fk Fr]; subst. constructor; [now apply IH|].
    apply Forall_forall. intros q Hq. apply in_map_iff in Hq.
    destruct Hq as (kq & <- & Iq).
    rewrite Forall_forall in Hh, Fr. specialize (Hh kq Iq).
    unfold key_le in Hh. unfold name_le. now rewrite <- Fk, <- (Fr kq Iq).
Qed.
End SortFacts.

Section LocateFacts.
Import PyStr.

Lemma startswith_spec p : forall s,
  startswith p s = true <-> exists post, s = p ++ post.
Proof.
  induction p as [|x p IH]; intros s; simpl.
  - split; [eauto | reflexivity].
  - destruct s as [|y s].
    + split; [discriminate | intros [post E]; discriminate].
    + rewrite andb_true_iff, N.eqb_eq, IH. split.
      * intros [-> [post ->]]. eauto.
      * intros [post E]. inversion E; subst. eauto.
Qed.

Lemma occurs_at_0 sub s : occurs_at sub s 0 <-> startswith sub s = true.
Proof.
  rewrite startswith_spec. split.
  - intros (pre & post & -> & L). destruct pre; [|discriminate].
    exists post. reflexivity.
  - intros [post ->]. exists [], post. auto.
Qed.

Lemma occurs_at_S sub c s i : occurs_at sub (c :: s) (S i) <-> occurs_at sub s i.
Proof.
  split.
  - intros (pre & post & E & L). destruct pre as [|x pre]; [discriminate|].
    inversion E; subst. exists pre, post. simpl in L. split; [reflexivity | lia].
  - intros (pre & post & -> & L). exists (c :: pre), post. simpl. auto.
Qed.

Lemma occurs_at_nil sub i : occurs_at sub [] (S i) -> False.
Proof. intros (pre & post & E & L). destruct pre; discriminate. Qed.

Lemma find0_Some sub : forall s k, find0 sub s = Some k ->
  occurs_at sub s k /\ forall j, j < k -> ~ occurs_at sub s j.
Proof.
  induction s as [|c s IH]; intros k; simpl.
  - destruct (startswith sub []) eqn:E; [|discriminate].
    intros H; inversion H; subst. split; [now apply occurs_at_0 | lia].
  - destruct (startswith sub (c :: s)) eqn:E.
    + intros H; inversion H; subst. split; [now apply occurs_at_0 | lia].
    + destruct (find0 sub s) as [k'|] eqn:F; [|discriminate].
      intros H; inversion H; subst. destruct (IH k' eq_refl) as [O N].
      split; [now apply occurs_at_S|].
      intros [|j] Hj C.
      * apply occurs_at_0 in C. congruence.
      * apply occurs_at_S in C. apply (N j); [lia | exact C].
Qed.

Lemma find0_None sub : forall s, find0 sub s = None ->
  forall j, ~ occurs_at sub s j.
Proof.
  induction s as [|c s IH]; simpl.
  - destruct (startswith sub []) eqn:E; [discriminate|].
    intros _ [|j] C; [apply occurs_at_0 in C; congruence|].
    now apply occurs_at_nil in C.
  - destruct (startswith sub (c :: s)) eqn:E; [discriminate|].
    destruct (find0 sub s) eqn:F; [discriminate|].
    intros _ [|j] C; [apply occurs_at_0 in C; congruence|].
    apply occurs_at_S in C. now apply (IH eq_refl j).
Qed.

Lemma occurs_at_skipn sub s from k : from <= length s ->
  occurs_at sub (skipn from s) k <-> occurs_at sub s (from + k).
Proof.
  revert s. induction from as [|from IH]; intros s L; [reflexivity|].
  destruct s as [|c s]; [simpl in L; lia|]. simpl skipn.
  rewrite (IH s) by (simpl in L; lia). simpl. symmetry. apply occurs_at_S.
Qed.

Lemma occurs_at_bound sub s i : occurs_at sub s i -> i <= length s.
Proof. intros (pre & post & -> & <-). rewrite length_app. lia. Qed.

(** [s.find(sub, from)] finds the first occurrence at or after [from],
    and answers [-1] exactly when there is none. *)
Lemma find_spec sub s from : from <= length s ->
  (exists i, find sub s (Z.of_nat from) = Z.of_nat i /\ first_from sub s from i)
  \/ (find sub s (Z.of_nat from) = (-1)%Z /\ absent_from sub s from).
Proof.
  intros L. unfold find.
  destruct (Z.ltb_spec (Z.of_nat (length s)) (Z.of_nat from)); [lia|].
  rewrite Nat2Z.id.
  destruct (find0 sub (skipn from s)) as [k|] eqn:F.
  - left. exists (from + k). split; [lia|].
    apply find0_Some in F. destruct F as [O N]. split; [lia|]. split.
    + now apply occurs_at_skipn.
    + intros j Hj C. apply (N (j - from)); [lia|].
      apply occurs_at_skipn; [exact L|].
      now replace (from + (j - from)) with j by lia.
  - right. split; [reflexivity|]. intros j Hj C.
    apply (find0_None sub _ F (j - from)).
    apply occurs_at_skipn; [exact L|].
    now replace (from + (j - from)) with j by lia.
Qed.

Lemma slice_nat s a b : a <= b <= length s ->
  slice s (Z.of_nat a) (Z.of_nat b) = firstn (b - a) (skipn a s).
Proof.
  intros H. unfold slice, clamp.
  destruct (Z.ltb_spec (Z.of_nat a) 0); [lia|].
  destruct (Z.ltb_spec (Z.of_nat b) 0); [lia|].
  rewrite !Z.min_l by lia. now rewrite !Nat2Z.id.
Qed.

(** C5. The section is the text of the document from the start boundary
    (the first page marker; without one, the first section header;
    without either, offset 0) up to the end boundary (the first
    "Glossary" at or after the start; without one, the end of the
    document), and it is computed by operations none of which can
    raise. *)
Theorem locate_section_bounds content :
  exists st en,
    section_start content st /\ section_end content st en
    /\ st <= en <= length content
    /\ locate_section content = firstn (en - st) (skipn st content).
Proof.
  unfold locate_section.
  change (lit "Page | 98") with page_marker.
  change (lit "Ferns" ++ [NL] ++ lit "Ferns add texture") with section_header.
  change (lit "Glossary") with end_token.
  assert (S : exists st,
    section_start content st /\ st <= length content /\
    (if (find page_marker content 0 =? -1)%Z
     then
       if (find section_header content 0 =? -1)%Z
       then 0%Z
       else find section_header content 0
     else find page_marker content 0) = Z.of_nat st).
  { destruct (find_spec page_marker content 0) as [(i & E & F)|[E A]]; [lia| |];
      change (Z.of_nat 0) with 0%Z in E; rewrite E.
    - exists i. destruct (Z.eqb_spec (Z.of_nat i) (-1)); [lia|].
      split; [now left|]. split; [|reflexivity].
      apply (occurs_at_bound page_marker). apply F.
    - rewrite Z.eqb_refl.
      destruct (find_spec section_header content 0) as [(i & E' & F)|[E' A']];
        [lia| |]; change (Z.of_nat 0) with 0%Z in E'; rewrite E'.
      + exists i. destruct (Z.eqb_spec (Z.of_nat i) (-1)); [lia|].
        split; [right; left; now split|]. split; [|reflexivity].
        apply (occurs_at_bound section_header). apply F.
      + exists 0. rewrite Z.eqb_refl.
        split; [right; right; auto|]. split; [lia | reflexivity]. }
  destruct S as (st & Hs & Ls & ->).
  destruct (find_spec end_token content st Ls) as [(en & E & F)|[E A]];
    rewrite E.
  - exists st, en. destruct (Z.eqb_spec (Z.of_nat en) (-1)); [lia|].
    assert (en <= length content)
      by (apply (occurs_at_bound end_token); apply F).
    destruct F as [Le F]. split; [exact Hs|]. split; [left; now split|].
    split; [lia|]. apply slice_nat. lia.
  - exists st, (length content). rewrite Z.eqb_refl.
    split; [exact Hs|]. split; [right; now split|]. split; [lia|].
    apply slice_nat. lia.
Qed.
End LocateFacts.

Section PipelineFacts.
Context {U : UnicodeDB} {S : PySet}.
Import PyStr.

(** The scan appends the records of the entries that are the first
    with their key, in the order of their lines. *)
Lemma scan_loop_entries lines : forall rest pre fuel seen seenl plants,
  lines = pre ++ rest ->
  length rest < fuel ->
  (forall k, set_mem k seen = mem k seenl) ->
  exists out,
    mapM (harvest_entry lines) (first_seen seenl (entries_from (length pre) rest))
    = Ok out
    /\ scan_loop fuel lines (length pre) seen plants = Ok (plants ++ out).
Proof.
  induction rest as [|l rest IH]; intros pre fuel seen seenl plants E F M;
    (destruct fuel as [|fuel]; [simpl in F; lia|]); simpl.
  - exists []. split; [reflexivity|].
    assert (length lines = length pre) by (subst; now rewrite app_nil_r).
    replace (length pre <? length lines) with false
      by (symmetry; apply Nat.ltb_ge; lia).
    now rewrite app_nil_r.
  - assert (L : length pre < length lines).
    { subst. rewrite length_app. simpl. lia. }
    replace (length pre <? length lines) with true
      by (symmetry; now apply Nat.ltb_lt).
    assert (I : index lines (length pre) = Ok l).
    { unfold index. subst lines. rewrite nth_error_app2 by lia.
      now rewrite Nat.sub_diag. }
    rewrite I. cbn [bind].
    assert (E' : lines = (pre ++ [l]) ++ rest)
      by (subst; now rewrite <- app_assoc).
    assert (Lp : length (pre ++ [l]) = length pre + 1)
      by (rewrite length_app; reflexivity).
    destruct (candidate_total (strip l)) as (c & Ec & _). rewrite Ec.
    cbn [bind]. destruct c as [[sci com]|]; cbn [first_seen].
    + rewrite <- M. destruct (set_mem (str_lower sci) seen) eqn:Em; simpl negb;
        cbv iota.
      * rewrite <- Lp. apply (IH (pre ++ [l])); [exact E' | simpl in F; lia | exact M].
      * cbn [mapM].
        change (harvest_entry lines (length pre, sci, com))
          with (harvest lines (length pre) (new_plant sci com)).
        destruct (harvest_total lines (length pre) (new_plant sci com))
          as (p & -> & _). cbn [bind].
        destruct (IH (pre ++ [l]) fuel (set_add (str_lower sci) seen)
                     (str_lower sci :: seenl) (plants ++ [p]) E')
          as (out & Eo & Es); [simpl in F; lia | |].
        { intros k. rewrite set_mem_add. simpl. now rewrite M. }
        rewrite Lp in Eo, Es. rewrite Eo, Es. cbn [bind].
        exists (p :: out). split; [reflexivity|]. now rewrite <- app_assoc.
    + rewrite <- Lp. apply (IH (pre ++ [l])); [exact E' | simpl in F; lia | exact M].
Qed.

Lemma parse_plants_entries content :
  exists ps,
    mapM (harvest_entry (split [NL] (locate_section content)))
         (first_seen [] (entries (split [NL] (locate_section content))))
    = Ok ps
    /\ parse_plants content = Ok ps.
Proof.
  unfold parse_plants, entries.
  set (lines := split [NL] (locate_section content)).
  destruct (scan_loop_entries lines lines [] (Datatypes.S (length lines))
              set_empty [] [] eq_refl) as (out & E1 & E2);
    [lia | intros k; apply set_mem_empty |].
  exists out. split; [exact E1 | exact E2].
Qed.

(** The whole run, step by step. *)
Lemma extract_pipeline content :
  exists ps cs ms out,
    parse_plants content = Ok ps /\ Forall parsed ps
    /\ mapM clean_plant ps = Ok cs /\ Forall cleaned cs
    /\ merge cs = Ok ms
    /\ NoDup (map name_key ms)
    /\ (forall q, In q ms -> first_longest cs q)
    /\ (forall p, In p cs -> exists q, In q ms /\ name_key q = name_key p)
    /\ sort_plants ms = Ok out
    /\ Permutation out ms /\ StronglySorted name_le out
    /\ Forall cleaned out
    /\ extract content = Ok out.
Proof.
  destruct (parse_plants_total content) as (ps & Ep & Fp).
  destruct (mapM_clean_total ps Fp) as (cs & Ec & Fc & _).
  destruct (merge_spec cs Fc) as (ms & Em & Nm & Lm & Cm).
  assert (Fm : Forall cleaned ms).
  { apply Forall_forall. intros q Hq. destruct (Lm q Hq) as (b & a & E & _).
    rewrite Forall_forall in Fc. apply Fc. rewrite E.
    apply in_or_app. right. now left. }
  destruct (sort_plants_spec ms) as (out & Es & Po & So).
  { eapply Forall_impl; [|exact Fm]. apply cleaned_has_name. }
  exists ps, cs, ms, out. repeat (split; [assumption|]).
  split.
  - apply Forall_forall. intros q Hq. rewrite Forall_forall in Fm.
    apply Fm. eapply Permutation_in; eassumption.
  - unfold extract. rewrite Ep. cbn [bind]. rewrite Ec. cbn [bind].
    rewrite Em. cbn [bind]. exact Es.
Qed.
End PipelineFacts.

Section CutFacts.
Context {U : UnicodeDB}.
Import PyStr.

Lemma index_app_l {A} (pre rest : list A) k : k < length pre ->
  index (pre ++ rest) k = index pre k.
Proof. intros H. unfold index. now rewrite nth_error_app1. Qed.

Lemma index_app_here {A} (pre : list A) b rest :
  index (pre ++ b :: rest) (length pre) = Ok b.
Proof.
  unfold index. rewrite nth_error_app2 by lia. now rewrite Nat.sub_diag.
Qed.

(** The continuation of a [Form/Color:] field does not go past a line
    of the shape of an entry. *)
Lemma form_color_loop_cut pre b rest j :
  matches shape_re (strip b) = true ->
  forall fuel k form_text, k <= length pre ->
    form_color_loop fuel (pre ++ b :: rest) j k form_text
    = form_color_loop fuel pre j k form_text.
Proof.
  intros Hb. induction fuel as [|fuel IH]; intros k ft Hk; [reflexivity|].
  simpl. rewrite length_app. simpl length.
  destruct (Nat.eq_dec k (length pre)) as [->|Ne].
  - replace (length pre <? Nat.min (j + 4) (length pre)) with false
      by (symmetry; apply Nat.ltb_ge; lia).
    destruct (length pre <? _); [|reflexivity].
    rewrite index_app_here. cbn [bind]. rewrite Hb.
    now destruct (negb (is_empty (strip b)) && _).
  - replace (k <? Nat.min (j + 4) (length pre + Datatypes.S (length rest)))
      with (k <? Nat.min (j + 4) (length pre)).
    2:{ destruct (Nat.ltb_spec k (Nat.min (j + 4) (length pre)));
        symmetry; [apply Nat.ltb_lt | apply Nat.ltb_ge]; lia. }
    destruct (k <? Nat.min (j + 4) (length pre)); [|reflexivity].
    rewrite index_app_l by lia.
    destruct (index pre k) as [l| |]; cbn [bind]; try reflexivity.
    destruct (negb (is_empty (strip l)) && _); [|reflexivity].
    destruct (matches shape_re (strip l)); [reflexivity|].
    apply IH. lia.
Qed.

Lemma harvest_line_cut pre b rest j next_line p :
  matches shape_re (strip b) = true -> j < length pre ->
  harvest_line (pre ++ b :: rest) j next_line p
  = harvest_line pre j next_line p.
Proof.
  intros Hb Hj. unfold harvest_line.
  destruct (startswith (lit "Habitat:") next_line); [reflexivity|].
  destruct (contains (lit "Exposure:") next_line); [reflexivity|].
  destruct (contains (lit "Form/Color:") next_line); [|reflexivity].
  destruct (index_last (split (lit "Form/Color:") next_line)) as [f| |];
    cbn [bind]; try reflexivity.
  rewrite (form_color_loop_cut pre b rest j Hb) by lia. reflexivity.
Qed.

Lemma harvest_line_none lines j next_line p :
  sets_field next_line = false -> harvest_line lines j next_line p = Ok p.
Proof.
  unfold sets_field, harvest_line. intros H.
  repeat (apply orb_false_iff in H; destruct H as [H ?]).
  repeat match goal with E : _ = false |- _ => rewrite E; clear E end.
  reflexivity.
Qed.

Lemma harvest_loop_cut pre b rest i :
  i + 3 < length pre ->
  matches shape_re (strip b) = true ->
  sets_field (strip b) = false ->
  forall fuel j p, j <= length pre ->
    harvest_loop fuel (pre ++ b :: rest) i j p = harvest_loop fuel pre i j p.
Proof.
  intros Hi Hb Hn. induction fuel as [|fuel IH]; intros j p Hj; [reflexivity|].
  simpl. rewrite length_app. simpl length.
  destruct (Nat.eq_dec j (length pre)) as [->|Ne].
  - replace (length pre <? Nat.min (i + 60) (length pre)) with false
      by (symmetry; apply Nat.ltb_ge; lia).
    destruct (length pre <? _); [|reflexivity].
    rewrite index_app_here. cbn [bind].
    rewrite (harvest_line_none _ _ _ _ Hn). cbn [bind]. rewrite Hb.
    replace (i + 3 <? length pre) with true
      by (symmetry; now apply Nat.ltb_lt).
    reflexivity.
  - replace (j <? Nat.min (i + 60) (length pre + Datatypes.S (length rest)))
      with (j <? Nat.min (i + 60) (length pre)).
    2:{ destruct (Nat.ltb_spec j (Nat.min (i + 60) (length pre)));
        symmetry; [apply Nat.ltb_lt | apply Nat.ltb_ge]; lia. }
    destruct (j <? Nat.min (i + 60) (length pre)); [|reflexivity].
    rewrite index_app_l by lia.
    destruct (index pre j) as [l| |]; cbn [bind]; try reflexivity.
    rewrite (harvest_line_cut pre b rest j (strip l) p Hb) by lia.
    destruct (harvest_line pre j (strip l) p) as [p1| |]; cbn [bind];
      try reflexivity.
    destruct ((i + 3 <? j) && matches shape_re (strip l)); [reflexivity|].
    apply IH. lia.
Qed.
End CutFacts.

Section SetFacts.
Context {U : UnicodeDB}.

(** The scan depends on the set of seen keys through membership only. *)
Lemma scan_loop_any_set (S1 S2 : PySet) lines :
  forall fuel i (seen1 : @set_t S1) (seen2 : @set_t S2) plants,
    (forall k, set_mem k seen1 = set_mem k seen2) ->
    scan_loop fuel lines i seen1 plants = scan_loop fuel lines i seen2 plants.
Proof.
  induction fuel as [|fuel IH]; intros i seen1 seen2 plants M; [reflexivity|].
  simpl. destruct (i <? length lines); [|reflexivity].
  destruct (index lines i) as [l| |]; cbn [bind]; try reflexivity.
  destruct (candidate (PyStr.strip l)) as [c| |]; cbn [bind]; try reflexivity.
  destruct c as [[sci com]|]; [|now apply IH].
  rewrite (M (str_lower sci)).
  destruct (set_mem (str_lower sci) seen2); simpl negb; cbv iota;
    [now apply IH|].
  destruct (harvest lines i (new_plant sci com)) as [p| |]; cbn [bind];
    try reflexivity.
  apply IH. intros k. rewrite !set_mem_add. now rewrite M.
Qed.
End SetFacts.

Section FirstSeenFacts.
Context {U : UnicodeDB}.
Import PyStr.

(** The entries come in the order of their lines. *)
Lemma entries_from_lines rest : forall i,
  Forall (fun e => i <= entry_line e) (entries_from i rest)
  /\ StronglySorted (fun a b => entry_line a < entry_line b)
                    (entries_from i rest).
Proof.
  induction rest as [|l rest IH]; intros i; cbn [entries_from].
  - split; constructor.
  - destruct (IH (i + 1)) as (F & S).
    assert (F' : Forall (fun e => i <= entry_line e)
                        (entries_from (i + 1) rest)).
    { eapply Forall_impl; [|exact F]. intros e He. cbv beta in He. lia. }
    destruct (candidate (strip l)) as [[[sci com]|]| |];
      try (split; assumption).
    split.
    + constructor; [unfold entry_line; cbn [fst]; lia | exact F'].
    + constructor; [exact S|].
      eapply Forall_impl; [|exact F]. intros e He.
      unfold entry_line in *. cbn [fst] in *. lia.
Qed.

Lemma first_seen_In es : forall seen e,
  In e (first_seen seen es) -> In e es.
Proof.
  induction es as [|[[i sci] com] es IH]; intros seen e H; [exact H|].
  cbn [first_seen] in H. destruct (mem (str_lower sci) seen).
  - right. eapply IH; eassumption.
  - destruct H as [H|H]; [now left | right; eapply IH; eassumption].
Qed.

Lemma first_seen_sorted es :
  StronglySorted (fun a b => entry_line a < entry_line b) es ->
  forall seen,
    StronglySorted (fun a b => entry_line a < entry_line b)
                   (first_seen seen es).
Proof.
  induction es as [|[[i sci] com] es IH]; intros S seen; [constructor|].
  apply StronglySorted_inv in S. destruct S as [S F].
  cbn [first_seen]. destruct (mem (str_lower sci) seen); [now apply IH|].
  constructor; [now apply IH|].
  apply Forall_forall. intros e He. rewrite Forall_forall in F.
  apply F. eapply first_seen_In; eassumption.
Qed.

(** No key is recorded twice, and none that was seen before. *)
Lemma first_seen_keys es : forall seen,
  NoDup (map entry_key (first_seen seen es))
  /\ (forall e, In e (first_seen seen es) -> mem (entry_key e) seen = false).
Proof.
  induction es as [|[[i sci] com] es IH]; intros seen.
  - split; [constructor | intros e []].
  - cbn [first_seen]. destruct (mem (str_lower sci) seen) eqn:Em;
      [apply IH|].
    destruct (IH (str_lower sci :: seen)) as (N & M). split.
    + cbn [map]. constructor; [|exact N].
      intros H. apply in_map_iff in H. destruct H as (e & Ek & He).
      specialize (M e He). unfold mem in M. cbn [existsb] in M.
      apply orb_false_iff in M. destruct M as [M _].
      rewrite Ek in M. unfold entry_key in M. cbn [fst snd] in M.
      now rewrite pystr_eqb_refl in M.
    + intros e [<-|He]; [exact Em|].
      specialize (M e He). unfold mem in M. cbn [existsb] in M.
      apply orb_false_iff in M. now destruct M.
Qed.

(** An entry is kept exactly when its key was not seen before and no
    entry above it has that key. *)
Lemma first_seen_first es :
  StronglySorted (fun a b => entry_line a < entry_line b) es ->
  forall seen e,
    In e (first_seen seen es)
    <-> (first_of_key es e /\ mem (entry_key e) seen = false).
Proof.
  unfold first_of_key.
  induction es as [|[[i sci] com] es IH]; intros S seen e.
  - cbn [first_seen]. split; [intros [] | intros [[[] _] _]].
  - apply StronglySorted_inv in S. destruct S as [S F].
    rewrite Forall_forall in F. cbn [first_seen].
    destruct (mem (str_lower sci) seen) eqn:Em.
    + rewrite (IH S). split.
      * intros [[He Hm] Hs]. split; [split|exact Hs]; [now right|].
        intros e' [<-|He'] Ek; [|now apply Hm].
        unfold entry_key in Ek at 1. cbn [fst snd] in Ek.
        rewrite Ek in Em. congruence.
      * intros [[[<-|He] Hm] Hs].
        { unfold entry_key in Hs. cbn [fst snd] in Hs. congruence. }
        split; [split; [exact He|]|exact Hs].
        intros e' He'. apply Hm. now right.
    + split.
      * intros [<-|He].
        { split; [split; [now left|]|exact Em].
          intros e' [<-|He'] _; [lia|].
          specialize (F e' He'). lia. }
        apply (IH S) in He. destruct He as [[He Hm] Hs].
        unfold mem in Hs. cbn [existsb] in Hs.
        apply orb_false_iff in Hs. destruct Hs as [Hk Hs].
        split; [split; [now right|]|exact Hs].
        intros e' [<-|He'] Ek; [|now apply Hm].
        unfold entry_key in Ek at 1. cbn [fst snd] in Ek.
        rewrite Ek in Hk. now rewrite pystr_eqb_refl in Hk.
      * intros [[[<-|He] Hm] Hs]; [now left|]. right.
        apply (IH S). split; [split; [exact He|]|].
        { intros e' He'. apply Hm. now right. }
        unfold mem in *. cbn [existsb]. rewrite Hs. rewrite orb_false_r.
        destruct (eqb (entry_key e) (str_lower sci)) eqn:Ek; [|reflexivity].
        apply pystr_eqb_eq in Ek.
        specialize (Hm (i, sci, com) (or_introl eq_refl)).
        specialize (F e He).
        assert (entry_line e <= entry_line (i, sci, com))
          by (apply Hm; now rewrite Ek).
        lia.
Qed.
End FirstSeenFacts.

(* ================================================================= *)
(** * The properties of the specification *)

Section Properties.
Context {U : UnicodeDB} {S : PySet}.
Import PyStr.

(** C6. For every document the extraction core (parsing, clean-up,
    categorization, merge and sort) raises no exception and ends within
    the budget of its loops with a list of records; for the empty
    document the list is empty. *)
Theorem extract_total :
  (forall content, exists out, extract content = Ok out)
  /\ extract [] = Ok [].
Proof.
  split; [|reflexivity].
  intros content.
  destruct (extract_pipeline content)
    as (ps & cs & ms & out & _ & _ & _ & _ & _ & _ & _ & _ & _ & _ & _ & _ & E).
  exists out. exact E.
Qed.

(** C3. For every document, no two records of the final output have
    scientific names that are equal after lower-casing. *)
Theorem output_names_unique content :
  exists out,
    extract content = Ok out
    /\ Forall (fun p => exists a, pget "scientific_name" p = Ok a) out
    /\ forall i j p q a b,
         nth_error out i = Some p -> nth_error out j = Some q ->
         pget "scientific_name" p = Ok a ->
         pget "scientific_name" q = Ok b ->
         str_lower a = str_lower b -> i = j.
Proof.
  destruct (extract_pipeline content)
    as (ps & cs & ms & out & _ & _ & _ & _ & _ & Nm & _ & _ & _ & Po & _ & Fo & E).
  exists out. split; [exact E|]. split.
  - eapply Forall_impl; [|exact Fo].
    intros p (sn & g & El & _). exists sn. unfold pget, Dict.get. now rewrite El.
  - intros i j p q a b Hi Hj Ha Hb Eab.
    assert (N : NoDup (map name_key out)).
    { eapply Permutation_NoDup; [|exact Nm].
      apply Permutation_map. now apply Permutation_sym. }
    rewrite NoDup_nth_error in N. apply N.
    + rewrite length_map. apply nth_error_Some. now rewrite Hi.
    + rewrite !nth_error_map, Hi, Hj. simpl. unfold name_key.
      now rewrite (pget_name p a Ha), (pget_name q b Hb), Eab.
Qed.

(** C4. For every document, the final output is in non-decreasing
    order of the stored scientific names, compared as strings of code
    points. *)
Theorem output_sorted_by_name content :
  exists out,
    extract content = Ok out
    /\ Forall (fun p => pget "scientific_name" p = Ok (name_of p)) out
    /\ StronglySorted name_le out.
Proof.
  destruct (extract_pipeline content)
    as (ps & cs & ms & out & _ & _ & _ & _ & _ & _ & _ & _ & _ & _ & So & Fo & E).
  exists out. split; [exact E|]. split; [|exact So].
  eapply Forall_impl; [|exact Fo].
  intros p (sn & g & El & _).
  unfold pget, Dict.get, name_of, pget_or, Dict.get_or. now rewrite El.
Qed.

(** C10. Every record of the output has the key [soil_moisture], and
    its value is the empty string. *)
Theorem soil_moisture_empty content :
  exists out,
    extract content = Ok out
    /\ Forall (fun p => pget "soil_moisture" p = Ok []) out.
Proof.
  destruct (extract_pipeline content)
    as (ps & cs & ms & out & _ & _ & _ & _ & _ & _ & _ & _ & _ & _ & _ & Fo & E).
  exists out. split; [exact E|].
  eapply Forall_impl; [|exact Fo].
  intros p (sn & g & _ & _ & _ & _ & Em). unfold pget, Dict.get. now rewrite Em.
Qed.

(** C7. The category depends on the name through its first token, the
    genus, only; it is one of the six labels; it is [Forb] for a genus
    that is in none of the five sets; and every record of the output
    carries the category of the genus of its name. *)
Theorem category_coverage :
  (forall name genus,
      index (split_ws name) 0 = Ok genus ->
      categorize_plant name = Ok (category_of_genus genus))
  /\ (forall genus, In (category_of_genus genus) category_labels)
  /\ (forall genus,
         (forall label set, In (label, set) genus_table -> ~ In genus set) ->
         category_of_genus genus = lit "Forb")
  /\ (forall content, exists out,
         extract content = Ok out
         /\ Forall (fun p => exists name genus,
                        pget "scientific_name" p = Ok name
                        /\ index (split_ws name) 0 = Ok genus
                        /\ pget "category" p = Ok (category_of_genus genus))
                   out).
Proof.
  split; [|split; [|split]].
  - intros name genus E. unfold categorize_plant. now rewrite E.
  - intros genus. unfold category_of_genus.
    repeat match goal with |- context [if ?b then _ else _] => destruct b end;
      cbv; tauto.
  - intros genus H. unfold category_of_genus.
    repeat match goal with
           | |- context [if mem genus ?l then _ else _] =>
               let E := fresh "E" in
               destruct (mem genus l) eqn:E;
               [apply pystr_mem_In in E; exfalso;
                refine (H _ l _ E); simpl; tauto|]
           end.
    reflexivity.
  - intros content.
    destruct (extract_pipeline content)
      as (ps & cs & ms & out & _ & _ & _ & _ & _ & _ & _ & _ & _ & _ & _ & Fo & E).
    exists out. split; [exact E|].
    eapply Forall_impl; [|exact Fo].
    intros p (sn & g & En & _ & Eg & Ec & _). exists sn, g.
    unfold pget, Dict.get. rewrite En, Ec. auto.
Qed.

(** C1, as the code has it. Extraction makes a record for exactly the
    entries [es] that are the first, in line order, with their
    lower-cased name as extracted: an entry below another of the same
    extracted name makes no record, whatever its habitat, and no two
    records come from the same key. The records [ps] are made in the
    order of the lines. After the clean-up of the names, giving [cs],
    the output holds, for each lower-cased cleaned name, the first
    record of greatest habitat length among the records [cs] of that
    name, and every name of [cs] has a record in the output. *)
Theorem first_seen_then_longest content :
  exists es ps cs out,
    es = first_seen [] (entries (split [NL] (locate_section content)))
    /\ (forall e, In e es
                  <-> first_of_key
                        (entries (split [NL] (locate_section content))) e)
    /\ StronglySorted (fun a b => entry_line a < entry_line b) es
    /\ NoDup (map entry_key es)
    /\ mapM (harvest_entry (split [NL] (locate_section content))) es = Ok ps
    /\ parse_plants content = Ok ps
    /\ mapM clean_plant ps = Ok cs
    /\ extract content = Ok out
    /\ (forall q, In q out -> first_longest cs q)
    /\ (forall p, In p cs -> exists q, In q out /\ name_key q = name_key p).
Proof.
  destruct (extract_pipeline content)
    as (ps & cs & ms & out & Ep & _ & Ec & _ & _ & _ & Lm & Cm & _ & Po & _ & _ & E).
  destruct (parse_plants_entries content) as (ps' & E1 & E2).
  assert (ps' = ps) by congruence. subst ps'.
  set (lines := split [NL] (locate_section content)) in *.
  assert (Se : StronglySorted (fun a b => entry_line a < entry_line b)
                              (entries lines))
    by apply entries_from_lines.
  exists (first_seen [] (entries lines)), ps, cs, out.
  split; [reflexivity|]. split.
  { intros e. rewrite (first_seen_first _ Se). split; [tauto|].
    intros H. split; [exact H | reflexivity]. }
  split; [now apply first_seen_sorted|].
  split; [apply first_seen_keys|].
  repeat (split; [assumption|]). split.
  - intros q Hq. apply Lm. eapply Permutation_in; eassumption.
  - intros p Hp. destruct (Cm p Hp) as (q & Hq & Ek). exists q.
    split; [|exact Ek]. eapply Permutation_in; [|exact Hq].
    now apply Permutation_sym.
Qed.
End Properties.

(** C9. Two runs on the same document give the same list of records:
    the result does not depend on how the set of seen keys is laid out,
    which is all that may differ from one run to the next. *)
Theorem extract_any_set {U : UnicodeDB} (S1 S2 : PySet) content :
  @extract U S1 content = @extract U S2 content.
Proof.
  unfold extract, parse_plants.
  rewrite (scan_loop_any_set S1 S2 _ _ 0 set_empty set_empty []); [reflexivity|].
  intros k. now rewrite !set_mem_empty.
Qed.

Lemma disjointb_sound a b :
  disjointb a b = true -> forall g, ~ (In g a /\ In g b).
Proof.
  unfold disjointb. rewrite forallb_forall. intros H g [Ha Hb].
  specialize (H g Ha). apply pystr_mem_In in Hb. rewrite Hb in H.
  discriminate.
Qed.

(** C8. The five genus sets are pairwise disjoint: no genus is in two of
    them. *)
Theorem genus_sets_disjoint :
  ForallOrdPairs (fun x y => forall genus, ~ (In genus (snd x) /\ In genus (snd y)))
                 genus_table.
Proof.
  unfold genus_table.
  repeat (constructor; [repeat (constructor; [apply disjointb_sound; vm_compute; reflexivity|]); constructor|]).
  constructor.
Qed.

Section BlankFacts.
Context {U : UnicodeDB}.
Import PyStr.

Lemma blanked_split lines : forall j b,
  index lines j = Ok b ->
  lines = firstn j lines ++ b :: skipn (Datatypes.S j) lines
  /\ blanked j lines = firstn j lines ++ [] :: skipn (Datatypes.S j) lines
  /\ length (firstn j lines) = j.
Proof.
  induction lines as [|l lines IH]; intros [|j] b E; try discriminate.
  - inversion E. subst. repeat split; reflexivity.
  - destruct (IH j b E) as (E1 & E2 & E3).
    cbn [firstn skipn blanked app length].
    repeat split; [f_equal; exact E1 | f_equal; exact E2 | f_equal; exact E3].
Qed.

Lemma index_app_other {A} (pre rest : list A) x y k :
  k <> length pre ->
  index (pre ++ x :: rest) k = index (pre ++ y :: rest) k.
Proof.
  intros Ne. unfold index.
  destruct (Nat.lt_ge_cases k (length pre)) as [Lt|Ge].
  - now rewrite !nth_error_app1.
  - rewrite !nth_error_app2 by lia.
    destruct (k - length pre) eqn:Ek; [lia | reflexivity].
Qed.

(** The continuation of a [Form/Color:] field ends at a line of the
    stop pattern as it does at an empty line. *)
Lemma form_color_loop_blank pre b rest j :
  matches shape_re (strip b) = true ->
  forall fuel k form_text,
    form_color_loop fuel (pre ++ b :: rest) j k form_text
    = form_color_loop fuel (pre ++ ([] : pystr) :: rest) j k form_text.
Proof.
  intros Hb. induction fuel as [|fuel IH]; intros k ft; [reflexivity|].
  cbn [form_color_loop]. rewrite !length_app. cbn [length].
  destruct (k <? Nat.min (j + 4) (length pre + Datatypes.S (length rest)));
    [|reflexivity].
  destruct (Nat.eq_dec k (length pre)) as [->|Ne].
  - rewrite !index_app_here. cbn [bind]. rewrite Hb.
    now destruct (negb (is_empty (strip b)) && _).
  - rewrite (index_app_other pre rest b ([] : pystr) k Ne).
    destruct (index (pre ++ ([] : pystr) :: rest) k) as [l| |]; cbn [bind];
      try reflexivity.
    destruct (negb (is_empty (strip l)) && _); [|reflexivity].
    destruct (matches shape_re (strip l)); [reflexivity|].
    apply IH.
Qed.

Lemma harvest_line_blank pre b rest j next_line p :
  matches shape_re (strip b) = true ->
  harvest_line (pre ++ b :: rest) j next_line p
  = harvest_line (pre ++ ([] : pystr) :: rest) j next_line p.
Proof.
  intros Hb. unfold harvest_line.
  destruct (startswith (lit "Habitat:") next_line); [reflexivity|].
  destruct (contains (lit "Exposure:") next_line); [reflexivity|].
  destruct (contains (lit "Form/Color:") next_line); [|reflexivity].
  destruct (index_last (split (lit "Form/Color:") next_line)) as [f| |];
    cbn [bind]; try reflexivity.
  now rewrite (form_color_loop_blank pre b rest j Hb).
Qed.

(** Within 3 lines of the entry a line of the stop pattern that sets no
    field is passed over as an empty line is. *)
Lemma harvest_loop_blank pre b rest i :
  length pre <= i + 3 ->
  matches shape_re (strip b) = true ->
  sets_field (strip b) = false ->
  forall fuel j p,
    harvest_loop fuel (pre ++ b :: rest) i j p
    = harvest_loop fuel (pre ++ ([] : pystr) :: rest) i j p.
Proof.
  intros Hi Hb Hn. induction fuel as [|fuel IH]; intros j p; [reflexivity|].
  cbn [harvest_loop]. rewrite !length_app. cbn [length].
  destruct (j <? Nat.min (i + 60) (length pre + Datatypes.S (length rest)));
    [|reflexivity].
  destruct (Nat.eq_dec j (length pre)) as [->|Ne].
  - rewrite !index_app_here. cbn [bind].
    rewrite !harvest_line_none by (try exact Hn; reflexivity). cbn [bind].
    replace (i + 3 <? length pre) with false
      by (symmetry; apply Nat.ltb_ge; lia).
    cbn [andb]. replace (matches shape_re (strip [])) with false
      by (vm_compute; reflexivity).
    apply IH.
  - rewrite (index_app_other pre rest b ([] : pystr) j Ne).
    destruct (index (pre ++ ([] : pystr) :: rest) j) as [l| |]; cbn [bind];
      try reflexivity.
    rewrite (harvest_line_blank pre b rest j (strip l) p Hb).
    destruct (harvest_line (pre ++ ([] : pystr) :: rest) j (strip l) p) as [p1| |];
      cbn [bind]; try reflexivity.
    destruct ((i + 3 <? j) && matches shape_re (strip l)); [reflexivity|].
    apply IH.
Qed.
End BlankFacts.

(** C2, as the code has it. Let line [j], below the entry at line [i],
    match the pattern of line 139 (a letter of A-Z, letters of a-z, white
    space, letters of a-z, white space, a letter of A-Z) and set no field
    itself. If it comes more than 3 lines after the entry, the lookahead
    for [i] ends there: the record is the one harvested from the section
    cut before line [j], so it holds nothing of that line or of the lines
    after it. If it comes 1, 2 or 3 lines after the entry, the lookahead
    does not end there: the record is the one harvested from the section
    in which line [j] is empty, the lines after it being read as
    before. *)
Theorem harvest_stops_at_later_entry {U : UnicodeDB}
        (lines : list pystr) (i j : nat) (b : pystr) (p : plant) :
  i < j ->
  index lines j = Ok b ->
  matches shape_re (PyStr.strip b) = true ->
  sets_field (PyStr.strip b) = false ->
  (i + 3 < j -> harvest lines i p = harvest (firstn j lines) i p)
  /\ (j <= i + 3 -> harvest lines i p = harvest (blanked j lines) i p).
Proof.
  intros Hij Hb Hs Hn.
  destruct (blanked_split lines j b Hb) as (E & Eb & Lf).
  split; intros Hj; unfold harvest.
  - rewrite E at 1. apply harvest_loop_cut; try assumption; lia.
  - rewrite Eb. rewrite E at 1. apply harvest_loop_blank; try assumption; lia.
Qed.

(** In [lines_apart] the next entry is at line 5 and sets no field: the
    record of the entry at line 0 is the one of the first 5 lines. In
    [lines_three] the next entry is at line 3: the record of the entry
    at line 0 is the one of the section with line 3 empty. *)
Lemma harvest_stops_at_later_entry_witness :
  harvest lines_apart 0 (new_plant (lit "Adiantum pedatum") (lit "Northern maidenhair fern"))
  = harvest (firstn 5 lines_apart) 0
            (new_plant (lit "Adiantum pedatum") (lit "Northern maidenhair fern"))
  /\ harvest lines_three 0 (new_plant (lit "Adiantum pedatum") (lit "Northern maidenhair fern"))
     = harvest (blanked 3 lines_three) 0
            (new_plant (lit "Adiantum pedatum") (lit "Northern maidenhair fern")).
Proof.
  split.
  - refine (proj1 (harvest_stops_at_later_entry lines_apart 0 5
                     (lit "Acer rubrum Red maple")
                     (new_plant (lit "Adiantum pedatum")
                                (lit "Northern maidenhair fern")) _ _ _ _) _);
      [lia | reflexivity | vm_compute; reflexivity | vm_compute; reflexivity
      | lia].
  - refine (proj2 (harvest_stops_at_later_entry lines_three 0 3
                     (lit "Acer rubrum Red maple")
                     (new_plant (lit "Adiantum pedatum")
                                (lit "Northern maidenhair fern")) _ _ _ _) _);
      [lia | reflexivity | vm_compute; reflexivity | vm_compute; reflexivity
      | lia].
Defined.

(** C2 fails as stated: with the next entry two lines below, the lookahead
    of the first entry goes on through it and takes the habitat of the
    second entry. *)
Lemma harvest_runs_into_adjacent_entry :
  ~ stops_before lines_adjacent 0 2
  /\ (a <- harvest lines_adjacent 0
              (new_plant (lit "Adiantum pedatum") (lit "Northern maidenhair fern")) ;;
      pget "habitat" a) = Ok (lit "Dry fields").
Proof.
  split; [|vm_compute; reflexivity].
  intros H.
  specialize (H (lit "Adiantum pedatum") (lit "Northern maidenhair fern")
                (lit "Acer rubrum Red maple")).
  assert (C : harvest lines_adjacent 0
                (new_plant (lit "Adiantum pedatum") (lit "Northern maidenhair fern"))
              = harvest (firstn 2 lines_adjacent) 0
                (new_plant (lit "Adiantum pedatum") (lit "Northern maidenhair fern"))).
  { apply H; vm_compute; reflexivity. }
  vm_compute in C. discriminate C.
Qed.

(** C1 fails as stated: of two entries of the same name, the first with a
    habitat of 12 characters and the second with one of 30, the output
    keeps the first. *)
Lemma same_name_keeps_first_seen :
  ~ longer_habitat_wins doc_same_name
  /\ (out <- extract doc_same_name ;; mapM (pget "habitat") out)
     = Ok [lit "Moist woods."].
Proof.
  split; [|vm_compute; reflexivity].
  intros H. unfold longer_habitat_wins in H.
  assert (Ha : exists a,
    harvest (PyStr.split [NL] (locate_section doc_same_name)) 0
      (new_plant (lit "Adiantum pedatum") (lit "Northern maidenhair fern")) = Ok a
    /\ habitat_len a = 12) by (vm_compute; eexists; split; reflexivity).
  assert (Hb : exists b,
    harvest (PyStr.split [NL] (locate_section doc_same_name)) 5
      (new_plant (lit "Adiantum pedatum") (lit "Northern maidenhair fern")) = Ok b
    /\ habitat_len b = 30) by (vm_compute; eexists; split; reflexivity).
  assert (Hr : exists r, extract doc_same_name = Ok [r]
    /\ name_key r = str_lower (clean_name (lit "Adiantum pedatum"))
    /\ habitat_len r = 12) by (vm_compute; eexists; repeat split; reflexivity).
  destruct Ha as (a & Ea & La), Hb as (b & Eb & Lb), Hr as (r & Er & Kr & Lr).
  specialize (H 0 5 (lit "Adiantum pedatum") (lit "Adiantum pedatum")
                (lit "Northern maidenhair fern") (lit "Northern maidenhair fern")
                a b [r] r).
  rewrite La, Lb, Lr in H. simpl in H.
  assert (C : 12 = 30).
  { apply H; try assumption; try reflexivity; try discriminate.
    - vm_compute. tauto.
    - vm_compute. tauto.
    - now left. }
  discriminate C.
Qed.

(** The example of the specification: one record with these fields. *)
Example extract_doc_example :
  extract doc_example
  = Ok [[("scientific_name", lit "Adiantum pedatum");
         ("common_name", lit "Northern maidenhair fern");
         ("habitat", lit "Moist woods"); ("form_color", []);
         ("ecosystem_services", []); ("horticultural_value", []);
         ("other_info", []); ("exposure", lit "Shade");
         ("soil_moisture", []); ("category", lit "Fern")]%string].
Proof. vm_compute. reflexivity. Qed.

(** The merge does decide between records: two entries whose names
    differ as extracted and agree once cleaned both reach it, and the one
    with the habitat of 30 characters is kept. *)
Example merge_decides_among_cleaned_names :
  (ps <- parse_plants doc_spaced_names ;; mapM (pget "scientific_name") ps)
  = Ok [lit "Acer rubrum var. x"; lit "Zea mays"; lit "Acer rubrum  var. x"]
  /\ (out <- extract doc_spaced_names ;;
      names <- mapM (pget "scientific_name") out ;;
      habitats <- mapM (pget "habitat") out ;;
      Ok (combine names habitats))
     = Ok [(lit "Acer rubrum var. x", lit "Rich, moist deciduous woodland");
           (lit "Zea mays", lit "Rich, moist deciduous woodland")].
Proof. split; vm_compute; reflexivity. Qed.

(** The early stop comes after the fields of the line have been taken: an
    entry line that holds a label still sets a field of the entry before
    it, here its exposure. *)
Example harvest_reads_labelled_entry_line :
  matches shape_re (lit "Acer rubrum Red maple Exposure: Sun") = true
  /\ (a <- harvest lines_labelled 0
               (new_plant (lit "Adiantum pedatum")
                          (lit "Northern maidenhair fern")) ;;
      pget "exposure" a) = Ok (lit "Sun")
  /\ (a <- harvest (firstn 5 lines_labelled) 0
               (new_plant (lit "Adiantum pedatum")
                          (lit "Northern maidenhair fern")) ;;
      pget "exposure" a) = Ok (lit "Shade").
Proof. repeat split; vm_compute; reflexivity. Qed.

(** The pattern of line 139 is not the pattern of line 46: the entry of a
    variety is accepted as an entry, does not match the pattern of line
    139, and five lines below an entry does not end its lookahead, which
    takes the habitat that follows. *)
Example harvest_passes_variety_entry :
  (l <- index lines_variety 5 ;; candidate (PyStr.strip l))
  = Ok (Some (lit "Acer rubrum var. trilobum", lit "Red maple"))
  /\ (l <- index lines_variety 5 ;; Ok (matches shape_re (PyStr.strip l)))
     = Ok false
  /\ (a <- harvest lines_variety 0
              (new_plant (lit "Adiantum pedatum") (lit "Northern maidenhair fern")) ;;
      pget "habitat" a) = Ok (lit "Dry fields").
Proof. repeat split; vm_compute; reflexivity. Qed.

(** Three lines below an entry the next entry does not end the lookahead,
    which takes the habitat that follows. *)
Example harvest_passes_entry_three_below :
  (a <- harvest lines_three 0
              (new_plant (lit "Adiantum pedatum") (lit "Northern maidenhair fern")) ;;
      pget "habitat" a) = Ok (lit "Dry fields").
Proof. vm_compute; reflexivity. Qed.

(** In [doc_name_between] the entries are at lines 0, 4, 8, 12 and 16;
    those at lines 0, 8 and 16 have one cleaned name. The entry at line
    16 makes no record, its extracted name being that of line 0, and the
    output record of the name is the one of line 8: neither the first
    seen nor the one of the longest habitat in the document. *)
Example record_of_entry_between :
  map entry_line (entries (PyStr.split [NL] (locate_section doc_name_between)))
  = [0; 4; 8; 12; 16]
  /\ (out <- extract doc_name_between ;;
      r <- index out 0 ;;
      n <- pget "scientific_name" r ;;
      h <- pget "habitat" r ;;
      o <- pget "other_info" r ;;
      Ok (n, h, o))
     = Ok (lit "Acer rubrum var. x", lit "Rich, moist deciduous woodland",
           lit "second").
Proof. split; vm_compute; reflexivity. Qed.

(* ================================================================= *)
(** * Further properties of the code *)

Section CategorizeMore.
Import PyStr.

Lemma split_ws_from_nil s : forall cur,
  split_ws_from cur s = [] <-> cur = [] /\ forallb isspace s = true.
Proof.
  induction s as [|c s IH]; intros cur; simpl.
  - destruct cur; split; intros H; try discriminate; auto.
    destruct H; discriminate.
  - destruct (isspace c) eqn:Ec; simpl.
    + destruct cur.
      * rewrite IH. tauto.
      * split; [discriminate | intros [H _]; discriminate].
    + rewrite IH. split; [intros [H _]; discriminate | intros [_ H]; discriminate].
Qed.

(** X1. [categorize_plant] raises [IndexError] exactly on a name without
    a token, that is an empty name or one of white space only; on every
    other name it returns the label of the first token. *)
Theorem categorize_plant_error name :
  categorize_plant name
  = if forallb isspace name then Raise IndexError
    else Ok (category_of_genus (hd [] (split_ws name))).
Proof.
  unfold categorize_plant, index.
  pose proof (split_ws_from_nil name []) as H. fold (split_ws name) in H.
  destruct (split_ws name) as [|g gs] eqn:E; simpl.
  - destruct H as [H _]. destruct (H eq_refl) as [_ ->]. reflexivity.
  - destruct (forallb isspace name) eqn:F; [|reflexivity].
    destruct H as [_ H]. discriminate (H (conj eq_refl eq_refl)).
Qed.

(** X2. The look-up is exact on the table: a genus of one of the five
    sets gets the label of that set, whatever the order in which the
    sets are consulted. *)
Theorem category_of_listed_genus :
  Forall (fun entry =>
            Forall (fun genus => category_of_genus genus = fst entry)
                   (snd entry))
         genus_table.
Proof.
  unfold genus_table.
  repeat (constructor;
          [apply Forall_forall; intros g Hg;
           match goal with
           | |- category_of_genus g = fst (?l, ?s) =>
               assert (F : forallb (fun x => eqb (category_of_genus x) l) s = true)
                 by (vm_compute; reflexivity);
               rewrite forallb_forall in F; apply pystr_eqb_eq; exact (F g Hg)
           end|]).
  constructor.
Qed.
End CategorizeMore.

Section LocateMore.
Import PyStr.

(** Lines 15-28 as a slice of the document between the two boundaries. *)
Lemma locate_section_slice content :
  exists st en,
    section_start content st /\ section_end content st en
    /\ st <= en <= length content
    /\ locate_section content = firstn (en - st) (skipn st content).
Proof.
  unfold locate_section.
  change (lit "Page | 98") with page_marker.
  change (lit "Ferns" ++ [NL] ++ lit "Ferns add texture") with section_header.
  change (lit "Glossary") with end_token.
  assert (S : exists st,
    section_start content st /\ st <= length content /\
    (if (find page_marker content 0 =? -1)%Z
     then
       if (find section_header content 0 =? -1)%Z
       then 0%Z
       else find section_header content 0
     else find page_marker content 0) = Z.of_nat st).
  { destruct (find_spec page_marker content 0) as [(i & E & F)|[E A]]; [lia| |];
      change (Z.of_nat 0) with 0%Z in E; rewrite E.
    - exists i. destruct (Z.eqb_spec (Z.of_nat i) (-1)); [lia|].
      split; [now left|]. split; [|reflexivity].
      apply (occurs_at_bound page_marker). apply F.
    - rewrite Z.eqb_refl.
      destruct (find_spec section_header content 0) as [(i & E' & F)|[E' A']];
        [lia| |]; change (Z.of_nat 0) with 0%Z in E'; rewrite E'.
      + exists i. destruct (Z.eqb_spec (Z.of_nat i) (-1)); [lia|].
        split; [right; left; now split|]. split; [|reflexivity].
        apply (occurs_at_bound section_header). apply F.
      + exists 0. rewrite Z.eqb_refl.
        split; [right; right; auto|]. split; [lia | reflexivity]. }
  destruct S as (st & Hs & Ls & ->).
  destruct (find_spec end_token content st Ls) as [(en & E & F)|[E A]];
    rewrite E.
  - exists st, en. destruct (Z.eqb_spec (Z.of_nat en) (-1)); [lia|].
    assert (en <= length content)
      by (apply (occurs_at_bound end_token); apply F).
    destruct F as [Le F]. split; [exact Hs|]. split; [left; now split|].
    split; [lia|]. apply slice_nat. lia.
  - exists st, (length content). rewrite Z.eqb_refl.
    split; [exact Hs|]. split; [right; now split|]. split; [lia|].
    apply slice_nat. lia.
Qed.

Lemma contains_false sub s :
  contains sub s = false <-> forall j, ~ occurs_at sub s j.
Proof.
  unfold contains. destruct (find0 sub s) as [k|] eqn:F.
  - apply find0_Some in F. split; [discriminate|].
    intros H. exfalso. apply (H k). apply F.
  - split; [|reflexivity]. intros _. now apply find0_None.
Qed.

Lemma occurs_at_firstn sub t n j :
  occurs_at sub (firstn n t) j ->
  occurs_at sub t j /\ j + length sub <= n.
Proof.
  intros (pre & post & E & L). split.
  - exists pre, (post ++ skipn n t). split; [|exact L].
    rewrite <- (firstn_skipn n t) at 1. rewrite E.
    now rewrite <- !app_assoc.
  - apply (f_equal (@length N)) in E. rewrite !length_app in E.
    pose proof (firstn_le_length n t). lia.
Qed.

(** X3. The section never holds the end token: whatever the document,
    "Glossary" does not occur in the text that is cut into lines. *)
Theorem section_without_end_token content :
  contains (lit "Glossary") (locate_section content) = false.
Proof.
  destruct (locate_section_slice content) as (st & en & _ & He & B & ->).
  apply contains_false. intros j C.
  apply occurs_at_firstn in C. destruct C as [C L].
  apply occurs_at_skipn in C; [|lia].
  change (lit "Glossary") with end_token in *.
  assert (Ll : length end_token = 8) by reflexivity.
  destruct He as [(_ & _ & M)|[A _]].
  - apply (M (st + j)); [lia | exact C].
  - apply (A (st + j)); [lia | exact C].
Qed.
End LocateMore.

Section MergeMore.
Context {U : UnicodeDB}.

Lemma has_name_lookup p :
  has_name p = true <->
  exists sn, Dict.lookup String.eqb "scientific_name"%string p = Some sn.
Proof.
  unfold has_name, Dict.has.
  destruct (Dict.lookup String.eqb "scientific_name"%string p).
  - split; eauto.
  - split; [discriminate | intros [sn E]; discriminate].
Qed.

Lemma merge_step_no_name d p :
  has_name p = false -> merge_step d p = Raise KeyError.
Proof.
  unfold has_name, Dict.has, merge_step, pget, Dict.get.
  now destruct (Dict.lookup String.eqb "scientific_name"%string p).
Qed.

Lemma foldM_merge_outcome ps : forall d,
  if forallb has_name ps
  then exists d', foldM merge_step d ps = Ok d'
  else foldM merge_step d ps = Raise KeyError.
Proof.
  induction ps as [|p ps IH]; intros d; simpl; [eauto|].
  destruct (has_name p) eqn:Hp; simpl.
  - apply has_name_lookup in Hp.
    destruct (merge_step_total d p Hp) as [d1 ->]. cbn [bind]. apply IH.
  - now rewrite merge_step_no_name.
Qed.

(** X4. The merge of lines 224-234 raises [KeyError] exactly when a
    record has no [scientific_name]; otherwise it returns records, each
    of them one of those it was given. *)
Theorem merge_outcome ps :
  if forallb has_name ps
  then exists out, merge ps = Ok out /\ incl out ps
  else merge ps = Raise KeyError.
Proof.
  unfold merge. pose proof (foldM_merge_outcome ps []) as H.
  destruct (forallb has_name ps).
  - destruct H as [d E]. rewrite E. cbn [bind].
    exists (Dict.values d). split; [reflexivity|].
    pose proof (foldM_merged ps [] [] d merged_empty E) as (Hn & Hl & _).
    intros q Hq. apply in_map_iff in Hq. destruct Hq as ([k q'] & <- & I).
    apply (In_lookup k q' d Hn) in I. destruct (Hl _ _ I) as [_ (b & a & E' & _)].
    simpl in E'. rewrite E'. apply in_or_app. right. now left.
  - now rewrite H.
Qed.

Lemma dset_absent {V} k (v : V) d :
  Dict.lookup PyStr.eqb k d = None -> Dict.set PyStr.eqb k v d = d ++ [(k, v)].
Proof.
  induction d as [|[k' v'] d IH]; simpl; [reflexivity|].
  destruct (PyStr.eqb k k'); [discriminate|]. intros H. now rewrite IH.
Qed.

Lemma lookup_app_absent {V} k k' (v : V) d :
  Dict.lookup PyStr.eqb k d = None -> k <> k' ->
  Dict.lookup PyStr.eqb k (d ++ [(k', v)]) = None.
Proof.
  intros H N. induction d as [|[k2 v2] d IH]; simpl in *.
  - apply pystr_eqb_neq in N. now rewrite N.
  - destruct (PyStr.eqb k k2); [discriminate | now apply IH].
Qed.

Lemma foldM_merge_distinct ps : forall d,
  forallb has_name ps = true ->
  NoDup (map name_key ps) ->
  (forall p, In p ps -> Dict.lookup PyStr.eqb (name_key p) d = None) ->
  foldM merge_step d ps = Ok (d ++ map (fun p => (name_key p, p)) ps).
Proof.
  induction ps as [|p ps IH]; intros d Hh Hn Hd; simpl.
  - now rewrite app_nil_r.
  - simpl in Hh. apply andb_true_iff in Hh. destruct Hh as [Hp Hh].
    inversion Hn as [|? ? Np Nps]; subst.
    apply has_name_lookup in Hp. destruct Hp as [sn Es].
    unfold merge_step at 1, pget, Dict.get. rewrite Es. cbn [bind].
    assert (K : str_lower sn = name_key p).
    { unfold name_key, name_of, pget_or, Dict.get_or. now rewrite Es. }
    rewrite K, (Hd p (or_introl eq_refl)). cbn [bind].
    rewrite dset_absent by (apply Hd; now left).
    rewrite IH; [now rewrite <- app_assoc | exact Hh | exact Nps |].
    intros q Hq. apply lookup_app_absent; [apply Hd; now right|].
    intros C. apply Np. rewrite <- C. now apply in_map.
Qed.

(** The merge leaves alone a list without two records of one key. *)
Lemma merge_distinct ps :
  forallb has_name ps = true -> NoDup (map name_key ps) -> merge ps = Ok ps.
Proof.
  intros Hh Hn. unfold merge.
  rewrite (foldM_merge_distinct ps [] Hh Hn) by reflexivity. cbn [bind].
  unfold Dict.values. simpl. rewrite map_map. simpl. now rewrite map_id.
Qed.

Lemma merge_Ok_inv ps out :
  merge ps = Ok out ->
  NoDup (map name_key out) /\ incl out ps /\ forallb has_name ps = true.
Proof.
  unfold merge. intros H. pose proof (foldM_merge_outcome ps []) as A.
  destruct (forallb has_name ps); [|rewrite A in H; discriminate].
  destruct A as [d E]. rewrite E in H. cbn [bind] in H.
  inversion H; subst out; clear H.
  pose proof (foldM_merged ps [] [] d merged_empty E) as (Hn & Hl & _).
  simpl in Hl.
  assert (K : forall k q, In (k, q) d -> k = name_key q /\ In q ps).
  { intros k q I. apply (In_lookup k q d Hn) in I.
    destruct (Hl _ _ I) as [Ek (b & a & E' & _)]. split; [exact Ek|].
    rewrite E'. apply in_or_app. right. now left. }
  split; [|split; [|reflexivity]].
  - unfold Dict.values. rewrite map_map.
    replace (map (fun x => name_key (snd x)) d) with (map fst d); [exact Hn|].
    apply map_ext_in. intros [k q] I. simpl. now apply K.
  - intros q Hq. apply in_map_iff in Hq. destruct Hq as ([k q'] & <- & I).
    now apply (K k q').
Qed.

(** X5. Merging is idempotent: the merge of a merged list returns it as
    it is, records and order. *)
Theorem merge_idempotent ps out :
  merge ps = Ok out -> merge out = Ok out.
Proof.
  intros H. apply merge_Ok_inv in H. destruct H as (Hn & Hi & Hh).
  apply merge_distinct; [|exact Hn].
  rewrite forallb_forall in *. intros q Hq. apply Hh. now apply Hi.
Qed.
End MergeMore.

(** The merge of a short and a long record of one name, merged again. *)
Lemma merge_idempotent_witness : merge [plant_long] = Ok [plant_long].
Proof.
  apply (merge_idempotent [plant_short; plant_long] [plant_long]).
  vm_compute. reflexivity.
Defined.

Section SortMore.
Import PyStr.

Lemma ltb_irrefl a : ltb a a = false.
Proof.
  destruct (ltb a a) eqn:E; [|reflexivity].
  pose proof (ltb_asym a a E). congruence.
Qed.

Lemma insert_by_key_filter k x l :
  filter (fun kp => eqb (fst kp) k) (insert_by_key x l)
  = filter (fun kp => eqb (fst kp) k) (x :: l).
Proof.
  induction l as [|y l IH]; [reflexivity|]. cbn [insert_by_key].
  destruct (ltb (fst y) (fst x)) eqn:L; [|reflexivity].
  cbn [filter] in *. rewrite IH.
  destruct (eqb (fst y) k) eqn:Ey, (eqb (fst x) k) eqn:Ex; try reflexivity.
  apply pystr_eqb_eq in Ey, Ex. rewrite Ey, Ex, ltb_irrefl in L. discriminate.
Qed.

Lemma sort_pairs_filter k l :
  filter (fun kp => eqb (fst kp) k) (fold_right insert_by_key [] l)
  = filter (fun kp => eqb (fst kp) k) l.
Proof.
  induction l as [|x l IH]; [reflexivity|]. cbn [fold_right].
  rewrite insert_by_key_filter. cbn [filter]. now rewrite IH.
Qed.

Lemma filter_map_snd (f : plant -> bool) (l : list (pystr * plant)) :
  filter f (map snd l) = map snd (filter (fun kp => f (snd kp)) l).
Proof.
  induction l as [|x l IH]; [reflexivity|]. simpl.
  destruct (f (snd x)); simpl; now rewrite IH.
Qed.

Lemma mapM_names_error ps :
  forallb has_name ps = false ->
  mapM (pget "scientific_name") ps = Raise KeyError.
Proof.
  induction ps as [|p ps IH]; simpl; [discriminate|].
  unfold has_name at 1, Dict.has, pget at 1, Dict.get.
  destruct (Dict.lookup String.eqb "scientific_name"%string p); simpl;
    [|reflexivity].
  intros H. now rewrite (IH H).
Qed.

(** X6. Line 235 raises [KeyError] exactly when a record has no
    [scientific_name]. Otherwise it returns the same records, none lost
    and none twice, in non-decreasing order of their names, and records
    of one name keep the order they had. *)
Theorem sort_plants_outcome ps :
  if forallb has_name ps
  then exists out,
      sort_plants ps = Ok out
      /\ Permutation out ps
      /\ StronglySorted name_le out
      /\ forall k, of_name k out = of_name k ps
  else sort_plants ps = Raise KeyError.
Proof.
  destruct (forallb has_name ps) eqn:H.
  - assert (F : Forall (fun p => exists sn,
        Dict.lookup String.eqb "scientific_name"%string p = Some sn) ps).
    { apply Forall_forall. intros p Hp. apply has_name_lookup.
      rewrite forallb_forall in H. now apply H. }
    destruct (sort_plants_spec ps F) as (out & E & P & S).
    exists out. repeat (split; [assumption|]).
    intros k. unfold sort_plants in E. rewrite (mapM_names ps F) in E.
    cbn [bind] in E. rewrite combine_names in E. inversion E; subst out.
    unfold of_name. rewrite filter_map_snd.
    set (l := map (fun p => (name_of p, p)) ps).
    assert (Fk : forall kp, In kp l -> fst kp = name_of (snd kp)).
    { intros kp I. apply in_map_iff in I. now destruct I as (p & <- & _). }
    rewrite (filter_ext_in (fun kp => eqb (name_of (snd kp)) k)
                           (fun kp => eqb (fst kp) k)).
    2:{ intros kp I. rewrite Fk; [reflexivity|].
        eapply Permutation_in; [apply sort_pairs_perm | exact I]. }
    rewrite sort_pairs_filter.
    rewrite (filter_ext_in (fun kp => eqb (fst kp) k)
                           (fun kp => eqb (name_of (snd kp)) k)).
    2:{ intros kp I. now rewrite Fk. }
    unfold l. clear. induction ps as [|p ps IH]; [reflexivity|]. simpl.
    destruct (eqb (name_of p) k); simpl; now rewrite IH.
  - unfold sort_plants. now rewrite (mapM_names_error ps H).
Qed.
End SortMore.

Section StripMore.
Import PyStr.

Lemma dropwhile_head p s c t : dropwhile p s = c :: t -> p c = false.
Proof.
  induction s as [|x s IH]; simpl; [discriminate|].
  destruct (p x) eqn:E; [exact IH|]. intros H. inversion H; subst. exact E.
Qed.

Lemma dropwhile_suffix p s : exists a, s = a ++ dropwhile p s.
Proof.
  induction s as [|x s [a IH]]; simpl; [exists []; reflexivity|].
  destruct (p x); [|exists []; reflexivity].
  exists (x :: a). simpl. now rewrite <- IH.
Qed.

Lemma dropwhile_fixed p c t : p c = false -> dropwhile p (c :: t) = c :: t.
Proof. intros H. simpl. now rewrite H. Qed.

(** What [strip_with] returns is a piece of the text, and neither its
    first nor its last character is in the class stripped. *)
Lemma strip_with_infix p s :
  exists a b, s = a ++ strip_with p s ++ b.
Proof.
  unfold strip_with. destruct (dropwhile_suffix p s) as [a Ea].
  destruct (dropwhile_suffix p (rev (dropwhile p s))) as [b Eb].
  exists a, (rev b). rewrite <- rev_app_distr, <- Eb, rev_involutive.
  exact Ea.
Qed.

Lemma strip_with_edges p s : edge_free p (strip_with p s).
Proof.
  unfold strip_with. set (u := dropwhile p s).
  set (v := dropwhile p (rev u)). split.
  - intros c t E.
    destruct (dropwhile_suffix p (rev u)) as [b Eb]. fold v in Eb.
    apply (f_equal (@rev N)) in Eb. rewrite rev_involutive, rev_app_distr in Eb.
    rewrite E in Eb. simpl in Eb. apply (dropwhile_head p s c (t ++ rev b)).
    exact Eb.
  - intros t c E. apply (f_equal (@rev N)) in E.
    rewrite rev_involutive, rev_app_distr in E. simpl in E.
    apply (dropwhile_head p (rev u) c (rev t)). exact E.
Qed.

Lemma strip_with_fixed p s : edge_free p s -> strip_with p s = s.
Proof.
  intros [Hh Hl]. unfold strip_with. destruct s as [|c t]; [reflexivity|].
  rewrite dropwhile_fixed by (apply (Hh c t); reflexivity).
  destruct (rev (c :: t)) as [|d r] eqn:E.
  - apply (f_equal (@rev N)) in E. rewrite rev_involutive in E. discriminate.
  - rewrite dropwhile_fixed; [now rewrite <- E, rev_involutive|].
    apply (Hl (rev r) d). apply (f_equal (@rev N)) in E.
    now rewrite rev_involutive in E.
Qed.

Lemma strip_with_idempotent p s :
  strip_with p (strip_with p s) = strip_with p s.
Proof. apply strip_with_fixed, strip_with_edges. Qed.

Lemma strip_trimmed s : trimmed (strip s).
Proof. apply strip_with_idempotent. Qed.
End StripMore.

Section SchemaMore.
Context {U : UnicodeDB} {S : PySet}.
Import PyStr.

Lemma keys_pset_in k v (p : plant) :
  In k (map fst p) -> map fst (pset k v p) = map fst p.
Proof.
  unfold pset. induction p as [|[k' v'] p IH]; simpl; [contradiction|].
  destruct (String.eqb k k') eqn:E; [reflexivity|]. simpl.
  intros [C|C]; [apply String.eqb_neq in E; congruence | now rewrite IH].
Qed.

Lemma keys_pset_new k v (p : plant) :
  ~ In k (map fst p) -> map fst (pset k v p) = map fst p ++ [k].
Proof.
  unfold pset. induction p as [|[k' v'] p IH]; simpl; [reflexivity|].
  intros N. destruct (String.eqb k k') eqn:E.
  - apply String.eqb_eq in E. subst. tauto.
  - simpl. rewrite IH; [reflexivity | tauto].
Qed.

Lemma wf_pset_plain k v p :
  In k ["habitat"; "form_color"; "scientific_name"; "common_name"]%string ->
  well_formed p -> well_formed (pset k v p).
Proof.
  intros I [K T]. split.
  - rewrite keys_pset_in; [exact K|]. rewrite K. simpl in *. tauto.
  - intros k' I'. rewrite lookup_pset_other; [now apply T|].
    intros ->. simpl in I, I'.
    repeat (destruct I as [I|I]; [subst;
      repeat (destruct I' as [I'|I']; [discriminate|]); contradiction|]).
    contradiction.
Qed.

Lemma wf_pset_trim k v p :
  In k ["exposure"; "ecosystem_services"; "horticultural_value";
        "other_info"]%string ->
  trimmed v -> well_formed p -> well_formed (pset k v p).
Proof.
  intros I Tv [K T]. split.
  - rewrite keys_pset_in; [exact K|]. rewrite K. simpl in *. tauto.
  - intros k' I'. destruct (String.eqb_spec k' k) as [->|N].
    + rewrite lookup_pset_same. eauto.
    + rewrite lookup_pset_other by exact N. now apply T.
Qed.

Lemma wf_new_plant sci com : well_formed (new_plant sci com).
Proof.
  split; [reflexivity|]. intros k I. exists []. split; [|reflexivity].
  simpl in I. repeat (destruct I as [<-|I]; [reflexivity|]). contradiction.
Qed.

Ltac open_bind H :=
  repeat (apply bind_Ok in H; destruct H as (? & ? & H));
  inversion H; subst; clear H.

Lemma harvest_line_wf lines j next_line p p' :
  harvest_line lines j next_line p = Ok p' ->
  well_formed p -> well_formed p'.
Proof.
  unfold harvest_line. intros H W.
  destruct (startswith (lit "Habitat:") next_line).
  { open_bind H. apply wf_pset_plain; [simpl; tauto | exact W]. }
  destruct (contains (lit "Exposure:") next_line).
  { destruct (1 <? length (split (lit "Exposure:") next_line));
      open_bind H; [|exact W].
    apply wf_pset_trim; [simpl; tauto | apply strip_trimmed | exact W]. }
  destruct (contains (lit "Form/Color:") next_line).
  { open_bind H. apply wf_pset_plain; [simpl; tauto | exact W]. }
  destruct (contains (lit "Ecosystem Services:") next_line).
  { open_bind H.
    apply wf_pset_trim; [simpl; tauto | apply strip_trimmed | exact W]. }
  destruct (contains (lit "Horticultural") next_line
            && contains (lit "Value:") next_line).
  { open_bind H.
    apply wf_pset_trim; [simpl; tauto | apply strip_trimmed | exact W]. }
  destruct (startswith (lit "Other:") next_line).
  { open_bind H.
    apply wf_pset_trim; [simpl; tauto | apply strip_trimmed | exact W]. }
  open_bind H. exact W.
Qed.

Lemma harvest_loop_wf lines i : forall fuel j p p',
  harvest_loop fuel lines i j p = Ok p' -> well_formed p -> well_formed p'.
Proof.
  induction fuel as [|fuel IH]; intros j p p' H W; [discriminate|].
  simpl in H. destruct (j <? Nat.min (i + 60) (length lines));
    [|now inversion H; subst].
  apply bind_Ok in H. destruct H as (l & _ & H).
  apply bind_Ok in H. destruct H as (p1 & H1 & H).
  apply harvest_line_wf in H1; [|exact W].
  destruct ((i + 3 <? j) && matches shape_re (strip l));
    [now inversion H; subst | eapply IH; eassumption].
Qed.

Lemma mapM_Forall {A B} (f : A -> result B) (P : B -> Prop) :
  (forall x y, f x = Ok y -> P y) ->
  forall xs ys, mapM f xs = Ok ys -> Forall P ys.
Proof.
  intros Hf. induction xs as [|x xs IH]; intros ys H; simpl in H.
  - inversion H. constructor.
  - apply bind_Ok in H. destruct H as (y & Hy & H).
    apply bind_Ok in H. destruct H as (ys' & Hys & H).
    inversion H; subst. constructor; [now apply (Hf x) | now apply IH].
Qed.

Lemma parse_plants_wf content ps :
  parse_plants content = Ok ps -> Forall well_formed ps.
Proof.
  intros H. destruct (parse_plants_entries content) as (ps' & E & E').
  rewrite H in E'. inversion E'; subst ps'.
  eapply mapM_Forall; [|exact E].
  intros [[i sci] com] p Hp. unfold harvest_entry, harvest in Hp.
  eapply harvest_loop_wf; [exact Hp | apply wf_new_plant].
Qed.

Lemma clean_plant_wf p p' :
  clean_plant p = Ok p' -> well_formed p ->
  map fst p' = output_keys /\ trimmed_fields p'.
Proof.
  unfold clean_plant. intros H W. open_bind H.
  assert (W2 : well_formed
                 (pset "common_name" (clean_name x0)
                       (pset "scientific_name" (clean_name x) p))).
  { apply wf_pset_plain; [simpl; tauto|].
    apply wf_pset_plain; [simpl; tauto | exact W]. }
  destruct W2 as [K T]. split.
  - rewrite keys_pset_new; [now rewrite K|]. rewrite K. simpl.
    intros C. repeat (destruct C as [C|C]; [discriminate|]). exact C.
  - intros k I. rewrite lookup_pset_other; [now apply T|].
    intros ->. simpl in I.
    repeat (destruct I as [I|I]; [discriminate|]). exact I.
Qed.

(** X7. Every record of the output has the nine keys of lines 86-96
    followed by [category], in that order and no other; and its
    [exposure], [ecosystem_services], [horticultural_value] and
    [other_info] have no white space at either end. *)
Theorem output_schema content :
  exists out,
    extract content = Ok out
    /\ Forall (fun p => map fst p = output_keys /\ trimmed_fields p) out.
Proof.
  destruct (extract_pipeline content)
    as (ps & cs & ms & out & Ep & _ & Ec & _ & Em & _ & Lm & _ & _ & Po & _ & _ & E).
  exists out. split; [exact E|].
  assert (Fc : Forall (fun p => map fst p = output_keys /\ trimmed_fields p) cs).
  { pose proof (parse_plants_wf content ps Ep) as Wp. clear -Ec Wp.
    revert cs Ec. induction Wp as [|p ps Wp _ IH]; intros cs Ec; simpl in Ec.
    - inversion Ec. constructor.
    - apply bind_Ok in Ec. destruct Ec as (p' & Hp & Ec).
      apply bind_Ok in Ec. destruct Ec as (cs' & Hc & Ec).
      inversion Ec; subst. constructor; [|now apply IH].
      now apply (clean_plant_wf p). }
  rewrite Forall_forall in *. intros q Hq. apply Fc.
  apply (Permutation_in _ Po) in Hq. destruct (Lm q Hq) as (b & a & -> & _).
  apply in_or_app. right. now left.
Qed.
End SchemaMore.

Section WindowMore.
Context {U : UnicodeDB}.
Import PyStr.

Lemma ltb_min_nth {A} (l : list A) k b :
  (k <? Nat.min b (length l))
  = (k <? b) && match nth_error l k with Some _ => true | None => false end.
Proof.
  destruct (nth_error l k) eqn:E.
  - assert (k < length l) by (apply nth_error_Some; congruence).
    rewrite andb_true_r.
    destruct (Nat.ltb_spec k b); [apply Nat.ltb_lt | apply Nat.ltb_ge]; lia.
  - apply nth_error_None in E. rewrite andb_false_r. apply Nat.ltb_ge. lia.
Qed.

Lemma form_color_loop_local l1 l2 j :
  (forall k, j < k < j + 4 -> nth_error l1 k = nth_error l2 k) ->
  forall fuel k form_text, j < k ->
    form_color_loop fuel l1 j k form_text
    = form_color_loop fuel l2 j k form_text.
Proof.
  intros W. induction fuel as [|fuel IH]; intros k ft Hk; [reflexivity|].
  simpl. rewrite !ltb_min_nth. unfold index.
  destruct (Nat.ltb_spec k (j + 4)) as [Lt|]; [|reflexivity].
  rewrite (W k) by lia. cbn [andb].
  destruct (nth_error l2 k) as [l|]; [|reflexivity]. cbn [bind].
  destruct (negb (is_empty (strip l)) && _); [|reflexivity].
  destruct (matches shape_re (strip l)); [reflexivity|].
  apply IH. lia.
Qed.

Lemma harvest_line_local l1 l2 j next_line p :
  (forall k, j < k < j + 4 -> nth_error l1 k = nth_error l2 k) ->
  harvest_line l1 j next_line p = harvest_line l2 j next_line p.
Proof.
  intros W. unfold harvest_line.
  destruct (startswith (lit "Habitat:") next_line); [reflexivity|].
  destruct (contains (lit "Exposure:") next_line); [reflexivity|].
  destruct (contains (lit "Form/Color:") next_line); [|reflexivity].
  destruct (index_last (split (lit "Form/Color:") next_line)) as [f| |];
    cbn [bind]; try reflexivity.
  rewrite (form_color_loop_local l1 l2 j W) by lia. reflexivity.
Qed.

Lemma harvest_loop_local l1 l2 i :
  (forall k, i < k < i + 63 -> nth_error l1 k = nth_error l2 k) ->
  forall fuel j p, i < j ->
    harvest_loop fuel l1 i j p = harvest_loop fuel l2 i j p.
Proof.
  intros W. induction fuel as [|fuel IH]; intros j p Hj; [reflexivity|].
  simpl. rewrite !ltb_min_nth. unfold index.
  destruct (Nat.ltb_spec j (i + 60)) as [Lt|]; [|reflexivity].
  rewrite (W j) by lia. cbn [andb].
  destruct (nth_error l2 j) as [l|]; [|reflexivity]. cbn [bind].
  rewrite (harvest_line_local l1 l2 j (strip l) p)
    by (intros k Hk; apply W; lia).
  destruct (harvest_line l2 j (strip l) p) as [p1| |]; cbn [bind];
    try reflexivity.
  destruct ((i + 3 <? j) && matches shape_re (strip l)); [reflexivity|].
  apply IH. lia.
Qed.

(** X8. The lookahead for the entry at line [i] reads lines [i+1] to
    [i+62] only (59 lines for the labels and at most 3 more for the
    continuation of a Form/Color field): two sections that agree on
    these lines give the same record, whatever the line of the entry
    itself and the lines further down. *)
Theorem harvest_local l1 l2 i p :
  (forall k, i < k < i + 63 -> nth_error l1 k = nth_error l2 k) ->
  harvest l1 i p = harvest l2 i p.
Proof.
  intros W. unfold harvest. apply harvest_loop_local; [exact W | lia].
Qed.
End WindowMore.

(** The line of the entry itself has no part in its record. *)
Lemma harvest_local_witness :
  harvest (lit "Acer rubrum Red maple" :: lines_adjacent) 0 plant_short
  = harvest (lit "---" :: lines_adjacent) 0 plant_short.
Proof.
  apply harvest_local. intros k Hk. destruct k; [lia | reflexivity].
Defined.

Section CleanNameMore.
Import PyStr.

Lemma spaced_only_spaces s : forall b,
  spaced b s = true -> forall c, In c s -> isspace c = true -> c = 32%N.
Proof.
  induction s as [|x s IH]; intros b H c I Hc; [contradiction|].
  simpl in H. destruct (isspace x) eqn:Ex.
  - repeat (apply andb_true_iff in H; destruct H as [H ?]).
    destruct I as [<-|I]; [now apply N.eqb_eq | eauto].
  - destruct I as [<-|I]; [congruence | eauto].
Qed.

(** A text whose white space is single spaces between tokens is what
    splitting and joining give back. *)
Lemma join_split_spaced s : forall cur,
  spaced (negb (is_empty cur)) s = true ->
  join (lit " ") (split_ws_from cur s) = rev cur ++ s.
Proof.
  induction s as [|c s IH]; intros cur H; simpl.
  - destruct cur; [reflexivity | now rewrite app_nil_r].
  - simpl in H. destruct (isspace c) eqn:Ec.
    + repeat (apply andb_true_iff in H; destruct H as [H ?]).
      destruct cur as [|x cur]; [discriminate|].
      apply N.eqb_eq in H2. subst c.
      destruct s as [|d s]; [discriminate|].
      apply negb_true_iff in H1.
      specialize (IH [] H0). simpl rev in IH. simpl app in IH.
      destruct (split_ws_head d s H1) as (w & ws & E).
      unfold split_ws in E. rewrite E in *.
      change (join (lit " ") (rev (x :: cur) :: (d :: w) :: ws))
        with (rev (x :: cur) ++ lit " " ++ join (lit " ") ((d :: w) :: ws)).
      now rewrite IH.
    + rewrite (IH (c :: cur)) by exact H. simpl. now rewrite <- app_assoc.
Qed.

Lemma spaced_token t : forall b rest,
  t <> [] -> forallb (fun c => negb (isspace c)) t = true ->
  spaced b (t ++ rest) = spaced true rest.
Proof.
  induction t as [|c t IH]; intros b rest N F; [contradiction|].
  simpl in F. apply andb_true_iff in F. destruct F as [Fc F].
  apply negb_true_iff in Fc. simpl. rewrite Fc.
  destruct t as [|d t]; [reflexivity|]. apply IH; [discriminate | exact F].
Qed.

Lemma split_ws_from_tokens s : forall cur,
  forallb (fun c => negb (isspace c)) cur = true ->
  Forall (fun t => t <> [] /\ forallb (fun c => negb (isspace c)) t = true)
         (split_ws_from cur s).
Proof.
  assert (R : forall cur, cur <> [] ->
            forallb (fun c => negb (isspace c)) cur = true ->
            rev cur <> [] /\ forallb (fun c => negb (isspace c)) (rev cur) = true).
  { intros cur Hn F. split.
    - intros E. apply (f_equal (@rev N)) in E. rewrite rev_involutive in E.
      contradiction.
    - rewrite forallb_forall in *. intros c I. apply F. now apply in_rev. }
  induction s as [|c s IH]; intros cur F; simpl.
  - destruct cur; [constructor|]. constructor; [|constructor].
    apply R; [discriminate | exact F].
  - destruct (isspace c) eqn:Ec.
    + destruct cur; [now apply IH|]. constructor; [|now apply IH].
      apply R; [discriminate | exact F].
    + apply IH. simpl. now rewrite Ec.
Qed.

Lemma spaced_join ts :
  Forall (fun t => t <> [] /\ forallb (fun c => negb (isspace c)) t = true) ts ->
  spaced false (join (lit " ") ts) = true.
Proof.
  induction 1 as [|t ts [Nt Ft] Hts IH]; [reflexivity|].
  destruct ts as [|t2 ts].
  - simpl. rewrite <- (app_nil_r t). now rewrite spaced_token.
  - change (join (lit " ") (t :: t2 :: ts))
      with (t ++ lit " " ++ join (lit " ") (t2 :: ts)).
    rewrite spaced_token by assumption.
    inversion Hts as [|? ? [N2 F2] _]; subst.
    destruct t2 as [|d t2]; [contradiction|].
    destruct (join_head (lit " ") d t2 ts) as [r E]. rewrite E in *.
    simpl in F2. apply andb_true_iff in F2. destruct F2 as [Fd _].
    cbn. rewrite Fd. exact IH.
Qed.

Lemma spaced_suffix a : forall b0 c t,
  spaced b0 (a ++ c :: t) = true -> isspace c = false ->
  spaced false (c :: t) = true.
Proof.
  induction a as [|x a IH]; intros b0 c t H Hc.
  - simpl in *. now rewrite Hc in *.
  - simpl in H. destruct (isspace x).
    + repeat (apply andb_true_iff in H; destruct H as [H ?]). eauto.
    + eauto.
Qed.

Lemma spaced_prefix d b r0 : forall b0,
  spaced b0 (r0 ++ d :: b) = true -> isspace d = false ->
  spaced b0 (r0 ++ [d]) = true.
Proof.
  induction r0 as [|x r0 IH]; intros b0 H Hd.
  - simpl. now rewrite Hd.
  - simpl in *. destruct (isspace x).
    + repeat (apply andb_true_iff in H; destruct H as [H ?]).
      rewrite H, H2, (IH false H0 Hd). simpl.
      destruct r0; simpl in *; now rewrite H1.
    + now apply IH.
Qed.

Lemma last_cases (r : pystr) : r = [] \/ exists r0 d, r = r0 ++ [d].
Proof.
  destruct (rev r) as [|d r0] eqn:E.
  - left. apply (f_equal (@rev N)) in E. now rewrite rev_involutive in E.
  - right. exists (rev r0), d. apply (f_equal (@rev N)) in E.
    now rewrite rev_involutive in E.
Qed.

(** What [clean_name] returns: a text whose white space is single
    spaces between tokens and whose ends are not among the stripped
    characters. *)
Lemma clean_name_normal name :
  spaced false (clean_name name) = true
  /\ edge_free name_edge (clean_name name).
Proof.
  unfold clean_name.
  change (strip_chars (lit " .,;:")) with (strip_with name_edge).
  set (J := join (lit " ") (split_ws name)).
  assert (SJ : spaced false J = true)
    by (apply spaced_join, split_ws_from_tokens; reflexivity).
  pose proof (strip_with_edges name_edge J) as Ed.
  split; [|exact Ed].
  destruct (strip_with_infix name_edge J) as (a & b & EJ).
  set (r := strip_with name_edge J) in *.
  assert (NS : forall c, In c r -> name_edge c = false -> isspace c = false).
  { intros c I Hc. destruct (isspace c) eqn:Ec; [|reflexivity].
    assert (c = 32%N).
    { apply (spaced_only_spaces J false SJ); [|exact Ec].
      rewrite EJ. apply in_or_app. right. apply in_or_app. now left. }
    subst c. discriminate. }
  destruct r as [|c t] eqn:Er; [reflexivity|].
  destruct Ed as [Hh Hl].
  assert (Hc : isspace c = false)
    by (apply NS; [now left | apply (Hh c t); reflexivity]).
  rewrite EJ in SJ. simpl app in SJ. apply (spaced_suffix a) in SJ; [|exact Hc].
  destruct (last_cases (c :: t)) as [C|(r0 & d & E)]; [discriminate|].
  assert (Hd : isspace d = false).
  { apply NS; [rewrite E; apply in_or_app; right; now left | now apply (Hl r0 d)]. }
  change (c :: t ++ b) with ((c :: t) ++ b) in SJ.
  rewrite E in *. rewrite <- app_assoc in SJ. simpl app in SJ.
  now apply spaced_prefix in SJ.
Qed.

(** X9. [clean_name] leaves a name whose white space is single spaces
    between its tokens and that neither begins nor ends with a space, a
    full stop, a comma, a semicolon or a colon. *)
Theorem clean_name_shape name :
  spaced false (clean_name name) = true
  /\ edge_free name_edge (clean_name name).
Proof. apply clean_name_normal. Qed.

Lemma clean_name_again name :
  clean_name (clean_name name) = clean_name name.
Proof.
  destruct (clean_name_normal name) as [Sp Ed].
  set (r := clean_name name) in *. unfold clean_name.
  unfold split_ws. rewrite (join_split_spaced r []) by exact Sp.
  simpl app. apply strip_with_fixed. exact Ed.
Qed.

(** X10. [clean_name] is idempotent: a cleaned name is left as it is. *)
Theorem clean_name_idempotent name :
  clean_name (clean_name name) = clean_name name.
Proof. apply clean_name_again. Qed.
End CleanNameMore.

Section SanitizeMore.
Context {U : UnicodeDB}.
Import PyStr.

Lemma match_len_chr p s :
  Re.match_len (Re.Chr p) s
  = match s with
    | c :: _ => if p c then Some 1 else None
    | [] => None
    end.
Proof.
  unfold Re.match_len. destruct s as [|c s]; [reflexivity|]. cbn [Re.run].
  destruct (p c); [|reflexivity]. f_equal. simpl length. lia.
Qed.

Lemma sub_unsafe s :
  re_sub unsafe_re [UNDERSCORE] s
  = map (fun c => if alnum c then c else UNDERSCORE) s.
Proof.
  unfold re_sub, unsafe_re. induction s as [|c s IH]; cbn [re_sub_from map].
  - now rewrite match_len_chr.
  - rewrite match_len_chr.
    destruct (alnum c); cbn [negb]; now rewrite IH.
Qed.

Lemma star_always {A} p (k : pystr -> option A) s :
  (forall t, k t <> None) -> Re.star p s k = k (dropwhile p s).
Proof.
  intros Hk. induction s as [|c s IH]; [reflexivity|]. simpl.
  destruct (p c); [|reflexivity]. rewrite IH.
  destruct (k (dropwhile p s)) eqn:E; [reflexivity|]. now apply Hk in E.
Qed.

Lemma chr_underscore c : Re.chr UNDERSCORE c = N.eqb c UNDERSCORE.
Proof. unfold Re.chr. apply N.eqb_sym. Qed.

Lemma dropwhile_run s :
  length (dropwhile (Re.chr UNDERSCORE) s) + run_length s = length s.
Proof.
  induction s as [|c s IH]; [reflexivity|].
  cbn [dropwhile run_length]. rewrite chr_underscore.
  destruct (N.eqb c UNDERSCORE); simpl length; lia.
Qed.

Lemma match_len_underscores s :
  Re.match_len underscores_re s
  = match run_length s with 0 => None | n => Some n end.
Proof.
  unfold Re.match_len, underscores_re, Re.Plus.
  destruct s as [|c s]; [reflexivity|]. cbn [Re.run run_length].
  rewrite chr_underscore.
  destruct (N.eqb c UNDERSCORE); [|reflexivity].
  rewrite star_always by discriminate. f_equal.
  pose proof (dropwhile_run s). simpl length. lia.
Qed.

Lemma sub_underscores s :
  re_sub_from underscores_re [UNDERSCORE] (run_length s) s = squeeze true s
  /\ re_sub_from underscores_re [UNDERSCORE] 0 s = squeeze false s.
Proof.
  induction s as [|c s [IH1 IH2]].
  - split; cbn; reflexivity.
  - assert (Z : re_sub_from underscores_re [UNDERSCORE] 0 (c :: s)
                = squeeze false (c :: s)).
    { cbn [re_sub_from squeeze]. rewrite match_len_underscores.
      cbn [run_length]. destruct (N.eqb c UNDERSCORE) eqn:E.
      - apply N.eqb_eq in E. subst c. now rewrite IH1.
      - now rewrite IH2. }
    split; [|exact Z].
    cbn [run_length]. destruct (N.eqb c UNDERSCORE) eqn:E.
    + cbn [re_sub_from squeeze]. now rewrite E.
    + rewrite Z. cbn [squeeze]. now rewrite E.
Qed.

Lemma dropwhile_ext (p q : N -> bool) s :
  (forall c, p c = q c) -> dropwhile p s = dropwhile q s.
Proof.
  intros H. induction s as [|c s IH]; [reflexivity|]. simpl.
  rewrite H. destruct (q c); [exact IH | reflexivity].
Qed.

(** [sanitize_filename] in closed form. *)
Lemma sanitize_filename_eq name :
  sanitize_filename name
  = strip_with is_underscore
      (squeeze false
         (map (fun c => if alnum c then c else UNDERSCORE) (str_lower name))).
Proof.
  unfold sanitize_filename. rewrite sub_unsafe. unfold re_sub.
  rewrite (proj2 (sub_underscores _)). unfold strip_chars, strip_with.
  assert (D : forall s, dropwhile (fun c => existsb (N.eqb c) [UNDERSCORE]) s
                        = dropwhile is_underscore s).
  { intros s. apply dropwhile_ext. intros c. simpl. apply orb_false_r. }
  now rewrite !D.
Qed.

Lemma squeeze_chars P s : forall b,
  forallb P s = true -> forallb P (squeeze b s) = true.
Proof.
  induction s as [|c s IH]; intros b H; [reflexivity|].
  simpl in H. apply andb_true_iff in H. destruct H as [Hc H]. simpl.
  destruct (N.eqb c UNDERSCORE); [destruct b|]; cbn [forallb];
    try rewrite Hc; cbn [andb]; apply IH; exact H.
Qed.

Lemma squeeze_head s : forall b c t,
  squeeze b s = c :: t -> b = true -> N.eqb c UNDERSCORE = false.
Proof.
  induction s as [|x s IH]; intros b c t H Hb; [discriminate|].
  simpl in H. destruct (N.eqb x UNDERSCORE) eqn:E.
  - subst b. eauto.
  - inversion H; subst. exact E.
Qed.

Lemma no_double_cons a b t :
  no_double (a :: b :: t)
  = negb (N.eqb a UNDERSCORE && N.eqb b UNDERSCORE) && no_double (b :: t).
Proof. reflexivity. Qed.

Lemma squeeze_no_double s : forall b, no_double (squeeze b s) = true.
Proof.
  induction s as [|c s IH]; intros b; [reflexivity|]. simpl.
  destruct (N.eqb c UNDERSCORE) eqn:E.
  - destruct b; [apply IH|].
    specialize (IH true). destruct (squeeze true s) as [|d t] eqn:Es;
      [reflexivity|].
    rewrite no_double_cons, IH, E.
    now rewrite (squeeze_head s true d t Es eq_refl).
  - specialize (IH false). destruct (squeeze false s) as [|d t];
      [reflexivity|].
    now rewrite no_double_cons, IH, E.
Qed.

Lemma no_double_tail a r : no_double (a :: r) = true -> no_double r = true.
Proof.
  destruct r as [|b t]; [reflexivity|]. rewrite no_double_cons.
  intros H. apply andb_true_iff in H. apply H.
Qed.

Lemma no_double_app_r a : forall r, no_double (a ++ r) = true -> no_double r = true.
Proof.
  induction a as [|x a IH]; intros r H; [exact H|].
  apply IH. now apply (no_double_tail x).
Qed.

Lemma no_double_app_l r : forall b, no_double (r ++ b) = true -> no_double r = true.
Proof.
  induction r as [|x r IH]; intros b H; [reflexivity|].
  destruct r as [|y r]; [reflexivity|].
  change ((x :: y :: r) ++ b) with (x :: y :: (r ++ b)) in H.
  rewrite no_double_cons in *.
  apply andb_true_iff in H. destruct H as [H1 H2].
  rewrite H1. apply (IH b). exact H2.
Qed.

Lemma forallb_infix (P : N -> bool) a r b :
  forallb P (a ++ r ++ b) = true -> forallb P r = true.
Proof.
  rewrite !forallb_app. intros H.
  apply andb_true_iff in H. destruct H as [_ H].
  apply andb_true_iff in H. apply H.
Qed.

Lemma squeeze_fixed r : no_double r = true ->
  forall b, (b = true -> forall c t, r = c :: t -> N.eqb c UNDERSCORE = false) ->
  squeeze b r = r.
Proof.
  induction r as [|c r IH]; intros H b Hb; [reflexivity|]. simpl.
  pose proof (no_double_tail c r H) as H'.
  destruct (N.eqb c UNDERSCORE) eqn:E.
  - destruct b; [now rewrite (Hb eq_refl c r eq_refl) in E|].
    f_equal. apply IH; [exact H'|]. intros _ d t ->.
    rewrite no_double_cons, E in H.
    apply andb_true_iff in H. destruct H as [H _].
    now apply negb_true_iff in H.
  - f_equal. apply IH; [exact H' | discriminate].
Qed.

(** What [sanitize_filename] returns is a safe name. *)
Lemma sanitize_filename_safe name :
  forallb name_char (sanitize_filename name) = true
  /\ no_double (sanitize_filename name) = true
  /\ edge_free is_underscore (sanitize_filename name).
Proof.
  rewrite sanitize_filename_eq.
  set (m := squeeze false _).
  destruct (strip_with_infix is_underscore m) as (a & b & E).
  split; [|split; [|apply strip_with_edges]].
  - apply (forallb_infix name_char a _ b). rewrite <- E. unfold m.
    apply squeeze_chars. rewrite forallb_forall. intros c I.
    apply in_map_iff in I. destruct I as (x & <- & _). unfold name_char.
    destruct (alnum x) eqn:Ex; [now rewrite Ex | apply orb_true_r].
  - apply (no_double_app_l _ b), (no_double_app_r a). rewrite <- E.
    apply squeeze_no_double.
Qed.

(** X11. The file name that [sanitize_filename] makes holds only letters
    and digits of ASCII and underscores, has no two underscores in a row
    and neither begins nor ends with an underscore. *)
Theorem sanitize_filename_shape name :
  forallb name_char (sanitize_filename name) = true
  /\ no_double (sanitize_filename name) = true
  /\ edge_free is_underscore (sanitize_filename name).
Proof. apply sanitize_filename_safe. Qed.

Lemma strip_with_nil p s : strip_with p s = [] <-> forallb p s = true.
Proof.
  assert (D : forall t, dropwhile p t = [] <-> forallb p t = true).
  { induction t as [|c t IH]; simpl; [tauto|].
    destruct (p c); simpl; [exact IH | split; discriminate]. }
  unfold strip_with. split.
  - intros H. apply (f_equal (@rev N)) in H. rewrite rev_involutive in H.
    simpl in H. apply D in H.
    destruct (dropwhile_suffix p s) as [a Ea].
    destruct (dropwhile p s) as [|c t] eqn:Ed; [now apply D|].
    exfalso. pose proof (dropwhile_head p s c t Ed) as Hc.
    rewrite forallb_forall in H. specialize (H c).
    rewrite H in Hc; [discriminate|]. apply -> in_rev. now left.
  - intros H. apply D in H. now rewrite H.
Qed.

Lemma squeeze_all s : forall b,
  forallb is_underscore (squeeze b s) = forallb is_underscore s.
Proof.
  induction s as [|c s IH]; intros b; [reflexivity|].
  cbn [squeeze forallb]. destruct (N.eqb c UNDERSCORE) eqn:E.
  - assert (Iu : is_underscore c = true) by exact E. rewrite Iu. cbn [andb].
    destruct b; [apply IH|]. cbn [forallb]. rewrite Iu. apply IH.
  - assert (Iu : is_underscore c = false) by exact E. rewrite Iu.
    cbn [forallb]. now rewrite Iu.
Qed.

(** X12. The file name is empty exactly when the lower-cased name has
    no letter or digit of ASCII: such a plant gets no usable file name. *)
Theorem sanitize_filename_empty name :
  sanitize_filename name = []
  <-> forallb (fun c => negb (alnum c)) (str_lower name) = true.
Proof.
  rewrite sanitize_filename_eq, strip_with_nil, squeeze_all.
  induction (str_lower name) as [|c s IH]; [simpl; tauto|].
  cbn [map forallb]. destruct (alnum c) eqn:Ec; cbn [negb andb].
  - assert (Iu : is_underscore c = false).
    { apply N.eqb_neq. intros ->. discriminate. }
    rewrite Iu. split; discriminate.
  - assert (Iu : is_underscore UNDERSCORE = true) by reflexivity.
    rewrite Iu. exact IH.
Qed.

(** X13. A file name that lower-casing leaves alone is a fixed point:
    sanitizing it again returns it. *)
Theorem sanitize_filename_idempotent name :
  str_lower (sanitize_filename name) = sanitize_filename name ->
  sanitize_filename (sanitize_filename name) = sanitize_filename name.
Proof.
  intros L. destruct (sanitize_filename_safe name) as (C & D & E).
  set (r := sanitize_filename name) in *.
  rewrite sanitize_filename_eq, L.
  assert (M : map (fun c => if alnum c then c else UNDERSCORE) r = r).
  { clear -C. induction r as [|c r IH]; [reflexivity|]. simpl in *.
    apply andb_true_iff in C. destruct C as [Hc C]. rewrite (IH C).
    unfold name_char in Hc. destruct (alnum c); [reflexivity|].
    simpl in Hc. apply N.eqb_eq in Hc. now subst. }
  rewrite M, squeeze_fixed; [now apply strip_with_fixed | exact D | discriminate].
Qed.
End SanitizeMore.

(** The file name of a plant of the guide. *)
Lemma sanitize_filename_idempotent_witness :
  sanitize_filename (sanitize_filename (lit "Acer rubrum var. x"))
  = sanitize_filename (lit "Acer rubrum var. x").
Proof.
  apply sanitize_filename_idempotent. vm_compute. reflexivity.
Defined.

Section AcceptedMore.
Context {U : UnicodeDB} {S : PySet}.
Import PyStr.

Lemma genus_group s g s' g' :
  Re.leaves (Re.Seq (Re.Chr Re.upper) (Re.Plus Re.lower)) s g s' g' ->
  exists c t, Re.consumed s s' = c :: t /\ Re.upper c = true
              /\ t <> [] /\ forallb Re.lower t = true.
Proof.
  intros (sa & ga & (c & -> & Hc & _) & sb & gb & (d & -> & Hd & _)
          & pre & -> & Hp & _).
  exists c, (d :: pre). split; [|split; [exact Hc|split; [discriminate|]]].
  - apply (consumed_app (c :: d :: pre) s').
  - simpl. now rewrite Hd, Hp.
Qed.

Lemma entry_genus line m :
  Re.match_ entry_re line = Some m ->
  exists c t, Re.group m 1 = Some (c :: t) /\ Re.upper c = true
              /\ t <> [] /\ forallb Re.lower t = true.
Proof.
  unfold Re.match_. intros H. apply run_leaves in H.
  destruct H as (s' & g' & H & E). inversion E; subst g'; clear E.
  unfold entry_re in H.
  destruct H as (s1 & g1 & (g1' & H1 & ->) & s2 & g2 & Hsp1 & s3 & g3
                 & (g3' & H3 & ->) & H).
  destruct H as (s4 & g4 & Hsp2 & s5 & g5 & Hd & s6 & g6 & Hsp3 & s7 & g7
                 & (g7' & H7 & ->) & He).
  destruct He as (-> & _ & ->).
  pose proof (genus_group _ _ _ _ H1) as (c & t & E1 & G).
  apply leaves_plain in H1; [|reflexivity].
  apply leaves_plain in Hsp1; [|reflexivity].
  apply leaves_plain in H3; [|reflexivity].
  apply leaves_plain in Hsp2; [|reflexivity].
  apply leaves_plain in Hd; [|reflexivity].
  apply leaves_plain in Hsp3; [|reflexivity].
  apply leaves_plain in H7; [|reflexivity].
  subst. exists c, t. simpl. rewrite E1. auto.
Qed.

Lemma strip_letters c t :
  Re.upper c = true -> forallb Re.lower t = true -> strip (c :: t) = c :: t.
Proof.
  intros Hc Ht. apply strip_with_fixed. split.
  - intros x u E. inversion E; subst. now apply upper_not_space.
  - intros u x E.
    assert (I : In x (c :: t)) by (rewrite E; apply in_or_app; right; now left).
    destruct I as [<-|I]; [now apply upper_not_space|].
    rewrite forallb_forall in Ht. apply lower_not_space. now apply Ht.
Qed.

(** What lines 36-80 have checked of an entry that they accept. *)
Lemma candidate_accepts line sci com :
  candidate line = Ok (Some (sci, com)) ->
  exists c t species,
    sci = (c :: t) ++ lit " " ++ species
    /\ Re.upper c = true /\ t <> [] /\ forallb Re.lower t = true
    /\ (exists d u, species = d :: u /\ Re.lower d = true)
    /\ 3 <= length com
    /\ mem (str_lower (c :: t)) skip_terms = false
    /\ mem (str_lower com) header_names = false.
Proof.
  unfold candidate.
  destruct (is_empty line || startswith (lit "---") line
            || startswith (lit "Page |") line); [discriminate|].
  destruct (Re.match_ entry_re line) as [m|] eqn:Em; [|discriminate].
  pose proof (entry_genus line m Em) as (c & t & G1 & Uc & Nt & Lt).
  apply entry_groups in Em.
  destruct Em as (c1 & t1 & c2 & t2 & c3 & t3 & G1' & _ & G2 & U2 & G3 & _).
  rewrite G1 in G1'. inversion G1'; subst c1 t1; clear G1'.
  unfold group_strip. rewrite G1, G2, G3. cbn [bind].
  rewrite (strip_letters c t Uc Lt).
  assert (L2 : (c2 <= 122)%N).
  { unfold Re.lower in U2. apply andb_true_iff in U2. destruct U2 as [_ U2].
    now apply N.leb_le in U2. }
  destruct (tidy_head c2 t2 L2 (lower_not_space c2 U2)) as [sp E2].
  rewrite E2.
  match goal with |- context [if length ?x <? 3 then _ else _] =>
    set (common := x) end.
  destruct (Nat.ltb_spec (length common) 3) as [|Len]; [discriminate|].
  destruct (mem (str_lower (c :: t)) skip_terms) eqn:Sk; [discriminate|].
  cbn [bind index nth_error].
  destruct (str_isupper [c]); cbn [bind];
    [destruct (str_islower [c2])|]; cbn [negb]; try discriminate.
  destruct (mem (str_lower common) header_names) eqn:Hd; [discriminate|].
  intros H. inversion H; subst sci com; clear H.
  exists c, t, (c2 :: sp). repeat (split; [assumption || reflexivity|]).
  split; [eauto|]. repeat (split; [assumption|]). exact Hd.
Qed.

Lemma mapM_In {A B} (f : A -> result B) : forall xs ys,
  mapM f xs = Ok ys -> forall y, In y ys -> exists x, In x xs /\ f x = Ok y.
Proof.
  induction xs as [|x xs IH]; intros ys H y I; simpl in H.
  - inversion H; subst. contradiction.
  - apply bind_Ok in H. destruct H as (y0 & Hy & H).
    apply bind_Ok in H. destruct H as (ys' & Hys & H).
    inversion H; subst. destruct I as [<-|I].
    + exists x. split; [now left | exact Hy].
    + destruct (IH ys' Hys y I) as (x' & Ix & Ex). exists x'. split;
        [now right | exact Ex].
Qed.

Lemma first_seen_incl es : forall seen e, In e (first_seen seen es) -> In e es.
Proof.
  induction es as [|[[i sci] com] es IH]; intros seen e I; [contradiction|].
  simpl in I. destruct (mem (str_lower sci) seen).
  - right. eauto.
  - destruct I as [<-|I]; [now left | right; eauto].
Qed.

Lemma entries_from_candidate rest : forall i0 i sci com,
  In (i, sci, com) (entries_from i0 rest) ->
  exists l, candidate (strip l) = Ok (Some (sci, com)).
Proof.
  induction rest as [|l rest IH]; intros i0 i sci com I; [contradiction|].
  simpl in I. destruct (candidate (strip l)) as [[[s c]|]| |] eqn:E; eauto.
  destruct I as [I|I]; [inversion I; subst; eauto | eauto].
Qed.

Lemma parse_plants_accepts content :
  exists ps, parse_plants content = Ok ps /\ Forall accepted ps.
Proof.
  destruct (parse_plants_entries content) as (ps & E & Ep).
  exists ps. split; [exact Ep|]. apply Forall_forall. intros p Hp.
  destruct (mapM_In _ _ _ E p Hp) as ([[i sci] com] & Ie & He).
  apply first_seen_incl in Ie. unfold entries in Ie.
  apply entries_from_candidate in Ie. destruct Ie as [l Hc].
  apply candidate_accepts in Hc.
  destruct Hc as (c & t & species & -> & Uc & Nt & Lt & Sp & Len & Sk & Hd).
  unfold harvest_entry in He.
  destruct (harvest_total (split [NL] (locate_section content)) i
              (new_plant ((c :: t) ++ lit " " ++ species) com))
    as (p' & Hp' & Same).
  rewrite He in Hp'. inversion Hp'; subst p'; clear Hp'.
  exists c, t, species, com. unfold pget, Dict.get.
  rewrite (Same "scientific_name"%string), (Same "common_name"%string)
    by (simpl; intros C; repeat (destruct C as [C|C]; [discriminate|]); exact C).
  repeat (split; [assumption || reflexivity|]). exact Hd.
Qed.

(** X14. [parse_plants] only makes records of accepted entries: the
    scientific name is a genus of the form "[A-Z][a-z]+", a space and a
    species that begins with a lower-case letter; the common name has at
    least 3 characters; the genus is no section header and the common
    name no table header. *)
Theorem parse_plants_accepted content :
  exists ps, parse_plants content = Ok ps /\ Forall accepted ps.
Proof. apply parse_plants_accepts. Qed.
End AcceptedMore.

Section TallyMore.

Lemma get_or_dset_same k (v d0 : nat) d :
  Dict.get_or PyStr.eqb k d0 (Dict.set PyStr.eqb k v d) = v.
Proof. unfold Dict.get_or. now rewrite lookup_dset_same. Qed.

Lemma get_or_dset_other k k' (v d0 : nat) d : k <> k' ->
  Dict.get_or PyStr.eqb k d0 (Dict.set PyStr.eqb k' v d)
  = Dict.get_or PyStr.eqb k d0 d.
Proof. intros H. unfold Dict.get_or. now rewrite lookup_dset_other. Qed.

Lemma count_category_cons cat p plants :
  count_category cat (p :: plants)
  = (if PyStr.eqb (pget_or "category" (lit "Unknown") p) cat then 1 else 0)
    + count_category cat plants.
Proof.
  unfold count_category. cbn [filter].
  now destruct (PyStr.eqb (pget_or "category" (lit "Unknown") p) cat).
Qed.

Lemma tally_from cat plants : forall d,
  Dict.get_or PyStr.eqb cat 0 (fold_left tally_step plants d)
  = Dict.get_or PyStr.eqb cat 0 d + count_category cat plants.
Proof.
  induction plants as [|p plants IH]; intros d.
  - unfold count_category. simpl. lia.
  - cbn [fold_left]. rewrite IH, count_category_cons. unfold tally_step.
    destruct (PyStr.eqb (pget_or "category" (lit "Unknown") p) cat) eqn:E.
    + apply pystr_eqb_eq in E. rewrite E, get_or_dset_same. lia.
    + apply pystr_eqb_neq in E.
      rewrite get_or_dset_other by congruence. lia.
Qed.

Lemma sum_dset k d :
  list_sum (Dict.values
              (Dict.set PyStr.eqb k (Dict.get_or PyStr.eqb k 0 d + 1) d))
  = list_sum (Dict.values d) + 1.
Proof.
  unfold Dict.values, Dict.get_or.
  induction d as [|[k' v'] d IH]; simpl; [reflexivity|].
  destruct (PyStr.eqb k k'); simpl; [lia|]. rewrite IH. lia.
Qed.

Lemma tally_sum plants : forall d,
  list_sum (Dict.values (fold_left tally_step plants d))
  = list_sum (Dict.values d) + length plants.
Proof.
  induction plants as [|p plants IH]; intros d; [simpl; lia|].
  cbn [fold_left length]. rewrite IH. unfold tally_step. rewrite sum_dset. lia.
Qed.

Lemma tally_keys plants : forall d,
  NoDup (map fst d) -> NoDup (map fst (fold_left tally_step plants d)).
Proof.
  induction plants as [|p plants IH]; intros d H; [exact H|].
  simpl. apply IH. unfold tally_step. now apply NoDup_dset.
Qed.

(** X15. The tally of lines 244-247 counts every record once: the count
    of a category is the number of records that have it (a record
    without the key counting as Unknown), the counts add up to the
    number of records, and no category is listed twice. *)
Theorem tally_counts plants :
  (forall cat,
      Dict.get_or PyStr.eqb cat 0 (tally plants) = count_category cat plants)
  /\ list_sum (Dict.values (tally plants)) = length plants
  /\ NoDup (map fst (tally plants)).
Proof.
  unfold tally. split; [|split].
  - intros cat. now rewrite tally_from.
  - now rewrite tally_sum.
  - apply tally_keys. constructor.
Qed.
End TallyMore.

Section UpdateMore.
Context {U : UnicodeDB}.

Lemma lookup_sset_same {V} k (v : V) d :
  Dict.lookup String.eqb k (Dict.set String.eqb k v d) = Some v.
Proof.
  induction d as [|[k' v'] d IH]; simpl.
  - now rewrite String.eqb_refl.
  - destruct (String.eqb k k') eqn:E; simpl; rewrite E; auto.
Qed.

Lemma lookup_sset_other {V} k k' (v : V) d : k <> k' ->
  Dict.lookup String.eqb k (Dict.set String.eqb k' v d)
  = Dict.lookup String.eqb k d.
Proof.
  intros Hn. induction d as [|[k2 v2] d IH]; simpl.
  - apply String.eqb_neq in Hn. now rewrite Hn.
  - destruct (String.eqb k' k2) eqn:E; simpl.
    + apply String.eqb_eq in E. subst k2. apply String.eqb_neq in Hn.
      now rewrite Hn.
    + now rewrite IH.
Qed.

Lemma sset_same_value {V} k (v : V) d :
  Dict.lookup String.eqb k d = Some v -> Dict.set String.eqb k v d = d.
Proof.
  induction d as [|[k' v'] d IH]; simpl; [discriminate|].
  destruct (String.eqb k k') eqn:E.
  - intros H. inversion H; subst. reflexivity.
  - intros H. now rewrite IH.
Qed.

(** The outcome of lines 34-41 for one plant. *)
Lemma update_plant_outcome available plant :
  match Dict.lookup String.eqb "scientific_name"%string plant with
  | None => update_plant available plant = Raise KeyError
  | Some (JStr s) =>
      exists plant',
        update_plant available plant = Ok (plant', has_image available plant)
        /\ same_but_images plant plant'
        /\ Dict.has String.eqb "image_file"%string plant' = true
        /\ update_plant available plant'
           = Ok (plant', has_image available plant)
  | Some _ => update_plant available plant = Raise AttributeError
  end.
Proof.
  unfold update_plant, has_image.
  assert (G : forall (p : jplant) v,
             Dict.lookup String.eqb "scientific_name"%string p = Some v ->
             Dict.get String.eqb "scientific_name"%string p = Ok v).
  { intros p v E. unfold Dict.get. now rewrite E. }
  destruct (Dict.lookup String.eqb "scientific_name"%string plant)
    as [[s| |n]|] eqn:En;
    try (rewrite (G _ _ En); reflexivity);
    try (unfold Dict.get; rewrite En; reflexivity).
  rewrite (G _ _ En). cbn [bind].
  destruct (Dict.lookup PyStr.eqb (sanitize_filename s) available)
    as [img|] eqn:Ei.
  - assert (Ha : Dict.has PyStr.eqb (sanitize_filename s) available = true)
      by (unfold Dict.has; now rewrite Ei).
    assert (Hg : Dict.get PyStr.eqb (sanitize_filename s) available = Ok img)
      by (unfold Dict.get; now rewrite Ei).
    rewrite Ha, Hg. cbn [bind].
    eexists. split; [reflexivity|]. split; [|split].
    + intros k Hk. rewrite !lookup_sset_other; [reflexivity | | |];
        intros ->; apply Hk; simpl; tauto.
    + unfold Dict.has. rewrite !lookup_sset_other by discriminate.
      now rewrite lookup_sset_same.
    + rewrite (G _ (JStr s))
        by (rewrite !lookup_sset_other by discriminate; exact En).
      cbn [bind]. rewrite Ha, Hg. cbn [bind].
      rewrite (sset_same_value "image_file"%string)
        by (rewrite !lookup_sset_other by discriminate;
            apply lookup_sset_same).
      rewrite (sset_same_value "image_license"%string)
        by (rewrite !lookup_sset_other by discriminate;
            apply lookup_sset_same).
      rewrite (sset_same_value "image_author"%string)
        by apply lookup_sset_same.
      reflexivity.
  - assert (Ha : Dict.has PyStr.eqb (sanitize_filename s) available = false)
      by (unfold Dict.has; now rewrite Ei).
    rewrite Ha.
    destruct (Dict.has String.eqb "image_file"%string plant) eqn:Eh;
      cbn [negb].
    + exists plant. split; [reflexivity|]. split; [intros k _; reflexivity|].
      split; [exact Eh|].
      rewrite (G _ _ En). cbn [bind]. now rewrite Ha, Eh.
    + eexists. split; [reflexivity|]. split; [|split].
      * intros k Hk. rewrite lookup_sset_other; [reflexivity|].
        intros ->. apply Hk. simpl. tauto.
      * unfold Dict.has. now rewrite lookup_sset_same.
      * rewrite (G _ (JStr s))
          by (rewrite lookup_sset_other by discriminate; exact En).
        cbn [bind]. rewrite Ha.
        assert (Hf : Dict.has String.eqb "image_file"%string
                       (Dict.set String.eqb "image_file"%string JNull plant)
                     = true)
          by (unfold Dict.has; now rewrite lookup_sset_same).
        now rewrite Hf.
Qed.

Lemma update_plant_Ok available plant plant' m :
  update_plant available plant = Ok (plant', m) ->
  m = has_image available plant
  /\ same_but_images plant plant'
  /\ Dict.has String.eqb "image_file"%string plant' = true
  /\ update_plant available plant' = Ok (plant', m).
Proof.
  intros H. pose proof (update_plant_outcome available plant) as O.
  destruct (Dict.lookup String.eqb "scientific_name"%string plant)
    as [[s| |n]|]; try (rewrite O in H; discriminate).
  destruct O as (p' & E & Hs & Hh & Hi). rewrite E in H.
  inversion H; subst. auto.
Qed.

(** X16. When the update loop of [update_images.py] ends, it returns as
    many records as it was given, each changed at most in the three
    image keys and each with the key [image_file]; and the number it
    reports is the number of records whose file name is among the
    images. *)
Theorem update_plants_result available plants out matched :
  update_plants available plants = Ok (out, matched) ->
  Forall2 same_but_images plants out
  /\ Forall (fun p => Dict.has String.eqb "image_file"%string p = true) out
  /\ matched = length (filter (has_image available) plants).
Proof.
  revert out matched. induction plants as [|p plants IH]; intros out m H;
    simpl in H.
  - inversion H; subst. repeat split; constructor.
  - apply bind_Ok in H. destruct H as ([p' b] & Hp & H).
    apply bind_Ok in H. destruct H as ([ps' n] & Hps & H).
    inversion H; subst; clear H. simpl.
    apply update_plant_Ok in Hp. destruct Hp as (-> & Hs & Hh & _).
    destruct (IH ps' n Hps) as (F2 & Fh & ->).
    repeat split; [now constructor | now constructor |].
    destruct (has_image available p); simpl; lia.
Qed.

(** X17. The update loop is idempotent: run again on its own result
    with the same images, it returns the same records and the same
    number. *)
Theorem update_plants_idempotent available plants out matched :
  update_plants available plants = Ok (out, matched) ->
  update_plants available out = Ok (out, matched).
Proof.
  revert out matched. induction plants as [|p plants IH]; intros out m H;
    simpl in H.
  - inversion H; subst. reflexivity.
  - apply bind_Ok in H. destruct H as ([p' b] & Hp & H).
    apply bind_Ok in H. destruct H as ([ps' n] & Hps & H).
    inversion H; subst; clear H. simpl.
    apply update_plant_Ok in Hp. destruct Hp as (_ & _ & _ & ->).
    cbn [bind]. rewrite (IH ps' n Hps). reflexivity.
Qed.

(** X18. The update loop raises [KeyError] on the first record without
    [scientific_name] and [AttributeError] on the first whose name is not
    a string, and ends normally when every record has a string there. *)
Theorem update_plants_outcome available plants :
  match find (fun p => match Dict.lookup String.eqb "scientific_name"%string p
                       with Some (JStr _) => false | _ => true end) plants with
  | None => exists out, update_plants available plants = Ok out
  | Some p =>
      update_plants available plants
      = match Dict.lookup String.eqb "scientific_name"%string p with
        | None => Raise KeyError
        | Some _ => Raise AttributeError
        end
  end.
Proof.
  induction plants as [|p plants IH]; cbn [find update_plants]; [eauto|].
  pose proof (update_plant_outcome available p) as O.
  destruct (Dict.lookup String.eqb "scientific_name"%string p)
    as [[s| |n]|] eqn:En; try (rewrite O, ?En; reflexivity).
  destruct O as (p' & -> & _). cbn [bind].
  destruct (find _ plants) as [q|].
  - rewrite IH.
    now destruct (Dict.lookup String.eqb "scientific_name"%string q).
  - destruct IH as [out ->]. cbn [bind]. eauto.
Qed.
End UpdateMore.

(** One record with an image at hand and one without. *)
Lemma update_plants_result_witness :
  Forall2 same_but_images [jplant_acer; jplant_zea] jplants_updated
  /\ Forall (fun p => Dict.has String.eqb "image_file"%string p = true)
            jplants_updated
  /\ 1 = length (filter (has_image images_at_hand) [jplant_acer; jplant_zea]).
Proof.
  apply (update_plants_result images_at_hand [jplant_acer; jplant_zea]
                              jplants_updated 1).
  vm_compute. reflexivity.
Defined.

(** The same two records, updated twice. *)
Lemma update_plants_idempotent_witness :
  update_plants images_at_hand jplants_updated = Ok (jplants_updated, 1).
Proof.
  apply (update_plants_idempotent images_at_hand [jplant_acer; jplant_zea]).
  vm_compute. reflexivity.
Defined.

Section AgainMore.
Context {U : UnicodeDB} {S : PySet}.
Import PyStr.

Lemma clean_plant_settles p q :
  parsed p -> clean_plant p = Ok q -> settled q.
Proof.
  intros (sci & com & Hu & Hs) H. unfold clean_plant, pget, Dict.get in H.
  rewrite (Hs "scientific_name"%string) in H
    by (simpl; intros C; repeat (destruct C as [C|C]; [discriminate|]); exact C).
  cbn [new_plant Dict.lookup String.eqb Ascii.eqb Bool.eqb bind] in H.
  rewrite lookup_pset_other in H by discriminate.
  rewrite (Hs "common_name"%string) in H
    by (simpl; intros C; repeat (destruct C as [C|C]; [discriminate|]); exact C).
  cbn [new_plant Dict.lookup String.eqb Ascii.eqb Bool.eqb bind] in H.
  rewrite lookup_pset_other in H by discriminate.
  rewrite lookup_pset_same in H. cbn [bind] in H.
  destruct (first_token _ (clean_name_upper sci Hu)) as [genus Eg].
  unfold categorize_plant in H. rewrite Eg in H. cbn [bind] in H.
  inversion H; subst q; clear H.
  exists (clean_name sci), (clean_name com), genus.
  rewrite !lookup_pset_other by discriminate.
  rewrite !lookup_pset_same.
  rewrite lookup_pset_other by discriminate. rewrite lookup_pset_same.
  repeat split; try reflexivity; try apply clean_name_again; exact Eg.
Qed.

Lemma clean_plant_settled q : settled q -> clean_plant q = Ok q.
Proof.
  intros (sn & cn & genus & En & Cn & Ec & Cc & Eg & Ek).
  unfold clean_plant, pget, Dict.get. rewrite En. cbn [bind].
  rewrite Cn. unfold pset.
  rewrite (sset_same_value "scientific_name"%string sn q En).
  rewrite Ec. cbn [bind]. rewrite Cc.
  rewrite (sset_same_value "common_name"%string cn q Ec).
  rewrite En. cbn [bind]. unfold categorize_plant. rewrite Eg. cbn [bind].
  now rewrite (sset_same_value "category"%string _ q Ek).
Qed.

Lemma mapM_settles ps : Forall parsed ps ->
  forall cs, mapM clean_plant ps = Ok cs -> Forall settled cs.
Proof.
  induction 1 as [|p ps Hp _ IH]; intros cs H; simpl in H.
  - inversion H. constructor.
  - apply bind_Ok in H. destruct H as (q & Hq & H).
    apply bind_Ok in H. destruct H as (cs' & Hc & H).
    inversion H; subst. constructor; [now apply (clean_plant_settles p) | auto].
Qed.

Lemma mapM_settled qs : Forall settled qs -> mapM clean_plant qs = Ok qs.
Proof.
  induction 1 as [|q qs Hq _ IH]; [reflexivity|]. simpl.
  rewrite (clean_plant_settled q Hq). cbn [bind]. now rewrite IH.
Qed.

Lemma sort_pairs_sorted_id l :
  Sorted key_le l -> fold_right insert_by_key [] l = l.
Proof.
  induction 1 as [|x l Hs IH Hh]; [reflexivity|]. simpl. rewrite IH.
  destruct Hh as [|y l' Hxy]; [reflexivity|]. simpl.
  unfold key_le in Hxy. apply ltb_lex in Hxy. now rewrite Hxy.
Qed.

Lemma sort_plants_sorted_id out :
  Forall (fun p => exists sn,
              Dict.lookup String.eqb "scientific_name"%string p = Some sn) out ->
  StronglySorted name_le out -> sort_plants out = Ok out.
Proof.
  intros F St. unfold sort_plants. rewrite (mapM_names out F). cbn [bind].
  rewrite combine_names, sort_pairs_sorted_id.
  - rewrite map_map. simpl. now rewrite map_id.
  - apply StronglySorted_Sorted in St. clear F.
    induction St as [|p l Hs IH Hh]; [constructor|]. simpl.
    constructor; [exact IH|]. destruct Hh; constructor. exact H.
Qed.

(** X19. The steps of [main] after parsing are idempotent on what they
    produce: the clean-up of the names, the categorization, the merge and
    the sort of lines 218-235, run again on the output, return the output
    unchanged. *)
Theorem postprocessing_idempotent content :
  exists out,
    extract content = Ok out
    /\ (cs <- mapM clean_plant out ;; ms <- merge cs ;; sort_plants ms)
       = Ok out.
Proof.
  destruct (extract_pipeline content)
    as (ps & cs & ms & out & Ep & Fp & Ec & Fc & Em & Nm & Lm & _ & Es & Po
        & So & Fo & E).
  exists out. split; [exact E|].
  assert (Sc : Forall settled cs) by (apply (mapM_settles ps Fp cs Ec)).
  assert (So' : Forall settled out).
  { rewrite Forall_forall in *. intros q Hq. apply Sc.
    apply (Permutation_in _ Po) in Hq. destruct (Lm q Hq) as (b & a & -> & _).
    apply in_or_app. right. now left. }
  rewrite (mapM_settled out So'). cbn [bind].
  assert (Hn : Forall (fun p => exists sn,
              Dict.lookup String.eqb "scientific_name"%string p = Some sn) out).
  { eapply Forall_impl; [|exact Fo]. apply cleaned_has_name. }
  rewrite merge_distinct.
  - cbn [bind]. now apply sort_plants_sorted_id.
  - rewrite forallb_forall. intros q Hq. apply has_name_lookup.
    rewrite Forall_forall in Hn. now apply Hn.
  - eapply Permutation_NoDup; [|exact Nm]. apply Permutation_map.
    now apply Permutation_sym.
Qed.
End AgainMore.

Section BinomialMore.
Context {U : UnicodeDB} {S : PySet}.
Import PyStr.

Lemma split_ws_from_token t : forall cur rest,
  forallb (fun c => negb (isspace c)) t = true ->
  split_ws_from cur (t ++ rest) = split_ws_from (rev t ++ cur) rest.
Proof.
  induction t as [|c t IH]; intros cur rest F; [reflexivity|].
  simpl in F. apply andb_true_iff in F. destruct F as [Fc F].
  apply negb_true_iff in Fc. simpl. rewrite Fc, IH by exact F.
  now rewrite <- app_assoc.
Qed.

Lemma split_ws_from_space cur y r rest :
  cur = y :: r ->
  split_ws_from cur (32%N :: rest) = rev cur :: split_ws_from [] rest.
Proof. intros ->. reflexivity. Qed.

Lemma dropwhile_app_stop p x r : p x = false ->
  forall l, exists l', dropwhile p (l ++ x :: r) = l' ++ x :: r.
Proof.
  intros Hx. induction l as [|y l IH]; simpl.
  - rewrite Hx. exists []. reflexivity.
  - destruct (p y); [exact IH | exists (y :: l); reflexivity].
Qed.

Lemma strip_with_keeps p c a x y :
  p c = false -> p x = false ->
  exists z, strip_with p ((c :: a) ++ x :: y) = (c :: a) ++ x :: z.
Proof.
  intros Hc Hx. unfold strip_with.
  change ((c :: a) ++ x :: y) with (c :: (a ++ x :: y)).
  rewrite dropwhile_fixed by exact Hc.
  change (c :: (a ++ x :: y)) with ((c :: a) ++ x :: y).
  rewrite rev_app_distr. cbn [rev]. rewrite <- app_assoc. cbn [app].
  destruct (dropwhile_app_stop p x (rev (c :: a)) Hx (rev y)) as [l' E].
  cbn [rev] in E. rewrite E. exists (rev l').
  rewrite rev_app_distr. cbn [rev]. rewrite rev_app_distr, rev_involutive.
  cbn. now rewrite <- app_assoc.
Qed.

Lemma lower_not_edge c : Re.lower c = true -> name_edge c = false.
Proof.
  unfold Re.lower, name_edge. intros H. apply andb_true_iff in H.
  destruct H as [H1 H2]. apply N.leb_le in H1, H2.
  destruct (existsb (N.eqb c) (lit " .,;:")) eqn:E; [exfalso|reflexivity].
  cbn in E.
  repeat (apply orb_true_iff in E; destruct E as [E|E]);
    try (apply N.eqb_eq in E; lia); discriminate.
Qed.

(** [clean_name] keeps the genus and the first letter of the species. *)
Lemma clean_name_binomial c t d u :
  Re.upper c = true -> forallb Re.lower t = true -> t <> [] ->
  Re.lower d = true ->
  binomial (clean_name ((c :: t) ++ lit " " ++ d :: u)).
Proof.
  intros Uc Lt Nt Ld. unfold clean_name.
  change (strip_chars (lit " .,;:")) with (strip_with name_edge).
  assert (F : forallb (fun x => negb (isspace x)) (c :: t) = true).
  { simpl. rewrite (upper_not_space c Uc). simpl.
    rewrite forallb_forall in *. intros x I.
    now rewrite (lower_not_space x (Lt x I)). }
  unfold split_ws. rewrite (split_ws_from_token (c :: t)) by exact F.
  rewrite app_nil_r.
  change (lit " " ++ d :: u) with (32%N :: d :: u).
  assert (R : exists y r, rev (c :: t) = y :: r).
  { destruct (rev (c :: t)) as [|y r] eqn:E; [|eauto].
    apply (f_equal (@rev N)) in E. rewrite rev_involutive in E. discriminate. }
  destruct R as (y & r & Er).
  rewrite (split_ws_from_space (rev (c :: t)) y r (d :: u) Er).
  rewrite rev_involutive.
  destruct (split_ws_head d u (lower_not_space d Ld)) as (w & ws & Ew).
  unfold split_ws in Ew. rewrite Ew.
  change (join (lit " ") ((c :: t) :: (d :: w) :: ws))
    with ((c :: t) ++ lit " " ++ join (lit " ") ((d :: w) :: ws)).
  destruct (join_head (lit " ") d w ws) as [j Ej]. rewrite Ej.
  replace ((c :: t) ++ lit " " ++ d :: j)
    with ((c :: t ++ [32%N]) ++ d :: j)
    by (cbn; now rewrite <- app_assoc).
  destruct (strip_with_keeps name_edge c (t ++ [32%N]) d j
              (upper_not_punct c Uc) (lower_not_edge d Ld)) as [z Ez].
  rewrite Ez. exists c, t, d, z. cbn. rewrite <- app_assoc. cbn.
  repeat split; assumption.
Qed.

Lemma clean_plant_name p q s :
  clean_plant p = Ok q -> pget "scientific_name" p = Ok s ->
  pget "scientific_name" q = Ok (clean_name s).
Proof.
  unfold clean_plant. intros H Hs. rewrite Hs in H. cbn [bind] in H.
  apply bind_Ok in H. destruct H as (cn & _ & H).
  apply bind_Ok in H. destruct H as (sn & _ & H).
  apply bind_Ok in H. destruct H as (cat & _ & H).
  inversion H; subst q. unfold pget, Dict.get.
  rewrite !lookup_pset_other by discriminate. now rewrite lookup_pset_same.
Qed.

(** X20. Every record of the output has a name that begins with a genus
    of the form "[A-Z][a-z]+", a space and a lower-case letter: the
    clean-up of [main] keeps what [parse_plants] checked of the name. *)
Theorem output_binomial content :
  exists out,
    extract content = Ok out
    /\ Forall (fun p => exists name, pget "scientific_name" p = Ok name
                                     /\ binomial name) out.
Proof.
  destruct (extract_pipeline content)
    as (ps & cs & ms & out & Ep & _ & Ec & _ & _ & _ & Lm & _ & _ & Po & _
        & _ & E).
  exists out. split; [exact E|]. apply Forall_forall. intros q Hq.
  apply (Permutation_in _ Po) in Hq. destruct (Lm q Hq) as (b & a & Eq & _).
  assert (Iq : In q cs) by (rewrite Eq; apply in_or_app; right; now left).
  destruct (mapM_In _ _ _ Ec q Iq) as (p & Ip & Hp).
  destruct (parse_plants_accepts content) as (ps' & Ep' & Fa).
  rewrite Ep in Ep'. inversion Ep'; subst ps'.
  rewrite Forall_forall in Fa.
  destruct (Fa p Ip) as (c & t & species & com & Hs & Uc & Nt & Lt & Sp & _).
  destruct Sp as (d & u & Es & Ld). subst species.
  exists (clean_name ((c :: t) ++ lit " " ++ d :: u)).
  split; [now apply (clean_plant_name p) | now apply clean_name_binomial].
Qed.
End BinomialMore.
